(** * Syntek front-end: tokenizer, [new] expressions, class-body linter rule

    A shallow embedding of the TypeScript sources of the syntek compiler
    front-end, and the properties its specification states about them.

    - [Tokenizer] (src/parser/Tokenizer.ts) is embedded method by method;
      the object's mutable fields are threaded as a record.
    - [newExpr] (src/parser/internal/expressions/newExpr.ts) runs in a small
      parser monad, over the helpers it imports.
    - [variableDecl] (src/parser/internal/declarations/variableDecl.ts)
      runs in the same monad.
    - [declarationsInClass] (the linter rule) is a function from a class
      declaration to the reports it makes.
    - [sanitize] (tests/TestUtils.ts) is a function on strings.

    The grammar module (token kinds, tables, node classes), the [Parser]
    class and the other expression parsers are not among the sources.  The
    tokenizer, [newExpr] and the rule take what they use of them as
    parameters; where a worked example needs them they are modelled from
    the specification, and marked so.

    JavaScript strings are modelled as [string]: a character is a code unit
    below 256. *)

From Stdlib Require Import String Ascii List Arith Bool Lia.
Import ListNotations.
Open Scope string_scope.
Set Warnings "-register-all".

(* ================================================================== *)
(** * Positions and spans *)

(** A position is the pair [[line, column]] the source passes to [Span]. *)
Definition Position : Type := (nat * nat)%type.

Record Span : Type := mkSpan { start : Position; end_ : Position }.

(* ================================================================== *)
(** * Lexical tokens *)

(** Modelled from the spec: the enumeration [LexicalToken] of the grammar
    module, which the sources use but do not contain.  The members named in
    the sources keep their names ([INDENT], [OUTDENT], [NEWLINE], [EOF],
    [COMMENT], [NUMBER], [STRING], [IDENTIFIER], [IS_NOT], [IS_LESS_THAN],
    [IS_GREATER_THAN], [DOT], [LT], [L_PAR], [R_PAR], [COLON], [EQUAL]); the
    others are the operators and reserved words of sections 4.1.3 and 4.2. *)
Inductive LexicalToken : Type :=
  (* virtual *)
  | NEWLINE | INDENT | OUTDENT | EOF
  (* literals and names *)
  | IDENTIFIER | NUMBER | STRING | COMMENT
  (* single characters *)
  | EQUAL | PLUS | MINUS | STAR | SLASH | PERCENT | LT | GT
  | DOT | COMMA | COLON
  | L_PAR | R_PAR | L_SQB | R_SQB | L_BRACE | R_BRACE
  (* operators of the precedence ladder that are longer than one character *)
  | EQUAL_EQUAL | BANG_EQUAL | LT_EQUAL | GT_EQUAL | STAR_STAR
  (* multi-word comparison operators *)
  | IS_NOT | IS_LESS_THAN | IS_GREATER_THAN
  (* reserved words *)
  | IS | AND | OR | NOT | INSTANCEOF
  | TRUE | FALSE | NULL | THIS | SUPER | NEW | ASYNC
  | VAR | FUNCTION | CLASS | EXTENDS | STATIC | IMPORT
  | IF | ELSE | SWITCH | CASE | DEFAULT | FOR | IN | WHILE | REPEAT
  | TRY | CATCH | FINALLY | THROW | RETURN | BREAK | CONTINUE | FALLTHROUGH.

Definition LexicalToken_eq_dec (a b : LexicalToken) : {a = b} + {a <> b}.
Proof. decide equality. Defined.

Definition LexicalToken_eqb (a b : LexicalToken) : bool :=
  if LexicalToken_eq_dec a b then true else false.

Record Token : Type := mkToken
  { type : LexicalToken; lexeme : string; span : Span }.

(** The four kinds the specification calls virtual. *)
Definition is_virtual (k : LexicalToken) : bool :=
  match k with
  | INDENT | OUTDENT | NEWLINE | EOF => true
  | _ => false
  end.

(* ================================================================== *)
(** * Diagnostics *)

Inductive Level : Type := ERROR | WARNING | INFO.

Record Diagnostic : Type := mkDiagnostic
  { level : Level;
    source : string;
    msg : string;
    dspan : Span;
    info : list (string * Span) }.

(* ================================================================== *)
(** * Strings and the regular expressions of the tokenizer *)

Definition code (c : ascii) : nat := nat_of_ascii c.

Definition char_in (lo hi c : ascii) : bool :=
  (code lo <=? code c)%nat && (code c <=? code hi)%nat.
Arguments char_in (lo hi c)%_char_scope.

(** [\d] *)
Definition is_digit (c : ascii) : bool := char_in "0" "9" c.

(** [[a-z_]] under the [i] flag *)
Definition is_word_start (c : ascii) : bool :=
  char_in "a" "z" c || char_in "A" "Z" c || (c =? "_")%char.

(** [\w] *)
Definition is_word_char (c : ascii) : bool :=
  is_word_start c || is_digit c.

(** [\s], which is also what [trimLeft] strips: tab, line feed, vertical
    tab, form feed, carriage return, space and no-break space. *)
Definition is_space (c : ascii) : bool :=
  let n := code c in
  ((n =? 9) || (n =? 10) || (n =? 11) || (n =? 12) || (n =? 13)
   || (n =? 32) || (n =? 160))%nat.

(** What [.] refuses: the line terminators. *)
Definition is_line_terminator (c : ascii) : bool :=
  let n := code c in ((n =? 10) || (n =? 13))%nat.

Definition is_tab (c : ascii) : bool := (code c =? 9)%nat.

Definition char_string (c : ascii) : string := String c "".

Fixpoint take_while (p : ascii -> bool) (s : string) : string :=
  match s with
  | String c r => if p c then String c (take_while p r) else ""
  | "" => ""
  end.

Fixpoint drop_while (p : ascii -> bool) (s : string) : string :=
  match s with
  | String c r => if p c then drop_while p r else s
  | "" => ""
  end.

(** [s.slice(n)] *)
Fixpoint slice (n : nat) (s : string) : string :=
  match n, s with
  | 0, _ => s
  | S n', String _ r => slice n' r
  | S _, "" => ""
  end.

(** [s.charAt(n)] / [s[n]], when [n] is inside the string *)
Definition charAt (n : nat) (s : string) : option ascii := String.get n s.

(** [s.charAt(0) === c] *)
Definition starts_with_char (c : ascii) (s : string) : bool :=
  match charAt 0 s with
  | Some c' => (c' =? c)%char
  | None => false
  end.

(** [s] starts with [p]: what is left of [s] after [p] *)
Fixpoint strip_prefix (p s : string) : option string :=
  match p, s with
  | "", _ => Some s
  | String a p', String b s' =>
      if (a =? b)%char then strip_prefix p' s' else None
  | String _ _, "" => None
  end.

(** [m] is the beginning of [s] *)
Definition starts_with (m s : string) : Prop := exists r, s = m ++ r.

(** [source.split(/\r?\n/)]: a line ends at a line feed, together with the
    carriage return just before it when there is one.  The result is never
    empty: the empty string splits into one empty line. *)
Fixpoint split_lines_from (current : string) (s : string) : list string :=
  match s with
  | "" => [current]
  | String c r =>
      if (code c =? 10)%nat then current :: split_lines_from "" r
      else if (code c =? 13)%nat then
        match r with
        | String d r' =>
            if (code d =? 10)%nat then current :: split_lines_from "" r'
            else split_lines_from (current ++ char_string c) r
        | "" => [current ++ char_string c]
        end
      else split_lines_from (current ++ char_string c) r
  end.

Definition split_lines (s : string) : list string := split_lines_from "" s.

(** [/^\t+/] : the leading tabs *)
Definition re_tabs (s : string) : option string :=
  match take_while is_tab s with
  | "" => None
  | m => Some m
  end.

(** The number expression [/^\d(?:\d|_)* (?:\.\d(?:\d|_)* )?/] (regular
    expressions are quoted with a blank after a star that a parenthesis
    follows): a digit, digits or underscores, and an optional fraction made
    of a dot, a digit, and digits or underscores.  The first part takes
    every digit and underscore and the fraction cannot start with one, so
    the longest match is the only one. *)
Definition is_digit_or_underscore (c : ascii) : bool :=
  is_digit c || (c =? "_")%char.

Definition re_fraction (s : string) : string :=
  match s with
  | String dot (String d r) =>
      if (dot =? ".")%char && is_digit d
      then String dot (String d (take_while is_digit_or_underscore r))
      else ""
  | _ => ""
  end.

Definition re_number (s : string) : option string :=
  match s with
  | String c r =>
      if is_digit c then
        let int := take_while is_digit_or_underscore r in
        Some (String c (int ++ re_fraction (drop_while is_digit_or_underscore r)))
      else None
  | "" => None
  end.

(** [(?:[^'\\]|\\.)* '] : the body of a string literal and its closing
    quote.  The two alternatives start with different characters and
    neither starts with a quote, so the first quote met at the start of an
    item is the only place where the expression can end: backtracking finds
    nothing more than this left-to-right scan. *)
Fixpoint re_string_body (s : string) : option string :=
  match s with
  | "" => None
  | String c r =>
      if (c =? "'")%char then Some (char_string c)
      else if (c =? "\")%char then
        match r with
        | String d r' =>
            if is_line_terminator d then None
            else option_map (fun m => String c (String d m)) (re_string_body r')
        | "" => None
        end
      else option_map (String c) (re_string_body r)
  end.

(** [/^'(?:[^'\\]|\\.)* '/] *)
Definition re_string (s : string) : option string :=
  match s with
  | String c r =>
      if (c =? "'")%char then option_map (String c) (re_string_body r)
      else None
  | "" => None
  end.

(** [/^[a-z_]\w*/i] *)
Definition re_word (s : string) : option string :=
  match s with
  | String c r =>
      if is_word_start c then Some (String c (take_while is_word_char r))
      else None
  | "" => None
  end.

(** The result of matching
    [/^is\s+(not|(?:(less|greater)\s+than))/]: the whole match and the two
    capture groups (the second one is undefined for [is not]). *)
Record ComparisonMatch : Type := mkComparisonMatch
  { whole : string; group1 : string; group2 : option string }.

(** [\s+] followed by the rest: the blanks (at least one) and what follows
    them.  What follows never starts with a blank, so a shorter run of
    blanks cannot help the match. *)
Definition re_spaces (s : string) : option (string * string) :=
  match take_while is_space s with
  | "" => None
  | ws => Some (ws, drop_while is_space s)
  end.

Definition re_less_greater_than (w : string) (s : string) : option string :=
  match strip_prefix w s with
  | Some r =>
      match re_spaces r with
      | Some (ws, r') =>
          match strip_prefix "than" r' with
          | Some _ => Some (w ++ ws ++ "than")
          | None => None
          end
      | None => None
      end
  | None => None
  end.

Definition re_comparison (s : string) : option ComparisonMatch :=
  match strip_prefix "is" s with
  | Some r =>
      match re_spaces r with
      | Some (ws, r') =>
          match strip_prefix "not" r' with
          | Some _ => Some (mkComparisonMatch ("is" ++ ws ++ "not") "not" None)
          | None =>
              match re_less_greater_than "less" r' with
              | Some g =>
                  Some (mkComparisonMatch ("is" ++ ws ++ g) g (Some "less"))
              | None =>
                  match re_less_greater_than "greater" r' with
                  | Some g =>
                      Some (mkComparisonMatch ("is" ++ ws ++ g) g
                                              (Some "greater"))
                  | None => None
                  end
              end
          end
      | None => None
      end
  | None => None
  end.

(* ================================================================== *)
(** * The tokenizer *)

(** The fields of the [Tokenizer] object.  [lines] is read-only; the other
    four are the state the methods update. *)
Record Tokenizer : Type := mkTokenizer
  { lines : list string;
    tokens : list Token;
    comments : list Token;
    diagnostics : list Diagnostic;
    indent : nat }.

(** [new Tokenizer(source)] *)
Definition newTokenizer (source : string) : Tokenizer :=
  mkTokenizer (split_lines source) [] [] [] 0.

(** [this.tokens.push(...ts)] *)
Definition push_tokens (ts : list Token) (this : Tokenizer) : Tokenizer :=
  mkTokenizer (lines this) (tokens this ++ ts) (comments this)
              (diagnostics this) (indent this).

(** [this.comments.push(t)] *)
Definition push_comment (t : Token) (this : Tokenizer) : Tokenizer :=
  mkTokenizer (lines this) (tokens this) (comments this ++ [t])
              (diagnostics this) (indent this).

(** [this.diagnostics.push(d)] *)
Definition push_diagnostic (d : Diagnostic) (this : Tokenizer) : Tokenizer :=
  mkTokenizer (lines this) (tokens this) (comments this)
              (diagnostics this ++ [d]) (indent this).

(** [this.indent = n] *)
Definition set_indent (n : nat) (this : Tokenizer) : Tokenizer :=
  mkTokenizer (lines this) (tokens this) (comments this)
              (diagnostics this) n.

(** [new Span([line, from], [line, to])] *)
Definition line_span (line from to : nat) : Span :=
  mkSpan (line, from) (line, to).

Definition than_message : string :=
  "'than' must come after 'is less' or 'is greater'. Make sure it's on the same line".

Definition after_is_message (lexeme : string) : string :=
  "'" ++ lexeme ++ "' must come after 'is'. Make sure it's on the same line".

Definition unexpected_message (char : ascii) : string :=
  "Unexpected token '" ++ char_string char ++ "'".

(** [getIndent]: the number of leading tabs *)
Definition getIndent (line : string) : nat :=
  match re_tabs line with
  | Some m => String.length m
  | None => 0
  end.

(** [error]: record a diagnostic over the lexeme, return its length *)
Definition error (message lexeme : string) (lineIndex colIndex : nat)
    (this : Tokenizer) : nat * Tokenizer :=
  (String.length lexeme,
   push_diagnostic
     (mkDiagnostic ERROR "tokenizer" message
        (line_span lineIndex colIndex (colIndex + String.length lexeme)) [])
     this).

(** [addIndentTokens] *)
Definition addIndentTokens (lineIndex indent' : nat) (this : Tokenizer)
    : Tokenizer :=
  if (indent this <? indent')%nat then
    let diff := indent' - indent this in
    push_tokens
      (repeat (mkToken INDENT (char_string "009") (line_span lineIndex 0 diff))
              diff)
      this
  else if (indent' <? indent this)%nat then
    push_tokens
      (repeat (mkToken OUTDENT "" (line_span lineIndex 0 indent'))
              (indent this - indent'))
      this
  else this.

(** [matchNumber] *)
Definition matchNumber (chars : string) (lineIndex colIndex : nat)
    (this : Tokenizer) : nat * Tokenizer :=
  match re_number chars with
  | Some numberMatch =>
      (String.length numberMatch,
       push_tokens
         [mkToken NUMBER numberMatch
            (line_span lineIndex colIndex
                       (colIndex + String.length numberMatch))]
         this)
  | None => (0, this)
  end.

(** [matchString] *)
Definition matchString (chars : string) (lineIndex colIndex : nat)
    (this : Tokenizer) : nat * Tokenizer :=
  match re_string chars with
  | Some stringMatch =>
      (String.length stringMatch,
       push_tokens
         [mkToken STRING stringMatch
            (line_span lineIndex colIndex
                       (colIndex + String.length stringMatch))]
         this)
  | None => (0, this)
  end.

(** [matchComment] *)
Definition matchComment (chars : string) (lineIndex colIndex : nat)
    (this : Tokenizer) : nat * Tokenizer :=
  (String.length chars,
   push_comment
     (mkToken COMMENT chars
        (line_span lineIndex colIndex (colIndex + String.length chars)))
     this).

(** [lexeme === 'less' || lexeme === 'greater' || lexeme === 'than'] *)
Definition is_bare_word (lexeme : string) : bool :=
  (lexeme =? "less") || (lexeme =? "greater") || (lexeme =? "than").

(** The [switch] of [matchWord] on
    [comparisonOperatorMatch[2] || comparisonOperatorMatch[1]] *)
Definition comparison_type (m : ComparisonMatch) (type0 : LexicalToken)
    : LexicalToken :=
  let operator := match group2 m with Some g => g | None => group1 m end in
  if operator =? "not" then IS_NOT
  else if operator =? "less" then IS_LESS_THAN
  else if operator =? "greater" then IS_GREATER_THAN
  else type0.

Section Tables.

(** The tables [CHAR_TOKENS] and [WORD_TOKENS] of the grammar module are
    not among the sources: the tokenizer is embedded over any two tables.
    A lookup is [Some] exactly when the table has the key as an own
    property.  (The source tests the value found in [CHAR_TOKENS] for
    truthiness; the tables are taken to hold no falsy member.) *)
Variable CHAR_TOKENS : ascii -> option LexicalToken.
Variable WORD_TOKENS : string -> option LexicalToken.

(** [matchWord] *)
Definition matchWord (wordMatch chars : string) (lineIndex colIndex : nat)
    (this : Tokenizer) : nat * Tokenizer :=
  let lexeme := wordMatch in
  let type0 :=
    match WORD_TOKENS lexeme with
    | Some t => t
    | None => IDENTIFIER
    end in
  if is_bare_word lexeme then
    error (if lexeme =? "than" then than_message else after_is_message lexeme)
          lexeme lineIndex colIndex this
  else
    let '(lexeme, type1) :=
      if wordMatch =? "is" then
        match re_comparison chars with
        | Some comparisonOperatorMatch =>
            (whole comparisonOperatorMatch,
             comparison_type comparisonOperatorMatch type0)
        | None => (lexeme, type0)
        end
      else (lexeme, type0) in
    (String.length lexeme,
     push_tokens
       [mkToken type1 lexeme
          (line_span lineIndex colIndex (colIndex + String.length lexeme))]
       this).

(** One turn of the [while] loop of [scanLine], entered with
    [colIndex < line.length]: the new column and the new state. *)
Definition scanChar (line : string) (lineIndex colIndex : nat)
    (this : Tokenizer) : nat * Tokenizer :=
  match charAt colIndex line with
  | None => (colIndex, this)
  | Some char =>
      match CHAR_TOKENS char with
      | Some singleCharType =>
          (colIndex + 1,
           push_tokens
             [mkToken singleCharType (char_string char)
                (line_span lineIndex colIndex (colIndex + 1))]
             this)
      | None =>
          let remainingChars := slice colIndex line in
          let '(toAdd, this') :=
            if is_digit char then
              matchNumber remainingChars lineIndex colIndex this
            else if (char =? "'")%char then
              matchString remainingChars lineIndex colIndex this
            else if (char =? "#")%char then
              matchComment remainingChars lineIndex colIndex this
            else
              match re_word remainingChars with
              | Some wordMatch =>
                  matchWord wordMatch remainingChars lineIndex colIndex this
              | None => (0, this)
              end in
          if (0 <? toAdd)%nat then (colIndex + toAdd, this')
          else
            let '(n, this'') :=
              error (unexpected_message char) (char_string char)
                    lineIndex colIndex this' in
            (colIndex + n, this'')
      end
  end.

(** The [while (colIndex < line.length)] loop.  Every turn moves the column
    forward, so [line.length] turns are enough ([scanChars_fuel] below). *)
Fixpoint scanChars (fuel : nat) (line : string) (lineIndex colIndex : nat)
    (this : Tokenizer) : Tokenizer :=
  match fuel with
  | 0 => this
  | S fuel' =>
      if (colIndex <? String.length line)%nat then
        let '(colIndex', this') := scanChar line lineIndex colIndex this in
        scanChars fuel' line lineIndex colIndex' this'
      else this
  end.

(** [scanLine] *)
Definition scanLine (lineIndex : nat) (this : Tokenizer) : Tokenizer :=
  let line := nth lineIndex (lines this) "" in
  let trimmed := drop_while is_space line in
  if (String.length trimmed =? 0)%nat then this
  else if starts_with_char "#" trimmed then
    push_comment
      (mkToken COMMENT trimmed
         (line_span lineIndex
            (String.length line - String.length trimmed)
            (String.length line)))
      this
  else
    let indent' := getIndent line in
    let this1 := addIndentTokens lineIndex indent' this in
    let this2 := set_indent indent' this1 in
    let this3 :=
      scanChars (String.length line) line lineIndex indent' this2 in
    push_tokens
      [mkToken NEWLINE (char_string "010")
         (line_span lineIndex (String.length line)
                    (String.length line + 1))]
      this3.

(** What [tokenize] returns *)
Record TokenizeResult : Type := mkTokenizeResult
  { r_tokens : list Token;
    r_comments : list Token;
    r_diagnostics : list Diagnostic }.

(** The [for] loop of [tokenize]: [scanLine(i)] for every line index *)
Definition scanLines (this : Tokenizer) : Tokenizer :=
  fold_left (fun this' i => scanLine i this')
            (seq 0 (List.length (lines this))) this.

(** [tokenize], on a tokenizer object *)
Definition tokenize_this (this0 : Tokenizer) : TokenizeResult :=
  let this1 := scanLines this0 in
  let last := List.length (lines this1) - 1 in
  let this2 :=
    push_tokens
      (repeat (mkToken OUTDENT "" (line_span last 0 (indent this1)))
              (indent this1))
      this1 in
  let lastLength := String.length (nth last (lines this2) "") in
  let this3 :=
    push_tokens [mkToken EOF "" (line_span last lastLength (lastLength + 1))]
                this2 in
  mkTokenizeResult (tokens this3) (comments this3) (diagnostics this3).

(** [new Tokenizer(source).tokenize()] *)
Definition tokenize (source : string) : TokenizeResult :=
  tokenize_this (newTokenizer source).

(** ** What the tokens of a line are *)

(** A kind that one of the two tables holds *)
Definition table_kind (k : LexicalToken) : Prop :=
  (exists c, CHAR_TOKENS c = Some k) \/ (exists w, WORD_TOKENS w = Some k).

(** The kinds that scanning the characters of a line can give a token *)
Definition scanned_kind (k : LexicalToken) : Prop :=
  In k [NUMBER; STRING; IDENTIFIER; IS_NOT; IS_LESS_THAN; IS_GREATER_THAN]
  \/ table_kind k.

(** The token lies on line [lineIndex], and its lexeme is the text of
    [line] at the columns of its span. *)
Definition covers (line : string) (lineIndex : nat) (t : Token) : Prop :=
  exists col,
    span t = line_span lineIndex col (col + String.length (lexeme t))
    /\ substring col (String.length (lexeme t)) line = lexeme t.

Definition scanned (line : string) (lineIndex : nat) (t : Token) : Prop :=
  scanned_kind (type t) /\ covers line lineIndex t.

Definition scanned_comment (line : string) (lineIndex : nat) (t : Token)
    : Prop :=
  type t = COMMENT /\ covers line lineIndex t.

(** What scanning characters of a line may do to the tokenizer: add scanned
    tokens and comments (and diagnostics), nothing else. *)
Record step_ok (line : string) (lineIndex : nat) (this this' : Tokenizer)
    : Prop := mk_step_ok
  { so_lines : lines this' = lines this;
    so_indent : indent this' = indent this;
    so_tokens : exists ts, tokens this' = (tokens this ++ ts)%list
                           /\ Forall (scanned line lineIndex) ts;
    so_comments : exists cs, comments this' = (comments this ++ cs)%list
                             /\ Forall (scanned_comment line lineIndex) cs }.

End Tables.

(** ** Properties of the tokens returned *)

Definition count_kind (k : LexicalToken) (ts : list Token) : nat :=
  count_occ LexicalToken_eq_dec (map type ts) k.

(** The tokens emitted so far hold as many [INDENT]s as [OUTDENT]s plus the
    running indent. *)
Definition balanced (this : Tokenizer) : Prop :=
  count_kind INDENT (tokens this)
  = count_kind OUTDENT (tokens this) + indent this.

(** The text of the source at a span: the columns of the span, on the line
    where the span starts. *)
Definition source_text (ls : list string) (sp : Span) : string :=
  substring (snd (start sp)) (snd (end_ sp) - snd (start sp))
            (nth (fst (start sp)) ls "").

(** What the code gives each token as its lexeme *)
Definition lexeme_ok (ls : list string) (t : Token) : Prop :=
  (type t = INDENT -> lexeme t = char_string "009")
  /\ (type t = NEWLINE -> lexeme t = char_string "010")
  /\ (type t = OUTDENT \/ type t = EOF -> lexeme t = "")
  /\ (is_virtual (type t) = false -> lexeme t = source_text ls (span t)).

Definition lexemes_ok (this : Tokenizer) : Prop :=
  Forall (lexeme_ok (lines this)) (tokens this)
  /\ Forall (lexeme_ok (lines this)) (comments this).


(* ================================================================== *)
(** * Concrete tables *)

(** A JavaScript object used as a table: its own properties, in the order
    of the literal.  A lookup finds the first entry with the key. *)
Definition lookup {K V : Type} (eqb : K -> K -> bool) (entries : list (K * V))
    (key : K) : option V :=
  option_map snd (find (fun e => eqb (fst e) key) entries).

(** Modelled from the spec: the table [CHAR_TOKENS] of the grammar module
    (absent from the sources), "single-char operator/punctuation from a
    fixed table": the one-character operators of the precedence ladder and
    the brackets and separators of sections 4.2.3 to 4.2.6.  Blanks are not
    keys ("no whitespace is tokenised"). *)
Definition CHAR_TOKENS_entries : list (ascii * LexicalToken) :=
  [ ("="%char, EQUAL); ("+"%char, PLUS); ("-"%char, MINUS); ("*"%char, STAR);
    ("/"%char, SLASH); ("%"%char, PERCENT); ("<"%char, LT); (">"%char, GT);
    ("."%char, DOT); (","%char, COMMA); (":"%char, COLON);
    ("("%char, L_PAR); (")"%char, R_PAR);
    ("["%char, L_SQB); ("]"%char, R_SQB);
    ("{"%char, L_BRACE); ("}"%char, R_BRACE) ].

Definition spec_CHAR_TOKENS : ascii -> option LexicalToken :=
  lookup Ascii.eqb CHAR_TOKENS_entries.

(** Modelled from the spec: the table [WORD_TOKENS] of the grammar module
    (absent from the sources), the reserved words of sections 4.2.2 to
    4.2.5. *)
Definition WORD_TOKENS_entries : list (string * LexicalToken) :=
  [ ("is", IS); ("and", AND); ("or", OR); ("not", NOT);
    ("instanceof", INSTANCEOF);
    ("true", TRUE); ("false", FALSE); ("null", NULL);
    ("this", THIS); ("super", SUPER); ("new", NEW); ("async", ASYNC);
    ("var", VAR); ("function", FUNCTION); ("class", CLASS);
    ("extends", EXTENDS); ("static", STATIC); ("import", IMPORT);
    ("if", IF); ("else", ELSE); ("switch", SWITCH); ("case", CASE);
    ("default", DEFAULT); ("for", FOR); ("in", IN); ("while", WHILE);
    ("repeat", REPEAT); ("try", TRY); ("catch", CATCH); ("finally", FINALLY);
    ("throw", THROW); ("return", RETURN); ("break", BREAK);
    ("continue", CONTINUE); ("fallthrough", FALLTHROUGH) ].

Definition spec_WORD_TOKENS : string -> option LexicalToken :=
  lookup String.eqb WORD_TOKENS_entries.

(** The tokenizer over these tables *)
Definition tokenize_source : string -> TokenizeResult :=
  tokenize spec_CHAR_TOKENS spec_WORD_TOKENS.



(* ================================================================== *)
(** * Syntax trees *)

(** The enumeration of src/compiler/grammar/SyntacticToken.ts.  The kinds
    [EMPTY_VARIABLE_DECL], [BREAK_STMT], [CONTINUE_STMT] and
    [FALLTHROUGH_STMT] are not in that file; they are the further node
    kinds section 3.3 of the specification lists. *)
Module SyntacticToken.
Inductive t : Type :=
  (* Declarations *)
  | VARIABLE_DECL | FUNCTION_DECL | CLASS_DECL | IMPORT_DECL
  | EMPTY_VARIABLE_DECL
  (* Expressions *)
  | WRAPPED_EXPR | UNARY_EXPR | BINARY_EXPR | CALL_EXPR | INDEX_EXPR
  | MEMBER_EXPR | NEW_EXPR | INSTANCEOF_EXPR | ASYNC_EXPR | ARRAY_EXPR
  | OBJECT_EXPR
  | IDENTIFIER | LITERAL | SUPER | THIS
  (* Statements *)
  | IF_STMT | SWITCH_STMT | FOR_STMT | REPEAT_STMT | WHILE_STMT | TRY_STMT
  | THROW_STMT | RETURN_STMT | EXPRESSION_STMT
  | BREAK_STMT | CONTINUE_STMT | FALLTHROUGH_STMT
  (* Program *)
  | PROGRAM.

Definition eq_dec (a b : t) : {a = b} + {a <> b}.
Proof. decide equality. Defined.

Definition eqb (a b : t) : bool := if eq_dec a b then true else false.
End SyntacticToken.

(** Modelled from the spec: a type, [IDENT ('.' IDENT)* ('<' TypeList '>')?]
    (section 4.2.6); the class [VariableType] is not among the sources. *)
Inductive VariableType : Type :=
  | mkVariableType (names : list Token) (generics : list VariableType)
                   (tspan : Span).

(** An entry of a class body, of which the linter rule reads [value]. *)
Record ClassProp (N : Type) : Type := mkClassProp { value : N }.
Arguments mkClassProp {N} _.
Arguments value {N} _.

(** Modelled from the spec: the node classes of the grammar module (section
    3.3), which the sources build and read but do not contain.  The
    constructors whose arguments the sources show keep that order:
    [NewExpression] (newExpr.ts), [VariableDeclaration] and
    [EmptyVariableDeclaration] (variableDecl.ts), [MemberExpression],
    [Literal] with its [value] token, [CallExpression] with [object] and
    [params], [ExpressionStatement] with [expression] (call.test.ts),
    [ClassDeclaration] with [staticBody] and [instanceBody] (the linter
    rule).  Of the block-bearing kinds only [ClassDeclaration] is modelled:
    the others' fields are given neither by the sources nor by the
    specification. *)
Inductive Node : Type :=
  | EmptyVariableDeclaration (identifier : Token)
      (variableType : option VariableType) (sp : Span)
  | VariableDeclaration (identifier : Token)
      (variableType : option VariableType) (value : Node) (sp : Span)
  | ClassDeclaration (identifier : Token) (extends : option VariableType)
      (staticBody instanceBody : list (ClassProp Node)) (sp : Span)
  | WrappedExpression (expression : Node) (sp : Span)
  | UnaryExpression (operator : Token) (right : Node) (sp : Span)
  | BinaryExpression (left : Node) (operator : Token) (right : Node)
      (sp : Span)
  | CallExpression (object : Node) (params : list Node) (sp : Span)
  | IndexExpression (object : Node) (index : Node) (sp : Span)
  | MemberExpression (object : Node) (property : Token) (sp : Span)
  | NewExpression (object : Node) (genericArgs : list VariableType)
      (params : list Node) (sp : Span)
  | InstanceofExpression (left : Node) (right : VariableType) (sp : Span)
  | AsyncExpression (expression : Node) (sp : Span)
  | ArrayExpression (content : list Node) (sp : Span)
  | ObjectExpression (props : list (Token * Node)) (sp : Span)
  | Identifier (identifier : Token) (sp : Span)
  | Literal (value : Token) (sp : Span)
  | Super (sp : Span)
  | This (sp : Span)
  | ThrowStatement (expression : Node) (sp : Span)
  | ReturnStatement (expression : option Node) (sp : Span)
  | BreakStatement (sp : Span)
  | ContinueStatement (sp : Span)
  | FallthroughStatement (sp : Span)
  | ExpressionStatement (expression : Node) (sp : Span).

(** [node.type] *)
Definition nodeType (node : Node) : SyntacticToken.t :=
  match node with
  | EmptyVariableDeclaration _ _ _ => SyntacticToken.EMPTY_VARIABLE_DECL
  | VariableDeclaration _ _ _ _ => SyntacticToken.VARIABLE_DECL
  | ClassDeclaration _ _ _ _ _ => SyntacticToken.CLASS_DECL
  | WrappedExpression _ _ => SyntacticToken.WRAPPED_EXPR
  | UnaryExpression _ _ _ => SyntacticToken.UNARY_EXPR
  | BinaryExpression _ _ _ _ => SyntacticToken.BINARY_EXPR
  | CallExpression _ _ _ => SyntacticToken.CALL_EXPR
  | IndexExpression _ _ _ => SyntacticToken.INDEX_EXPR
  | MemberExpression _ _ _ => SyntacticToken.MEMBER_EXPR
  | NewExpression _ _ _ _ => SyntacticToken.NEW_EXPR
  | InstanceofExpression _ _ _ => SyntacticToken.INSTANCEOF_EXPR
  | AsyncExpression _ _ => SyntacticToken.ASYNC_EXPR
  | ArrayExpression _ _ => SyntacticToken.ARRAY_EXPR
  | ObjectExpression _ _ => SyntacticToken.OBJECT_EXPR
  | Identifier _ _ => SyntacticToken.IDENTIFIER
  | Literal _ _ => SyntacticToken.LITERAL
  | Super _ => SyntacticToken.SUPER
  | This _ => SyntacticToken.THIS
  | ThrowStatement _ _ => SyntacticToken.THROW_STMT
  | ReturnStatement _ _ => SyntacticToken.RETURN_STMT
  | BreakStatement _ => SyntacticToken.BREAK_STMT
  | ContinueStatement _ => SyntacticToken.CONTINUE_STMT
  | FallthroughStatement _ => SyntacticToken.FALLTHROUGH_STMT
  | ExpressionStatement _ _ => SyntacticToken.EXPRESSION_STMT
  end.

(** [node.span] *)
Definition nodeSpan (node : Node) : Span :=
  match node with
  | EmptyVariableDeclaration _ _ sp | VariableDeclaration _ _ _ sp
  | ClassDeclaration _ _ _ _ sp | WrappedExpression _ sp
  | UnaryExpression _ _ sp | BinaryExpression _ _ _ sp
  | CallExpression _ _ sp | IndexExpression _ _ sp
  | MemberExpression _ _ sp | NewExpression _ _ _ sp
  | InstanceofExpression _ _ sp | AsyncExpression _ sp
  | ArrayExpression _ sp | ObjectExpression _ sp
  | Identifier _ sp | Literal _ sp | Super sp | This sp
  | ThrowStatement _ sp | ReturnStatement _ sp | BreakStatement sp
  | ContinueStatement sp | FallthroughStatement sp
  | ExpressionStatement _ sp => sp
  end.

Record Program : Type := mkProgram { body : list Node; pspan : Span }.


(* ================================================================== *)
(** * The parser *)

Open Scope list_scope.

(** Modelled from the spec: the class [Parser] (cursor, diagnostics and the
    methods [peek], [previous], [advance], [check], [match], [consume],
    [ignoreNewline], [matchIgnoreNewline], section 4.2.1), which
    newExpr.ts and variableDecl.ts call but the sources do not contain.
    The token sequence ends in [EOF] and the cursor never passes it. *)
Record Parser : Type := mkParser
  { ptokens : list Token;
    index : nat;
    pdiagnostics : list Diagnostic }.

(** What running a parser method gives: a value and the new parser, or the
    diagnostic it threw, or nothing when the model stops short (its fuel
    is spent, or the construct is one it leaves out). *)
Inductive Result (A : Type) : Type :=
  | Ok (a : A) (p : Parser)
  | Thrown (d : Diagnostic) (p : Parser)
  | Unfinished.
Arguments Ok {A} _ _.
Arguments Thrown {A} _ _.
Arguments Unfinished {A}.

Definition M (A : Type) : Type := Parser -> Result A.

Definition ret {A : Type} (a : A) : M A := fun p => Ok a p.

Definition bind {A B : Type} (m : M A) (k : A -> M B) : M B :=
  fun p =>
    match m p with
    | Ok a p' => k a p'
    | Thrown d p' => Thrown d p'
    | Unfinished => Unfinished
    end.

Notation "x <- m ;; k" := (bind m (fun x => k))
  (at level 61, m at next level, right associativity).
Notation "m ;;; k" := (bind m (fun _ => k))
  (at level 61, right associativity).

Definition unfinished {A : Type} : M A := fun _ => Unfinished.

(** The second argument of [consume] and [parsePrecedence]: the callback
    that attaches [info] entries to the error, run when the error is made. *)
Definition Handler : Type := Parser -> list (string * Span).

Definition no_info : Handler := fun _ => [].

Definition eof_token : Token := mkToken EOF "" (mkSpan (0, 0) (0, 0)).

Definition peek_at (p : Parser) : Token := nth (index p) (ptokens p) eof_token.

Definition previous_at (p : Parser) : Token :=
  nth (index p - 1) (ptokens p) eof_token.

Definition peek : M Token := fun p => Ok (peek_at p) p.

Definition previous : M Token := fun p => Ok (previous_at p) p.

Definition isAtEnd (p : Parser) : bool :=
  LexicalToken_eqb (type (peek_at p)) EOF.

Definition advance : M Token :=
  fun p =>
    let p' := if isAtEnd p then p
              else mkParser (ptokens p) (index p + 1) (pdiagnostics p) in
    Ok (previous_at p') p'.

Definition check (kind : LexicalToken) (p : Parser) : bool :=
  LexicalToken_eqb (type (peek_at p)) kind.

Definition match_ (kind : LexicalToken) : M bool :=
  fun p => if check kind p then (advance ;;; ret true) p else Ok false p.

(** [throw parser.error(msg, span, handler)] *)
Definition throw {A : Type} (message : string) (span' : Span)
    (handler : Handler) : M A :=
  fun p => Thrown (mkDiagnostic ERROR "parser" message span' (handler p)) p.

Definition consume (kind : LexicalToken) (message : string)
    (handler : Handler) : M Token :=
  fun p =>
    if check kind p then advance p
    else throw message (span (peek_at p)) handler p.

(** The tokens from the cursor on: a bound on the turns of any loop that
    consumes a token at each turn *)
Definition remaining (p : Parser) : nat := List.length (ptokens p) - index p.

Fixpoint skipNewlines (fuel : nat) (p : Parser) : Parser :=
  match fuel with
  | 0 => p
  | S fuel' =>
      if check NEWLINE p && negb (isAtEnd p)
      then skipNewlines fuel'
             (mkParser (ptokens p) (index p + 1) (pdiagnostics p))
      else p
  end.

(** [ignoreNewline]: skip the run of [NEWLINE]s at the cursor *)
Definition ignoreNewline : M unit :=
  fun p => Ok tt (skipNewlines (remaining p) p).

(** [matchIgnoreNewline]: look past a run of [NEWLINE]s; consume the
    newlines and the token when it is of the kind, and leave the cursor
    where it was otherwise *)
Definition matchIgnoreNewline (kind : LexicalToken) : M bool :=
  fun p =>
    let p' := skipNewlines (remaining p) p in
    if check kind p' then (advance ;;; ret true) p' else Ok false p.

(** The precedence ladder of section 4.2.2 *)
Definition Precedence : Type := nat.
Definition OP1 : Precedence := 1.
Definition OP2 : Precedence := 2.
Definition OP3 : Precedence := 3.
Definition OP4 : Precedence := 4.
Definition OP5 : Precedence := 5.
Definition OP6 : Precedence := 6.
Definition OP7 : Precedence := 7.
Definition OP8 : Precedence := 8.
Definition OP9 : Precedence := 9.
Definition OP10 : Precedence := 10.
Definition OP11 : Precedence := 11.
Definition OP12 : Precedence := 12.

(** A span from the start of one span to the end of another *)
Definition span_from_to (a b : Span) : Span := mkSpan (start a) (end_ b).

(** ** Member and new expressions *)

Section NewExpr.

(** The helpers [newExpr] imports, none of them among the sources:
    [parser.parsePrecedence], [memberExpr], [matchGenericArgs] and
    [matchExpressionList].  [newExpr] is embedded over any such helpers. *)
Variable parsePrecedence : Precedence -> string -> Handler -> M Node.
Variable memberExpr : Node -> Token -> M Node.
Variable matchGenericArgs : M (list VariableType).
Variable matchExpressionList : LexicalToken -> M (list Node).

(** [while (parser.match(LexicalToken.DOT)) object = memberExpr(...)] *)
Fixpoint memberLoop (fuel : nat) (object : Node) : M Node :=
  match fuel with
  | 0 => unfinished
  | S fuel' =>
      isDot <- match_ DOT ;;
      if isDot : bool then
        dot <- previous ;;
        object' <- memberExpr object dot ;;
        memberLoop fuel' object'
      else ret object
  end.

(** [newExpr] (src/parser/internal/expressions/newExpr.ts) *)
Definition newExpr (prefix : Token) : M Node :=
  let start' := start (span prefix) in
  ignoreNewline ;;;
  object <- parsePrecedence OP11 "Expected an expression after 'new'"
              (fun _ => [("Add an expression after this new", span prefix)]) ;;
  ignoreNewline ;;;
  object <- (fun p => memberLoop (S (remaining p)) object p) ;;
  ignoreNewline ;;;
  isLt <- match_ LT ;;
  genericArgs <- (if isLt : bool
                  then args <- matchGenericArgs ;; ignoreNewline ;;; ret args
                  else ret []) ;;
  consume L_PAR "Expected '(' after the class"
          (fun _ => [("Add a '(' after this class", nodeSpan object)]) ;;;
  params <- matchExpressionList R_PAR ;;
  last <- previous ;;
  ret (NewExpression object genericArgs params
         (mkSpan start' (end_ (span last)))).

(** What the loop of [newExpr] does from an object and a parser: while the
    token at the cursor is a [.], that token is consumed and [memberExpr]
    is called on the object built so far and that token; the loop ends at
    the first token that is not a [.]. *)
Inductive member_steps : Node -> Parser -> Node -> Parser -> Prop :=
  | ms_stop object p :
      check DOT p = false ->
      member_steps object p object p
  | ms_step object p dot p1 object1 p2 object' p' :
      check DOT p = true ->
      advance p = Ok dot p1 ->
      memberExpr object dot p1 = Ok object1 p2 ->
      member_steps object1 p2 object' p' ->
      member_steps object p object' p'.

End NewExpr.

(** Modelled from the spec: [memberExpr] (memberExpr.ts is not among the
    sources), the infix form of section 4.2.4: "[.] after an expression:
    expect IDENTIFIER -> Member".  The loop of the earlier [new_]
    (src/grammar/Node.ts, second part) has the same steps inline, with the
    message and the span used here. *)
Definition memberExpr (object : Node) (dot : Token) : M Node :=
  property <- consume IDENTIFIER "Expected identifier" no_info ;;
  ret (MemberExpression object property
         (span_from_to (nodeSpan object) (span property))).

(** The chain of member expressions that [memberExpr] builds over [base],
    one for each property *)
Definition member_chain (base : Node) (properties : list Token) : Node :=
  fold_left
    (fun object property =>
       MemberExpression object property
         (span_from_to (nodeSpan object) (span property)))
    properties base.

(** ** Types *)

(** Modelled from the spec: [matchTypeDecl] and [matchGenericArgs] of
    parse-utils (absent from the sources), the type grammar of section
    4.2.6: [IDENT ('.' IDENT)* ('<' TypeList '>')?]. *)
Fixpoint typeNames (fuel : nat) (names : list Token) : M (list Token) :=
  match fuel with
  | 0 => unfinished
  | S fuel' =>
      name <- consume IDENTIFIER "Expected a type" no_info ;;
      isDot <- match_ DOT ;;
      if isDot : bool then typeNames fuel' (names ++ [name])
      else ret (names ++ [name])
  end.

Section TypeList.
Variable matchTypeDecl : M VariableType.

Fixpoint typeList (fuel : nat) (types : list VariableType)
    : M (list VariableType) :=
  match fuel with
  | 0 => unfinished
  | S fuel' =>
      ignoreNewline ;;;
      type' <- matchTypeDecl ;;
      isComma <- matchIgnoreNewline COMMA ;;
      if isComma : bool then typeList fuel' (types ++ [type'])
      else ret (types ++ [type'])
  end.

(** After the opening [<]: the types and the closing [>] *)
Definition genericArgsWith : M (list VariableType) :=
  types <- (fun p => typeList (S (remaining p)) [] p) ;;
  ignoreNewline ;;;
  consume GT "Expected '>' after the types" no_info ;;;
  ret types.
End TypeList.

Fixpoint matchTypeDeclFuel (fuel : nat) : M VariableType :=
  match fuel with
  | 0 => unfinished
  | S fuel' =>
      first <- peek ;;
      names <- (fun p => typeNames (S (remaining p)) [] p) ;;
      isLt <- match_ LT ;;
      generics <- (if isLt : bool
                   then genericArgsWith (matchTypeDeclFuel fuel')
                   else ret []) ;;
      last <- previous ;;
      ret (mkVariableType names generics (span_from_to (span first) (span last)))
  end.

Definition matchTypeDecl : M VariableType :=
  fun p => matchTypeDeclFuel (S (remaining p)) p.

Definition matchGenericArgs : M (list VariableType) :=
  genericArgsWith matchTypeDecl.


(** ** Expressions *)

(** Modelled from the spec: the rung of the postfix forms (call, index,
    member) on the ladder of section 4.2.2, which has them at OP11.
    [newExpr], under the sources, asks [parsePrecedence] for level OP11
    and then consumes the [.] and the [(] that follow itself, which a
    parser with the postfix forms at OP11 has already consumed; for
    [newExpr] to parse [new a()] they stand below OP11.  The parser is not
    among the sources, so the model takes the ladder as a parameter:
    [SpecLadder] is the ladder of section 4.2.2, and [NewExprLadder] the
    same ladder with the postfix forms one rung lower. *)
Inductive Ladder : Type :=
  | SpecLadder
  | NewExprLadder.

(** Modelled from the spec: the precedence of the postfix forms on each
    ladder *)
Definition postfixPrecedence (ladder : Ladder) : Precedence :=
  match ladder with
  | SpecLadder => OP11
  | NewExprLadder => OP10
  end.

(** Modelled from the spec: [parser.parsePrecedence], the prefix and infix
    forms and [matchExpressionList] (sections 4.2.2 to 4.2.4), which are
    not among the sources. *)
Section Expressions.

Variable ladder : Ladder.

(** The parser of sub-expressions, with less fuel *)
Variable parsePrecedence : Precedence -> string -> Handler -> M Node.

Definition expression (message : string) (handler : Handler) : M Node :=
  parsePrecedence OP1 message handler.

(** [matchExpressionList(parser, closing)]: expressions separated by
    commas, up to and including the closing token *)
Fixpoint expressionList (fuel : nat) (closing : LexicalToken)
    (items : list Node) : M (list Node) :=
  match fuel with
  | 0 => unfinished
  | S fuel' =>
      ignoreNewline ;;;
      isClosing <- match_ closing ;;
      if isClosing : bool then ret items
      else
        item <- expression "Expected an expression" no_info ;;
        ignoreNewline ;;;
        isComma <- match_ COMMA ;;
        if isComma : bool then expressionList fuel' closing (items ++ [item])
        else
          consume closing "Expected the end of the list" no_info ;;;
          ret (items ++ [item])
  end.

Definition matchExpressionList (closing : LexicalToken) : M (list Node) :=
  fun p => expressionList (S (remaining p)) closing [] p.

(** [identifier : expr] entries, up to and including the closing brace *)
Fixpoint objectProps (fuel : nat) (props : list (Token * Node))
    : M (list (Token * Node)) :=
  match fuel with
  | 0 => unfinished
  | S fuel' =>
      ignoreNewline ;;;
      isClosing <- match_ R_BRACE ;;
      if isClosing : bool then ret props
      else
        key <- consume IDENTIFIER "Expected an identifier" no_info ;;
        ignoreNewline ;;;
        consume COLON "Expected ':' after the identifier" no_info ;;;
        ignoreNewline ;;;
        item <- expression "Expected an expression" no_info ;;
        ignoreNewline ;;;
        isComma <- match_ COMMA ;;
        if isComma : bool then objectProps fuel' (props ++ [(key, item)])
        else
          consume R_BRACE "Expected '}'" no_info ;;;
          ret (props ++ [(key, item)])
  end.

Definition literals (prefix : Token) : M Node :=
  ret (Literal prefix (span prefix)).

Definition wrappedExpr (prefix : Token) : M Node :=
  ignoreNewline ;;;
  inner <- expression "Expected an expression after '('" no_info ;;
  ignoreNewline ;;;
  closing <- consume R_PAR "Expected ')'" no_info ;;
  ret (WrappedExpression inner (span_from_to (span prefix) (span closing))).

Definition arrayExpr (prefix : Token) : M Node :=
  content <- matchExpressionList R_SQB ;;
  last <- previous ;;
  ret (ArrayExpression content (span_from_to (span prefix) (span last))).

Definition objectExpr (prefix : Token) : M Node :=
  props <- (fun p => objectProps (S (remaining p)) [] p) ;;
  last <- previous ;;
  ret (ObjectExpression props (span_from_to (span prefix) (span last))).

Definition asyncExpr (prefix : Token) : M Node :=
  ignoreNewline ;;;
  inner <- parsePrecedence OP11 "Expected an expression after 'async'"
             no_info ;;
  ret (AsyncExpression inner (span_from_to (span prefix) (nodeSpan inner))).

Definition unaryExpr (prefix : Token) : M Node :=
  ignoreNewline ;;;
  right <- parsePrecedence OP9 "Expected an expression after the operator"
             no_info ;;
  ret (UnaryExpression prefix right
         (span_from_to (span prefix) (nodeSpan right))).

(** The prefix form a token starts, if any (section 4.2.3) *)
Definition prefixRule (prefix : Token) : option (M Node) :=
  match type prefix with
  | NUMBER | STRING | TRUE | FALSE | NULL => Some (literals prefix)
  | IDENTIFIER => Some (ret (Identifier prefix (span prefix)))
  | THIS => Some (ret (This (span prefix)))
  | SUPER => Some (ret (Super (span prefix)))
  | L_PAR => Some (wrappedExpr prefix)
  | L_SQB => Some (arrayExpr prefix)
  | L_BRACE => Some (objectExpr prefix)
  | NEW =>
      Some (newExpr parsePrecedence memberExpr matchGenericArgs
                    matchExpressionList prefix)
  | ASYNC => Some (asyncExpr prefix)
  | MINUS | NOT => Some (unaryExpr prefix)
  | _ => None
  end.

(** The precedence of a token as an infix operator, if it is one
    (section 4.2.2), with the postfix forms at the rung of [ladder] *)
Definition infixPrecedence (kind : LexicalToken) : option Precedence :=
  match kind with
  | EQUAL => Some OP1
  | OR => Some OP2
  | AND => Some OP3
  | EQUAL_EQUAL | BANG_EQUAL | IS | IS_NOT => Some OP4
  | LT | LT_EQUAL | GT | GT_EQUAL | IS_LESS_THAN | IS_GREATER_THAN =>
      Some OP5
  | PLUS | MINUS => Some OP6
  | STAR | SLASH | PERCENT => Some OP7
  | STAR_STAR => Some OP8
  | INSTANCEOF => Some OP10
  | L_PAR | L_SQB | DOT => Some (postfixPrecedence ladder)
  | _ => None
  end.

(** Left-associative operators parse their right side one level higher;
    [**] is right-associative. *)
Definition binaryExpr (precedence : Precedence) (left : Node)
    (operator : Token) : M Node :=
  ignoreNewline ;;;
  right <- parsePrecedence
             (if LexicalToken_eqb (type operator) STAR_STAR
              then precedence else precedence + 1)
             "Expected an expression after the operator" no_info ;;
  ret (BinaryExpression left operator right
         (span_from_to (nodeSpan left) (nodeSpan right))).

(** The left side of [=] must be a name, a member or an index; otherwise
    the error is recorded at the left side and the node is still built. *)
Definition assignable (left : Node) : bool :=
  match left with
  | Identifier _ _ | MemberExpression _ _ _ | IndexExpression _ _ _ => true
  | _ => false
  end.

Definition record (d : Diagnostic) : M unit :=
  fun p => Ok tt (mkParser (ptokens p) (index p) (pdiagnostics p ++ [d])).

Definition assignmentExpr (left : Node) (operator : Token) : M Node :=
  (if assignable left then ret tt
   else record (mkDiagnostic ERROR "parser"
                  "You can not assign to this expression" (nodeSpan left) [])) ;;;
  ignoreNewline ;;;
  right <- parsePrecedence OP1 "Expected an expression after '='" no_info ;;
  ret (BinaryExpression left operator right
         (span_from_to (nodeSpan left) (nodeSpan right))).

Definition callExpr (left : Node) (infix : Token) : M Node :=
  params <- matchExpressionList R_PAR ;;
  last <- previous ;;
  ret (CallExpression left params
         (span_from_to (nodeSpan left) (span last))).

Definition indexExpr (left : Node) (infix : Token) : M Node :=
  ignoreNewline ;;;
  index' <- expression "Expected an expression after '['" no_info ;;
  ignoreNewline ;;;
  closing <- consume R_SQB "Expected ']'" no_info ;;
  ret (IndexExpression left index'
         (span_from_to (nodeSpan left) (span closing))).

Definition instanceofExpr (left : Node) (infix : Token) : M Node :=
  ignoreNewline ;;;
  right <- matchTypeDecl ;;
  last <- previous ;;
  ret (InstanceofExpression left right
         (span_from_to (nodeSpan left) (span last))).

(** The infix form of a token (section 4.2.4) *)
Definition infixRule (precedence : Precedence) (left : Node) (infix : Token)
    : M Node :=
  match type infix with
  | EQUAL => assignmentExpr left infix
  | L_PAR => callExpr left infix
  | L_SQB => indexExpr left infix
  | DOT => memberExpr left infix
  | INSTANCEOF => instanceofExpr left infix
  | _ => binaryExpr precedence left infix
  end.

(** "greedily consumes infix forms whose precedence >= level" *)
Fixpoint infixLoop (fuel : nat) (precedence : Precedence) (left : Node)
    : M Node :=
  match fuel with
  | 0 => unfinished
  | S fuel' =>
      infix <- peek ;;
      match infixPrecedence (type infix) with
      | Some precedence' =>
          if (precedence <=? precedence')%nat then
            advance ;;;
            left' <- infixRule precedence' left infix ;;
            infixLoop fuel' precedence left'
          else ret left
      | None => ret left
      end
  end.

End Expressions.

(** "[parsePrecedence(level)] consumes a prefix form at OP12 then greedily
    consumes infix forms whose precedence >= level."  Every nested call
    comes after a consumed token, so the number of tokens left bounds the
    depth. *)
Fixpoint parsePrecedenceFuel (ladder : Ladder) (fuel : nat)
    (precedence : Precedence) (message : string) (handler : Handler)
    : M Node :=
  match fuel with
  | 0 => unfinished
  | S fuel' =>
      prefix <- peek ;;
      match prefixRule (parsePrecedenceFuel ladder fuel') prefix with
      | Some rule =>
          advance ;;;
          left <- rule ;;
          (fun p => infixLoop ladder (parsePrecedenceFuel ladder fuel')
                              (S (remaining p)) precedence left p)
      | None => throw message (span prefix) handler
      end
  end.

Definition parsePrecedence (ladder : Ladder) (precedence : Precedence)
    (message : string) (handler : Handler) : M Node :=
  fun p =>
    parsePrecedenceFuel ladder (S (remaining p)) precedence message handler p.

(** ** Declarations and statements *)

Definition double_quote : string := char_string "034".

Section Statements.

Variable ladder : Ladder.

(** [variableDecl] (src/parser/internal/declarations/variableDecl.ts) *)
Definition variableDecl : M Node :=
  first <- peek ;;
  let start' := start (span first) in
  ignoreNewline ;;;
  identifier <- consume IDENTIFIER
                  ("Expected an identifier after " ++ double_quote ++ "var"
                   ++ double_quote)%string
                  no_info ;;
  isColon <- matchIgnoreNewline COLON ;;
  variableType <- (if isColon : bool
                   then ignoreNewline ;;;
                        type' <- matchTypeDecl ;; ret (Some type')
                   else ret None) ;;
  isEqual <- matchIgnoreNewline EQUAL ;;
  if isEqual : bool then
    ignoreNewline ;;;
    expr <- expression (parsePrecedence ladder)
              "Expected an expression after '='"
              (fun p => [("Add an expression after this =",
                          span (previous_at p))]) ;;
    last <- previous ;;
    ret (VariableDeclaration identifier variableType expr
           (mkSpan start' (end_ (span last))))
  else
    last <- previous ;;
    ret (EmptyVariableDeclaration identifier variableType
           (mkSpan start' (end_ (span last)))).

(** Modelled from the spec: the statement level and [Parser.parse]
    (sections 4.2.5 and 4.2.7), which are not among the sources: the
    one-line statement forms, declarations of variables, and expression
    statements.  The block-bearing forms are left out ([Unfinished]). *)
Definition ends_statement (kind : LexicalToken) : bool :=
  match kind with
  | NEWLINE | OUTDENT | EOF => true
  | _ => false
  end.

Definition statement : M Node :=
  first <- peek ;;
  match type first with
  | VAR => advance ;;; variableDecl
  | THROW =>
      advance ;;;
      thrown <- expression (parsePrecedence ladder)
                  "Expected an expression after 'throw'" no_info ;;
      ret (ThrowStatement thrown
             (span_from_to (span first) (nodeSpan thrown)))
  | RETURN =>
      advance ;;;
      next <- peek ;;
      if ends_statement (type next) then
        ret (ReturnStatement None (span first))
      else
        returned <- expression (parsePrecedence ladder) "Expected an expression"
                      no_info ;;
        ret (ReturnStatement (Some returned)
               (span_from_to (span first) (nodeSpan returned)))
  | BREAK => advance ;;; ret (BreakStatement (span first))
  | CONTINUE => advance ;;; ret (ContinueStatement (span first))
  | FALLTHROUGH => advance ;;; ret (FallthroughStatement (span first))
  | FUNCTION | CLASS | IMPORT | IF | SWITCH | FOR | WHILE | REPEAT | TRY =>
      unfinished
  | _ =>
      expr <- expression (parsePrecedence ladder) "Expected an expression" no_info ;;
      ret (ExpressionStatement expr (nodeSpan expr))
  end.

(** Panic-mode recovery: advance to the next [NEWLINE] *)
Fixpoint sync (fuel : nat) (p : Parser) : Parser :=
  match fuel with
  | 0 => p
  | S fuel' =>
      if check NEWLINE p || isAtEnd p then p
      else sync fuel' (mkParser (ptokens p) (index p + 1) (pdiagnostics p))
  end.

(** "The top-level reads a sequence of statements until [EOF]." *)
Fixpoint statements (fuel : nat) (nodes : list Node) (p : Parser)
    : Result (list Node) :=
  match fuel with
  | 0 => Unfinished
  | S fuel' =>
      let p1 := skipNewlines (remaining p) p in
      if isAtEnd p1 then Ok nodes p1
      else
        match statement p1 with
        | Ok node p2 => statements fuel' (nodes ++ [node]) p2
        | Thrown d p2 =>
            let p3 := mkParser (ptokens p2) (index p2)
                               (pdiagnostics p2 ++ [d]) in
            statements fuel' nodes (sync (remaining p3) p3)
        | Unfinished => Unfinished
        end
  end.

(** What [parse] returns *)
Record ParseResult : Type := mkParseResult
  { ast : Program; p_diagnostics : list Diagnostic }.

(** [new Parser(tokens).parse()]; [None] when the model stops short *)
Definition parse (tokens' : list Token) : option ParseResult :=
  let p := mkParser tokens' 0 [] in
  match statements (S (List.length tokens')) [] p with
  | Ok nodes p' =>
      Some (mkParseResult
              (mkProgram nodes
                 (span_from_to (span (peek_at p)) (span (peek_at p'))))
              (pdiagnostics p'))
  | _ => None
  end.

End Statements.

(** ** The test of call expressions *)

(** The function [check] of the test "parses no params correctly"
    (tests/compiler/parser/expressions/call/call.test.ts): each [expect]
    is one conjunct; [instanceof] and [type] agree on [Node]. *)
Definition check_no_params (node : Node) : bool :=
  SyntacticToken.eqb (nodeType node) SyntacticToken.EXPRESSION_STMT
  && match node with
     | ExpressionStatement expr _ =>
         SyntacticToken.eqb (nodeType expr) SyntacticToken.CALL_EXPR
         && match expr with
            | CallExpression object params _ =>
                (List.length params =? 0)%nat
                && SyntacticToken.eqb (nodeType object) SyntacticToken.LITERAL
                && match object with
                   | Literal value _ => (lexeme value =? "fn")%string
                   | _ => false
                   end
            | _ => false
            end
     | _ => false
     end.

(** The front end on a source text: tokenize, then parse the tokens. *)
Definition parse_source (ladder : Ladder) (source' : string)
    : option ParseResult :=
  parse ladder (r_tokens (tokenize_source source')).

(** The shape the specification gives the object of a [new] expression:
    an [Identifier] node, or a chain of member expressions over one. *)
Fixpoint is_name_chain (node : Node) : bool :=
  match node with
  | Identifier _ _ => true
  | MemberExpression object _ _ => is_name_chain object
  | _ => false
  end.

(* ================================================================== *)
(** * The linter rule declarations-in-class *)

Module Linter.
Section Rule.

(** [grammar.isDeclaration] is not among the sources: the rule is embedded
    over any such test. *)
Variable isDeclaration : Node -> bool.

Definition message : string :=
  "You can only put declarations in a class body".

(** [report(msg, span)]: the rule has [level: Level.ERROR]; the bound
    [report] records a diagnostic tagged as the linter's (section 4.3.1). *)
Definition report (message' : string) (span' : Span)
    (reports : list Diagnostic) : list Diagnostic :=
  reports ++ [mkDiagnostic ERROR "linter" message' span' []].

(** [checkNode] *)
Definition checkNode (node : Node) (reports : list Diagnostic)
    : list Diagnostic :=
  if negb (isDeclaration node) then report message (nodeSpan node) reports
  else reports.

(** [array.forEach(f)], threading the reports *)
Definition forEach {A : Type} (f : A -> list Diagnostic -> list Diagnostic)
    (l : list A) (reports : list Diagnostic) : list Diagnostic :=
  fold_left (fun acc a => f a acc) l reports.

(** The callback [declarationsInClass] registers with
    [walker.onEnter(grammar.ClassDeclaration, ...)]; the walker calls it on
    class declarations only. *)
Definition declarationsInClass (node : Node) (reports : list Diagnostic)
    : list Diagnostic :=
  match node with
  | ClassDeclaration _ _ staticBody instanceBody _ =>
      let reports1 :=
        forEach (fun prop => checkNode (value prop)) staticBody reports in
      forEach (fun prop => checkNode (value prop)) instanceBody reports1
  | _ => reports
  end.

(** The entries of both bodies, static ones first *)
Definition classEntries (node : Node) : list Node :=
  match node with
  | ClassDeclaration _ _ staticBody instanceBody _ =>
      map value staticBody ++ map value instanceBody
  | _ => []
  end.

End Rule.
End Linter.

(** Modelled from the spec: [grammar.isDeclaration] (absent from the
    sources), the declaration family of section 3.3, as far as [Node] has
    it. *)
Definition isDeclaration (node : Node) : bool :=
  match node with
  | EmptyVariableDeclaration _ _ _ | VariableDeclaration _ _ _ _
  | ClassDeclaration _ _ _ _ _ => true
  | _ => false
  end.

(* ================================================================== *)
(** * Inputs of the worked examples *)

(** Two lines, the second one indented twice *)
Definition indented_source : string :=
  "a" ++ char_string "010" ++ char_string "009" ++ char_string "009" ++ "b".


(** The tokens of [new(5)<T>()], the parser after [new], and the node
    [newExpr] returns *)
Definition new_number_tokens : list Token :=
  Eval vm_compute in r_tokens (tokenize_source "new(5)<T>()").

Definition after_new : Parser := mkParser new_number_tokens 1 [].

Definition wrapped_number : Node :=
  WrappedExpression
    (Literal (mkToken NUMBER "5" (line_span 0 4 5)) (line_span 0 4 5))
    (line_span 0 3 6).

Definition new_number : Node :=
  NewExpression wrapped_number
    [mkVariableType [mkToken IDENTIFIER "T" (line_span 0 7 8)] []
                    (line_span 0 7 8)]
    [] (line_span 0 0 11).

(** Three lines: an assignment with a number, a string and a comment, an
    indented comparison, and a comment *)
Definition sample_source : string :=
  "x=12_3.4+'a\'b'#c" ++ char_string "010"
  ++ char_string "009" ++ "y is not z" ++ char_string "010"
  ++ "# done".

(** A comment line, an empty line and a line of blanks *)
Definition comment_source : string :=
  "# c" ++ char_string "010" ++ char_string "010" ++ "  ".

(** [new a.b<T>()]: the parser after [new], the expression
    [parsePrecedence] returns there with the postfix forms below OP11, the
    object after the loop of [newExpr], and the node [newExpr] returns *)
Definition new_member_tokens : list Token :=
  Eval vm_compute in r_tokens (tokenize_source "new a.b<T>()").

Definition after_new_member : Parser := mkParser new_member_tokens 1 [].

Definition name_a : Node :=
  Identifier (mkToken IDENTIFIER "a" (line_span 0 4 5)) (line_span 0 4 5).

Definition member_a_b : Node :=
  MemberExpression name_a (mkToken IDENTIFIER "b" (line_span 0 6 7))
                   (line_span 0 4 7).

Definition new_member : Node :=
  NewExpression member_a_b
    [mkVariableType [mkToken IDENTIFIER "T" (line_span 0 8 9)] []
                    (line_span 0 8 9)]
    [] (line_span 0 0 12).

(** The value and the parser of a result that is one *)
Definition result_value {A : Type} (default : A) (r : Result A) : A :=
  match r with
  | Ok a _ => a
  | _ => default
  end.

Definition result_parser {A : Type} (default : Parser) (r : Result A)
    : Parser :=
  match r with
  | Ok _ p => p
  | _ => default
  end.

(** [var x] and [var 5]: the parser after [var] *)
Definition var_x_tokens : list Token :=
  Eval vm_compute in r_tokens (tokenize_source "var x").

Definition after_var_x : Parser := mkParser var_x_tokens 1 [].

Definition var_x_result : Result Node :=
  Eval vm_compute in variableDecl SpecLadder after_var_x.

Definition var_5_tokens : list Token :=
  Eval vm_compute in r_tokens (tokenize_source "var 5").

Definition after_var_5 : Parser := mkParser var_5_tokens 1 [].

(** The diagnostic of the class-body rule at a node *)
Definition class_body_diagnostic (node : Node) : Diagnostic :=
  mkDiagnostic ERROR "linter" "You can only put declarations in a class body"
               (nodeSpan node) [].


(* ================================================================== *)
(** * What the tokenizer emits *)

(** The three kinds of line [scanLine] tells apart: blank lines, lines
    that are one comment, and the other ones, which are scanned. *)
Definition is_blank_line (line : string) : bool :=
  (String.length (drop_while is_space line) =? 0)%nat.

Definition is_comment_line (line : string) : bool :=
  negb (is_blank_line line)
  && starts_with_char "#" (drop_while is_space line).

Definition is_code_line (line : string) : bool :=
  negb (is_blank_line line)
  && negb (starts_with_char "#" (drop_while is_space line)).

(** [this] after pushes of tokens, comments and diagnostics *)
Definition pushed (this : Tokenizer) (ts cs : list Token)
    (ds : list Diagnostic) : Tokenizer :=
  mkTokenizer (lines this) (tokens this ++ ts) (comments this ++ cs)
              (diagnostics this ++ ds) (indent this).

Section Provenance.

Variable CHAR_TOKENS : ascii -> option LexicalToken.
Variable WORD_TOKENS : string -> option LexicalToken.

(** The type [matchWord] gives a word before it looks at [is] *)
Definition word_type (w : string) : LexicalToken :=
  match WORD_TOKENS w with
  | Some t => t
  | None => IDENTIFIER
  end.

(** The tokens one turn of the loop of [scanLine] can push at a column,
    each with the match it comes from. *)
Inductive scanned_token (line : string) (li col : nat) : Token -> Prop :=
  | st_char c k :
      charAt col line = Some c ->
      CHAR_TOKENS c = Some k ->
      scanned_token line li col
        (mkToken k (char_string c) (line_span li col (col + 1)))
  | st_number m :
      re_number (slice col line) = Some m ->
      scanned_token line li col
        (mkToken NUMBER m (line_span li col (col + String.length m)))
  | st_string m :
      re_string (slice col line) = Some m ->
      scanned_token line li col
        (mkToken STRING m (line_span li col (col + String.length m)))
  | st_word w :
      re_word (slice col line) = Some w ->
      is_bare_word w = false ->
      scanned_token line li col
        (mkToken (word_type w) w (line_span li col (col + String.length w)))
  | st_comparison m :
      re_word (slice col line) = Some "is" ->
      re_comparison (slice col line) = Some m ->
      scanned_token line li col
        (mkToken (comparison_type m (word_type "is")) (whole m)
           (line_span li col (col + String.length (whole m)))).

(** Tokens pushed one after the other along a line, from a column on:
    each starts at or after the end of the one before. *)
Inductive scan_chain (line : string) (li : nat) : nat -> list Token -> Prop :=
  | sc_nil c : scan_chain line li c []
  | sc_cons c col t ts :
      c <= col ->
      scanned_token line li col t ->
      scan_chain line li (col + String.length (lexeme t)) ts ->
      scan_chain line li c (t :: ts).

End Provenance.

(** The tokens [addIndentTokens] pushes on line [li] when the indent goes
    from [prev] to [n] *)
Definition indent_tokens (li prev n : nat) : list Token :=
  if (prev <? n)%nat then
    repeat (mkToken INDENT (char_string "009") (line_span li 0 (n - prev)))
           (n - prev)
  else
    repeat (mkToken OUTDENT "" (line_span li 0 n)) (prev - n).

(** The token that ends a scanned line *)
Definition newline_token (li : nat) (line : string) : Token :=
  mkToken NEWLINE (char_string "010")
    (line_span li (String.length line) (String.length line + 1)).

(** The tokens the tokenizer makes up: their kinds and lexemes *)
Definition virtual_token (t : Token) : Prop :=
  (type t = INDENT /\ lexeme t = char_string "009")
  \/ (type t = NEWLINE /\ lexeme t = char_string "010")
  \/ ((type t = OUTDENT \/ type t = EOF) /\ lexeme t = "").

(** A token of the result: made up, or scanned at a column of a line *)
Definition emitted (CHAR_TOKENS : ascii -> option LexicalToken)
    (WORD_TOKENS : string -> option LexicalToken) (ls : list string)
    (t : Token) : Prop :=
  virtual_token t
  \/ exists li col,
       li < List.length ls
       /\ scanned_token CHAR_TOKENS WORD_TOKENS (nth li ls "") li col t.

(** What [error] records: an error of the tokenizer, without [info], over
    at least one column inside the line. *)
Definition tokenizer_diagnostic (line : string) (li : nat) (d : Diagnostic)
    : Prop :=
  level d = ERROR /\ source d = "tokenizer" /\ info d = []
  /\ exists col len,
       dspan d = line_span li col (col + len)
       /\ 0 < len /\ col + len <= String.length line.

(** The depth of indentation after the tokens, starting from depth [d]:
    an [INDENT] opens a level and an [OUTDENT] closes one; [None] when an
    [OUTDENT] has no level to close. *)
Fixpoint nesting (d : nat) (ts : list Token) : option nat :=
  match ts with
  | [] => Some d
  | t :: ts' =>
      match type t with
      | INDENT => nesting (S d) ts'
      | OUTDENT =>
          match d with
          | 0 => None
          | S d' => nesting d' ts'
          end
      | _ => nesting d ts'
      end
  end.

(** Positions in reading order *)
Definition pos_le (a b : Position) : Prop :=
  fst a < fst b \/ (fst a = fst b /\ snd a <= snd b).

(** The first token ends before the second one starts. *)
Definition token_before (t1 t2 : Token) : Prop :=
  pos_le (end_ (span t1)) (start (span t2)).

Definition not_virtual (ts : list Token) : list Token :=
  filter (fun t => negb (is_virtual (type t))) ts.

(** Characters of a string *)
Fixpoint all_chars (p : ascii -> bool) (s : string) : bool :=
  match s with
  | "" => true
  | String c r => p c && all_chars p r
  end.

Fixpoint count_char (p : ascii -> bool) (s : string) : nat :=
  match s with
  | "" => 0
  | String c r => (if p c then 1 else 0) + count_char p r
  end.

Definition last_char (s : string) : option ascii :=
  match String.length s with
  | 0 => None
  | S n => charAt n s
  end.

Definition is_line_feed (c : ascii) : bool := (code c =? 10)%nat.
Definition is_carriage_return (c : ascii) : bool := (code c =? 13)%nat.
Definition is_dot (c : ascii) : bool := (c =? ".")%char.
Definition is_quote (c : ascii) : bool := (c =? "'")%char.

(** The inside of a string literal: characters other than the quote and
    the backslash, and backslashes followed by a character that does not
    end the line *)
Fixpoint well_escaped (s : string) : bool :=
  match s with
  | "" => true
  | String c r =>
      if (c =? "'")%char then false
      else if (c =? "\")%char then
        match r with
        | String d r' => negb (is_line_terminator d) && well_escaped r'
        | "" => false
        end
      else well_escaped r
  end.

Definition is_number_char (c : ascii) : bool :=
  is_digit_or_underscore c || (c =? ".")%char.

(** A carriage return just before a line feed *)
Fixpoint has_cr_lf (s : string) : bool :=
  match s with
  | "" => false
  | String c r =>
      match r with
      | String d _ => (is_carriage_return c && is_line_feed d) || has_cr_lf r
      | "" => false
      end
  end.

(** [text.replace(/c/g, replacement)] for a one-character expression *)
Fixpoint replace_char (c : ascii) (replacement : string) (text : string)
    : string :=
  match text with
  | "" => ""
  | String a r =>
      if (a =? c)%char then (replacement ++ replace_char c replacement r)%string
      else String a (replace_char c replacement r)
  end.

(** The text with a carriage return put before each line feed *)
Definition to_crlf (s : string) : string :=
  replace_char "010" (String "013" (char_string "010")) s.

(** [this] with other lines *)
Definition set_lines (ls : list string) (this : Tokenizer) : Tokenizer :=
  mkTokenizer ls (tokens this) (comments this) (diagnostics this)
              (indent this).

(** The kind and the lexeme of each token, without the spans *)
Definition kinds_and_lexemes (ts : list Token)
    : list (LexicalToken * string) :=
  map (fun t => (type t, lexeme t)) ts.

(** [lines.join('\n')] *)
Definition join_lines (ls : list string) : string :=
  String.concat (char_string "010") ls.

(* ================================================================== *)
(** * The helpers of the tests *)

(** [sanitize] (tests/TestUtils.ts): backslashes are doubled, then line
    feeds and tabs are written as a backslash and a letter. *)
Definition sanitize (text : string) : string :=
  replace_char "009" "\t"
    (replace_char "010" "\n"
       (replace_char "\" "\\" text)).

(** What [sanitize] writes for one character *)
Definition escape_char (c : ascii) : string :=
  if (c =? "\")%char then "\\"
  else if (c =? "010")%char then "\n"
  else if (c =? "009")%char then "\t"
  else char_string c.

Fixpoint escape_all (text : string) : string :=
  match text with
  | "" => ""
  | String c r => (escape_char c ++ escape_all r)%string
  end.

(* ================================================================== *)
(** * Facts about strings *)

Open Scope string_scope.

Lemma LexicalToken_eqb_eq a b : LexicalToken_eqb a b = true <-> a = b.
Proof.
  unfold LexicalToken_eqb. destruct (LexicalToken_eq_dec a b); split;
    congruence.
Qed.


Lemma length_app (s t : string) :
  String.length (s ++ t) = String.length s + String.length t.
Proof. induction s as [|c s IH]; simpl; [reflexivity | now rewrite IH]. Qed.

Lemma app_empty_r (s : string) : s ++ "" = s.
Proof. induction s as [|c s IH]; simpl; [reflexivity | now rewrite IH]. Qed.

Lemma app_assoc_s (s t u : string) : (s ++ t) ++ u = s ++ (t ++ u).
Proof. induction s as [|c s IH]; simpl; [reflexivity | now rewrite IH]. Qed.

Lemma take_drop_while (p : ascii -> bool) (s : string) :
  take_while p s ++ drop_while p s = s.
Proof.
  induction s as [|c s IH]; simpl; [reflexivity|].
  destruct (p c); simpl; [now rewrite IH | reflexivity].
Qed.

Lemma strip_prefix_app (p s r : string) :
  strip_prefix p s = Some r -> s = p ++ r.
Proof.
  revert s. induction p as [|a p IH]; intros s H; simpl in *.
  - now inversion H.
  - destruct s as [|b s]; [discriminate|].
    destruct (Ascii.eqb_spec a b) as [->|]; [|discriminate].
    now rewrite (IH _ H).
Qed.

Lemma starts_with_refl (s : string) : starts_with s s.
Proof. exists "". now rewrite app_empty_r. Qed.

Lemma starts_with_cons (c : ascii) (m s : string) :
  starts_with m s -> starts_with (String c m) (String c s).
Proof. intros [r ->]. now exists r. Qed.

Lemma starts_with_app (m n s : string) :
  starts_with n s -> starts_with (m ++ n) (m ++ s).
Proof. intros [r ->]. exists r. now rewrite app_assoc_s. Qed.

Lemma take_while_starts (p : ascii -> bool) (s : string) :
  starts_with (take_while p s) s.
Proof. exists (drop_while p s). now rewrite take_drop_while. Qed.

Lemma re_fraction_starts (s : string) : starts_with (re_fraction s) s.
Proof.
  destruct s as [|a [|d r]]; simpl; try (now eexists).
  destruct ((a =? ".")%char && is_digit d); [|now eexists].
  do 2 apply starts_with_cons. apply take_while_starts.
Qed.

Lemma re_number_starts (s m : string) :
  re_number s = Some m -> starts_with m s.
Proof.
  destruct s as [|c r]; simpl; [discriminate|].
  destruct (is_digit c); [|discriminate].
  intros H; inversion H; subst; clear H.
  apply starts_with_cons.
  destruct (re_fraction_starts (drop_while is_digit_or_underscore r))
    as [r0 Hr0].
  exists r0. rewrite app_assoc_s, <- Hr0. symmetry. apply take_drop_while.
Qed.

Lemma re_string_body_starts_upto (n : nat) :
  forall s m, String.length s <= n ->
    re_string_body s = Some m -> starts_with m s.
Proof.
  induction n as [|n IH]; intros s m L;
    (destruct s as [|c r]; simpl in *; [discriminate|]); [lia|].
  destruct (c =? "'")%char.
  - intros H; inversion H. now exists r.
  - destruct (c =? "\")%char.
    + destruct r as [|d r']; [discriminate|].
      destruct (is_line_terminator d); [discriminate|].
      destruct (re_string_body r') as [m'|] eqn:E; [|discriminate].
      intros H; inversion H; subst.
      do 2 apply starts_with_cons. apply IH; [simpl in L; lia | exact E].
    + destruct (re_string_body r) as [m'|] eqn:E; [|discriminate].
      intros H; inversion H; subst.
      apply starts_with_cons. apply IH; [lia | exact E].
Qed.

Lemma re_string_body_starts (s m : string) :
  re_string_body s = Some m -> starts_with m s.
Proof. apply (re_string_body_starts_upto (String.length s)). lia. Qed.

Lemma re_string_starts (s m : string) :
  re_string s = Some m -> starts_with m s.
Proof.
  destruct s as [|c r]; simpl; [discriminate|].
  destruct (c =? "'")%char; [|discriminate].
  destruct (re_string_body r) as [m'|] eqn:E; [|discriminate].
  intros H; inversion H; subst.
  apply starts_with_cons. now apply re_string_body_starts.
Qed.

Lemma re_word_starts (s m : string) :
  re_word s = Some m -> starts_with m s.
Proof.
  destruct s as [|c r]; simpl; [discriminate|].
  destruct (is_word_start c); [|discriminate].
  intros H; inversion H; subst.
  apply starts_with_cons, take_while_starts.
Qed.

Lemma re_spaces_app (s ws r : string) :
  re_spaces s = Some (ws, r) -> s = ws ++ r.
Proof.
  unfold re_spaces. intros H.
  destruct (take_while is_space s) eqn:E; [discriminate|].
  inversion H; subst. rewrite <- E. symmetry. apply take_drop_while.
Qed.

Lemma re_less_greater_than_starts (w s g : string) :
  re_less_greater_than w s = Some g -> starts_with g s.
Proof.
  unfold re_less_greater_than.
  destruct (strip_prefix w s) as [r|] eqn:E1; [|discriminate].
  destruct (re_spaces r) as [[ws r']|] eqn:E2; [|discriminate].
  destruct (strip_prefix "than" r') as [r''|] eqn:E3; [|discriminate].
  intros H; inversion H; subst; clear H.
  apply strip_prefix_app in E1, E3. apply re_spaces_app in E2. subst.
  exists r''. now rewrite !app_assoc_s.
Qed.

Lemma re_comparison_starts (s : string) (m : ComparisonMatch) :
  re_comparison s = Some m -> starts_with (whole m) s.
Proof.
  unfold re_comparison.
  destruct (strip_prefix "is" s) as [r|] eqn:E1; [|discriminate].
  destruct (re_spaces r) as [[ws r']|] eqn:E2; [|discriminate].
  apply strip_prefix_app in E1. apply re_spaces_app in E2. subst s r.
  destruct (strip_prefix "not" r') as [r''|] eqn:E3.
  - intros H; inversion H; subst; clear H. cbn [whole].
    apply strip_prefix_app in E3. subst.
    exists r''. simpl. now rewrite app_assoc_s.
  - destruct (re_less_greater_than "less" r') as [g|] eqn:E4.
    + intros H; inversion H; subst; clear H. cbn [whole].
      apply re_less_greater_than_starts in E4.
      apply (starts_with_app "is"), starts_with_app, E4.
    + destruct (re_less_greater_than "greater" r') as [g|] eqn:E5;
        [|discriminate].
      intros H; inversion H; subst; clear H. cbn [whole].
      apply re_less_greater_than_starts in E5.
      apply (starts_with_app "is"), starts_with_app, E5.
Qed.

(** Column arithmetic: the characters from column [n] on start with [m]
    exactly when [m] is the substring of its length at column [n]. *)
Lemma substring_starts (m r : string) :
  substring 0 (String.length m) (m ++ r) = m.
Proof. induction m as [|c m IH]; simpl; [now destruct r | now rewrite IH]. Qed.

Lemma substring_slice (n : nat) (s m : string) :
  starts_with m (slice n s) -> substring n (String.length m) s = m.
Proof.
  revert s. induction n as [|n IH]; intros s [r H]; simpl in H.
  - subst. apply substring_starts.
  - destruct s as [|c s].
    + destruct m; [reflexivity | discriminate].
    + simpl. apply IH. now exists r.
Qed.

Lemma charAt_slice (n : nat) (s : string) (c : ascii) :
  charAt n s = Some c -> starts_with (char_string c) (slice n s).
Proof.
  unfold charAt. revert n. induction s as [|a s IH]; intros n H.
  - destruct n; discriminate.
  - destruct n as [|n]; simpl in *.
    + inversion H; subst. now exists s.
    + now apply IH.
Qed.

Lemma charAt_in_range (n : nat) (s : string) :
  n < String.length s -> exists c, charAt n s = Some c.
Proof.
  unfold charAt. revert n. induction s as [|a s IH]; intros n H; simpl in *.
  - lia.
  - destruct n as [|n]; [now eexists | apply IH; lia].
Qed.

Lemma slice_length (n : nat) (s : string) :
  String.length (slice n s) = String.length s - n.
Proof.
  revert s. induction n as [|n IH]; intros s; simpl; [lia|].
  destruct s; simpl; [reflexivity | apply IH].
Qed.

Lemma drop_while_slice (p : ascii -> bool) (s : string) :
  slice (String.length s - String.length (drop_while p s)) s = drop_while p s.
Proof.
  induction s as [|c s IH]; [reflexivity|].
  cbn [drop_while]. destruct (p c).
  - assert (L : String.length (drop_while p s) <= String.length s).
    { rewrite <- (take_drop_while p s) at 2. rewrite length_app. lia. }
    cbn [String.length].
    replace (S (String.length s) - String.length (drop_while p s))
      with (S (String.length s - String.length (drop_while p s))) by lia.
    cbn [slice]. exact IH.
  - now rewrite Nat.sub_diag.
Qed.

Lemma word_start_other (c : ascii) :
  is_word_start c = true ->
  is_digit c = false /\ (c =? "'")%char = false /\ (c =? "#")%char = false.
Proof.
  destruct c as [[] [] [] [] [] [] [] []]; vm_compute; intros H;
    repeat split; congruence.
Qed.

Lemma re_word_first (c : ascii) (r w : string) :
  re_word (String c r) = Some w ->
  is_word_start c = true /\ 0 < String.length w.
Proof.
  simpl. destruct (is_word_start c); [|discriminate].
  intros H; inversion H; subst. simpl. split; [reflexivity | lia].
Qed.

(* ================================================================== *)
(** * Facts about the tokenizer *)

Section TokenizerFacts.

Open Scope list_scope.

Variable CHAR_TOKENS : ascii -> option LexicalToken.
Variable WORD_TOKENS : string -> option LexicalToken.

Lemma step_ok_refl line li this : step_ok CHAR_TOKENS WORD_TOKENS line li this this.
Proof.
  split; try reflexivity; exists []; rewrite app_nil_r; auto.
Qed.

Lemma step_ok_trans line li a b c :
  step_ok CHAR_TOKENS WORD_TOKENS line li a b -> step_ok CHAR_TOKENS WORD_TOKENS line li b c -> step_ok CHAR_TOKENS WORD_TOKENS line li a c.
Proof.
  intros [L1 I1 [ts1 [T1 F1]] [cs1 [C1 G1]]] [L2 I2 [ts2 [T2 F2]] [cs2 [C2 G2]]].
  split; try congruence.
  - exists (ts1 ++ ts2)%list. rewrite T2, T1, app_assoc. split; [reflexivity|].
    apply Forall_app; auto.
  - exists (cs1 ++ cs2)%list. rewrite C2, C1, app_assoc. split; [reflexivity|].
    apply Forall_app; auto.
Qed.

Lemma step_ok_token line li this t :
  scanned CHAR_TOKENS WORD_TOKENS line li t -> step_ok CHAR_TOKENS WORD_TOKENS line li this (push_tokens [t] this).
Proof.
  intros H. split; try reflexivity; simpl.
  - exists [t]. auto.
  - exists []. rewrite app_nil_r. auto.
Qed.

Lemma step_ok_comment line li this t :
  scanned_comment line li t -> step_ok CHAR_TOKENS WORD_TOKENS line li this (push_comment t this).
Proof.
  intros H. split; try reflexivity; simpl.
  - exists []. rewrite app_nil_r. auto.
  - exists [t]. auto.
Qed.

Lemma step_ok_diagnostic line li this d :
  step_ok CHAR_TOKENS WORD_TOKENS line li this (push_diagnostic d this).
Proof.
  split; try reflexivity; simpl; exists []; rewrite app_nil_r; auto.
Qed.

Lemma covers_intro line li col k m :
  starts_with m (slice col line) ->
  covers line li (mkToken k m (line_span li col (col + String.length m))).
Proof.
  intros H. exists col. simpl. split; [reflexivity|].
  now apply substring_slice.
Qed.

Lemma matchNumber_ok line li col this :
  step_ok CHAR_TOKENS WORD_TOKENS line li this (snd (matchNumber (slice col line) li col this)).
Proof.
  unfold matchNumber. destruct (re_number (slice col line)) as [m|] eqn:E;
    simpl; [|apply step_ok_refl].
  apply step_ok_token. split; simpl.
  - left. simpl. auto.
  - apply covers_intro. now apply re_number_starts.
Qed.

Lemma matchString_ok line li col this :
  step_ok CHAR_TOKENS WORD_TOKENS line li this (snd (matchString (slice col line) li col this)).
Proof.
  unfold matchString. destruct (re_string (slice col line)) as [m|] eqn:E;
    simpl; [|apply step_ok_refl].
  apply step_ok_token. split; simpl.
  - left. simpl. auto.
  - apply covers_intro. now apply re_string_starts.
Qed.

Lemma matchComment_ok line li col this :
  step_ok CHAR_TOKENS WORD_TOKENS line li this (snd (matchComment (slice col line) li col this)).
Proof.
  unfold matchComment. simpl. apply step_ok_comment. split; simpl;
    [reflexivity|].
  apply covers_intro, starts_with_refl.
Qed.

Lemma comparison_type_kind m k :
  scanned_kind CHAR_TOKENS WORD_TOKENS k -> scanned_kind CHAR_TOKENS WORD_TOKENS (comparison_type m k).
Proof.
  intros H. unfold comparison_type.
  repeat match goal with
         | |- context [if ?b then _ else _] => destruct b
         end; try exact H; left; simpl; auto 10.
Qed.

Lemma matchWord_ok line li col this w :
  re_word (slice col line) = Some w ->
  step_ok CHAR_TOKENS WORD_TOKENS line li this
    (snd (matchWord WORD_TOKENS w (slice col line) li col this)).
Proof.
  intros Hw. unfold matchWord.
  destruct (is_bare_word w); [apply step_ok_diagnostic|].
  assert (K : scanned_kind CHAR_TOKENS WORD_TOKENS
                (match WORD_TOKENS w with Some t => t | None => IDENTIFIER end)).
  { destruct (WORD_TOKENS w) as [t|] eqn:E.
    - right. right. now exists w.
    - left. simpl. auto. }
  destruct (w =? "is").
  - destruct (re_comparison (slice col line)) as [m|] eqn:E; simpl.
    + apply step_ok_token. split; simpl.
      * now apply comparison_type_kind.
      * apply covers_intro. now apply re_comparison_starts.
    + apply step_ok_token. split; simpl; [exact K|].
      apply covers_intro. now apply re_word_starts.
  - simpl. apply step_ok_token. split; simpl; [exact K|].
    apply covers_intro. now apply re_word_starts.
Qed.

Lemma scanChar_ok line li col this :
  step_ok CHAR_TOKENS WORD_TOKENS line li this (snd (scanChar CHAR_TOKENS WORD_TOKENS line li col this)).
Proof.
  unfold scanChar. destruct (charAt col line) as [char|] eqn:Ec;
    [|apply step_ok_refl].
  destruct (CHAR_TOKENS char) as [k|] eqn:Ek; simpl.
  - apply step_ok_token. split; simpl.
    + right. left. now exists char.
    + apply (covers_intro line li col k (char_string char)).
      now apply charAt_slice.
  - match goal with
    | |- context [let '(toAdd, this') := ?e in _] =>
        assert (H : step_ok CHAR_TOKENS WORD_TOKENS line li this (snd e)); [|destruct e as [toAdd this']]
    end.
    { destruct (is_digit char); [apply matchNumber_ok|].
      destruct (char =? "'")%char; [apply matchString_ok|].
      destruct (char =? "#")%char; [apply matchComment_ok|].
      destruct (re_word (slice col line)) as [w|] eqn:Ew;
        [now apply matchWord_ok | apply step_ok_refl]. }
    simpl in H. destruct (0 <? toAdd)%nat; simpl; [exact H|].
    eapply step_ok_trans; [exact H | apply step_ok_diagnostic].
Qed.

(** Every turn of the loop moves the column forward. *)
Lemma scanChar_advances line li col this :
  col < String.length line ->
  col < fst (scanChar CHAR_TOKENS WORD_TOKENS line li col this).
Proof.
  intros L. unfold scanChar.
  destruct (charAt_in_range col line L) as [char ->].
  destruct (CHAR_TOKENS char); simpl; [lia|].
  match goal with
  | |- context [let '(toAdd, this') := ?e in _] => destruct e as [toAdd this']
  end.
  destruct (0 <? toAdd)%nat eqn:E; simpl.
  - apply Nat.ltb_lt in E. lia.
  - lia.
Qed.

Lemma scanChars_ok fuel line li : forall col this,
  step_ok CHAR_TOKENS WORD_TOKENS line li this
    (scanChars CHAR_TOKENS WORD_TOKENS fuel line li col this).
Proof.
  induction fuel as [|fuel IH]; intros col this; simpl; [apply step_ok_refl|].
  destruct (col <? String.length line)%nat; [|apply step_ok_refl].
  pose proof (scanChar_ok line li col this) as H.
  destruct (scanChar CHAR_TOKENS WORD_TOKENS line li col this) as [c' this'].
  eapply step_ok_trans; [exact H | apply IH].
Qed.

(** The fuel [scanLine] gives the loop is enough: the loop stops because
    the column has reached the end of the line, and more turns would
    change nothing. *)
Lemma scanChars_fuel fuel line li : forall col this extra,
  String.length line - col <= fuel ->
  scanChars CHAR_TOKENS WORD_TOKENS (fuel + extra) line li col this
  = scanChars CHAR_TOKENS WORD_TOKENS fuel line li col this.
Proof.
  induction fuel as [|fuel IH]; intros col this extra L.
  - destruct extra as [|extra]; [reflexivity|]. simpl.
    destruct (col <? String.length line)%nat eqn:E; [|reflexivity].
    apply Nat.ltb_lt in E. lia.
  - simpl. destruct (col <? String.length line)%nat eqn:E; [|reflexivity].
    apply Nat.ltb_lt in E.
    pose proof (scanChar_advances line li col this E) as A.
    destruct (scanChar CHAR_TOKENS WORD_TOKENS line li col this) as [c' this'].
    simpl in A. apply IH. lia.
Qed.

(** ** Whole lines *)

(** The three outcomes of [scanLine] *)
Lemma scanLine_cases i this :
  let line := nth i (lines this) "" in
  scanLine CHAR_TOKENS WORD_TOKENS i this = this
  \/ (exists t, scanned_comment line i t
                /\ scanLine CHAR_TOKENS WORD_TOKENS i this
                   = push_comment t this)
  \/ (exists this3,
        step_ok CHAR_TOKENS WORD_TOKENS line i
          (set_indent (getIndent line)
             (addIndentTokens i (getIndent line) this)) this3
        /\ scanLine CHAR_TOKENS WORD_TOKENS i this
           = push_tokens
               [mkToken NEWLINE (char_string "010")
                  (line_span i (String.length line) (String.length line + 1))]
               this3).
Proof.
  intros line. unfold scanLine. fold line.
  destruct (String.length (drop_while is_space line) =? 0)%nat; [now left|].
  destruct (starts_with_char "#" (drop_while is_space line)).
  - right. left. eexists. split; [|reflexivity].
    split; [reflexivity|]. exists
      (String.length line - String.length (drop_while is_space line)).
    simpl.
    assert (L : String.length (drop_while is_space line) <= String.length line).
    { rewrite <- (take_drop_while is_space line) at 2. rewrite length_app. lia. }
    split.
    + unfold line_span. do 2 f_equal. lia.
    + apply substring_slice. rewrite drop_while_slice. apply starts_with_refl.
  - right. right. eexists. split; [|reflexivity]. apply scanChars_ok.
Qed.

Lemma scanLine_lines i this :
  lines (scanLine CHAR_TOKENS WORD_TOKENS i this) = lines this.
Proof.
  destruct (scanLine_cases i this) as [->|[[t [_ ->]]|[this3 [H ->]]]];
    try reflexivity.
  simpl. rewrite (so_lines _ _ _ _ _ _ H). simpl. unfold addIndentTokens.
  destruct (_ <? _)%nat; [reflexivity|]. now destruct (_ <? _)%nat.
Qed.

Lemma scanLines_invariant (P : Tokenizer -> Prop) :
  (forall i this, P this -> P (scanLine CHAR_TOKENS WORD_TOKENS i this)) ->
  forall this, P this -> P (scanLines CHAR_TOKENS WORD_TOKENS this).
Proof.
  intros Hstep this. unfold scanLines.
  generalize (seq 0 (List.length (lines this))). intros l. revert this.
  induction l as [|i l IH]; intros this H; simpl; [exact H|].
  apply IH, Hstep, H.
Qed.

Lemma scanLines_lines this :
  lines (scanLines CHAR_TOKENS WORD_TOKENS this) = lines this.
Proof.
  apply (scanLines_invariant (fun t => lines t = lines this));
    [|reflexivity].
  intros i t H. now rewrite scanLine_lines.
Qed.

(** ** Counting indents and outdents *)

Lemma count_kind_app k (a b : list Token) :
  count_kind k (a ++ b) = count_kind k a + count_kind k b.
Proof. unfold count_kind. now rewrite map_app, count_occ_app. Qed.

Lemma count_kind_repeat_same t n :
  count_kind (type t) (repeat t n) = n.
Proof.
  unfold count_kind. induction n as [|n IH]; simpl; [reflexivity|].
  destruct (LexicalToken_eq_dec (type t) (type t)); congruence.
Qed.

Lemma count_kind_repeat_other k t n :
  type t <> k -> count_kind k (repeat t n) = 0.
Proof.
  intros H. unfold count_kind. induction n as [|n IH]; simpl; [reflexivity|].
  destruct (LexicalToken_eq_dec (type t) k); congruence.
Qed.

Lemma count_kind_single k (t : Token) :
  type t <> k -> count_kind k [t] = 0.
Proof. apply (count_kind_repeat_other k t 1). Qed.

Lemma count_kind_none k (ts : list Token) :
  Forall (fun t => type t <> k) ts -> count_kind k ts = 0.
Proof.
  unfold count_kind. induction 1 as [|t ts H _ IH]; simpl; [reflexivity|].
  destruct (LexicalToken_eq_dec (type t) k); congruence.
Qed.

Section Balance.

(** Neither table holds [INDENT] or [OUTDENT]. *)
Hypothesis tables_no_indent :
  forall k, table_kind CHAR_TOKENS WORD_TOKENS k -> k <> INDENT /\ k <> OUTDENT.

Lemma scanned_no_indent line li ts :
  Forall (scanned CHAR_TOKENS WORD_TOKENS line li) ts ->
  count_kind INDENT ts = 0 /\ count_kind OUTDENT ts = 0.
Proof.
  intros F. split; apply count_kind_none; eapply Forall_impl; try exact F;
    intros t [[K|K] _]; simpl in K;
    try (intros E; rewrite E in K; intuition discriminate);
    apply tables_no_indent in K; tauto.
Qed.

Lemma addIndentTokens_balanced i n this :
  balanced this -> balanced (set_indent n (addIndentTokens i n this)).
Proof.
  unfold balanced, addIndentTokens. intros B.
  destruct (indent this <? n)%nat eqn:E1; simpl.
  - apply Nat.ltb_lt in E1. rewrite !count_kind_app.
    rewrite (count_kind_repeat_same (mkToken INDENT _ _)).
    rewrite count_kind_repeat_other by (simpl; discriminate). lia.
  - destruct (n <? indent this)%nat eqn:E2; simpl.
    + apply Nat.ltb_lt in E2. rewrite !count_kind_app.
      rewrite (count_kind_repeat_same (mkToken OUTDENT _ _)).
      rewrite count_kind_repeat_other by (simpl; discriminate). lia.
    + apply Nat.ltb_ge in E1, E2. lia.
Qed.

Lemma scanLine_balanced i this :
  balanced this -> balanced (scanLine CHAR_TOKENS WORD_TOKENS i this).
Proof.
  intros B.
  destruct (scanLine_cases i this) as [->|[[t [_ ->]]|[this3 [H ->]]]];
    try exact B.
  apply (addIndentTokens_balanced i (getIndent (nth i (lines this) ""))) in B.
  destruct H as [_ I [ts [T F]] _]. apply scanned_no_indent in F.
  unfold balanced in *. simpl. rewrite T, I, !count_kind_app.
  rewrite !count_kind_single by (simpl; discriminate). lia.
Qed.

Lemma tokenize_this_balanced this :
  balanced this ->
  count_kind INDENT (r_tokens (tokenize_this CHAR_TOKENS WORD_TOKENS this))
  = count_kind OUTDENT (r_tokens (tokenize_this CHAR_TOKENS WORD_TOKENS this)).
Proof.
  intros B.
  apply (scanLines_invariant balanced scanLine_balanced) in B.
  unfold balanced in B. unfold tokenize_this. simpl.
  rewrite !count_kind_app, B.
  rewrite (count_kind_repeat_other INDENT) by (simpl; discriminate).
  rewrite (count_kind_repeat_same (mkToken OUTDENT _ _)).
  rewrite !count_kind_single by (simpl; discriminate). lia.
Qed.

End Balance.

(** ** Lexemes *)

Section Lexemes.

(** Neither table holds a virtual kind. *)
Hypothesis tables_no_virtual :
  forall k, table_kind CHAR_TOKENS WORD_TOKENS k -> is_virtual k = false.

Lemma covers_source_text ls li t :
  covers (nth li ls "") li t -> lexeme t = source_text ls (span t).
Proof.
  intros [col [Hs Hl]]. unfold source_text. rewrite Hs. simpl.
  replace (col + String.length (lexeme t) - col)
    with (String.length (lexeme t)) by lia.
  now symmetry.
Qed.

Lemma not_virtual_lexeme_ok ls t :
  is_virtual (type t) = false ->
  lexeme t = source_text ls (span t) ->
  lexeme_ok ls t.
Proof.
  intros V H. unfold lexeme_ok.
  repeat split; try (intros E; rewrite E in V; discriminate); auto.
  intros [E|E]; rewrite E in V; discriminate.
Qed.

Lemma scanned_lexeme_ok ls li t :
  scanned CHAR_TOKENS WORD_TOKENS (nth li ls "") li t -> lexeme_ok ls t.
Proof.
  intros [K C]. apply not_virtual_lexeme_ok; [|now apply (covers_source_text _ li)].
  destruct K as [K|K]; [|now apply tables_no_virtual].
  simpl in K. repeat (destruct K as [<-|K]; [reflexivity|]). contradiction.
Qed.

Lemma scanned_comment_lexeme_ok ls li t :
  scanned_comment (nth li ls "") li t -> lexeme_ok ls t.
Proof.
  intros [K C]. apply not_virtual_lexeme_ok; [|now apply (covers_source_text _ li)].
  now rewrite K.
Qed.

Lemma virtual_lexeme_ok ls k lx sp :
  (k = INDENT /\ lx = char_string "009")
  \/ (k = NEWLINE /\ lx = char_string "010")
  \/ ((k = OUTDENT \/ k = EOF) /\ lx = "") ->
  lexeme_ok ls (mkToken k lx sp).
Proof.
  unfold lexeme_ok. simpl.
  intros [[-> ->]|[[-> ->]|[[->| ->] ->]]]; repeat split;
    try discriminate; try reflexivity; intros [E|E]; discriminate.
Qed.

Lemma addIndentTokens_lexemes_ok i n this :
  Forall (lexeme_ok (lines this)) (tokens this) ->
  Forall (lexeme_ok (lines this)) (tokens (addIndentTokens i n this)).
Proof.
  intros F. unfold addIndentTokens.
  destruct (indent this <? n)%nat; [|destruct (n <? indent this)%nat];
    simpl; try exact F;
    (apply Forall_app; split; [exact F|]);
    apply Forall_forall; intros t Hin; apply repeat_spec in Hin; subst t;
    apply virtual_lexeme_ok; auto.
Qed.

Lemma addIndentTokens_same i n this :
  lines (addIndentTokens i n this) = lines this
  /\ comments (addIndentTokens i n this) = comments this.
Proof.
  unfold addIndentTokens.
  destruct (indent this <? n)%nat; [|destruct (n <? indent this)%nat];
    split; reflexivity.
Qed.

Lemma scanLine_lexemes_ok i this :
  lexemes_ok this -> lexemes_ok (scanLine CHAR_TOKENS WORD_TOKENS i this).
Proof.
  intros [FT FC]. unfold lexemes_ok. rewrite scanLine_lines.
  destruct (scanLine_cases i this) as [->|[[t [Ht ->]]|[this3 [H ->]]]];
    simpl.
  - now split.
  - split; [exact FT|]. apply Forall_app. split; [exact FC|].
    constructor; [|constructor].
    now apply (scanned_comment_lexeme_ok _ i).
  - destruct H as [_ _ [ts [T F]] [cs [C G]]]. simpl in T, C.
    destruct (addIndentTokens_same i (getIndent (nth i (lines this) "")) this)
      as [_ Ec].
    rewrite T, C, Ec. split.
    + repeat (apply Forall_app; split).
      * now apply addIndentTokens_lexemes_ok.
      * eapply Forall_impl; [|exact F]. intros t.
        apply (scanned_lexeme_ok _ i).
      * constructor; [|constructor]. apply virtual_lexeme_ok. auto.
    + apply Forall_app. split; [exact FC|].
      eapply Forall_impl; [|exact G]. intros t.
      apply (scanned_comment_lexeme_ok _ i).
Qed.

Lemma tokenize_this_lexemes_ok this :
  lexemes_ok this ->
  Forall (lexeme_ok (lines this))
         (r_tokens (tokenize_this CHAR_TOKENS WORD_TOKENS this))
  /\ Forall (lexeme_ok (lines this))
            (r_comments (tokenize_this CHAR_TOKENS WORD_TOKENS this)).
Proof.
  intros H.
  apply (scanLines_invariant lexemes_ok scanLine_lexemes_ok) in H.
  destruct H as [FT FC]. rewrite scanLines_lines in FT, FC.
  unfold tokenize_this. simpl. split; [|exact FC].
  repeat (apply Forall_app; split).
  - exact FT.
  - apply Forall_forall; intros t Hin; apply repeat_spec in Hin; subst t.
    apply virtual_lexeme_ok. auto.
  - constructor; [|constructor]. apply virtual_lexeme_ok. auto.
Qed.

End Lexemes.

End TokenizerFacts.

(* ================================================================== *)
(** * The tables modelled from the specification *)

Lemma lookup_in {K V : Type} (eqb : K -> K -> bool) (entries : list (K * V))
    (key : K) (v : V) :
  lookup eqb entries key = Some v -> In v (map snd entries).
Proof.
  unfold lookup. intros H.
  destruct (find (fun e => eqb (fst e) key) entries) as [e|] eqn:E;
    [|discriminate].
  inversion H; subst. apply find_some in E. apply in_map, E.
Qed.

Lemma spec_tables_kinds (P : LexicalToken -> Prop) :
  Forall P (map snd CHAR_TOKENS_entries) ->
  Forall P (map snd WORD_TOKENS_entries) ->
  forall k, table_kind spec_CHAR_TOKENS spec_WORD_TOKENS k -> P k.
Proof.
  intros FC FW k [[c H]|[w H]]; apply lookup_in in H.
  - now apply (proj1 (Forall_forall _ _) FC).
  - now apply (proj1 (Forall_forall _ _) FW).
Qed.

Lemma spec_tables_no_virtual :
  forall k, table_kind spec_CHAR_TOKENS spec_WORD_TOKENS k ->
            is_virtual k = false.
Proof.
  apply spec_tables_kinds; simpl; repeat constructor.
Qed.

Lemma spec_tables_no_indent :
  forall k, table_kind spec_CHAR_TOKENS spec_WORD_TOKENS k ->
            k <> INDENT /\ k <> OUTDENT.
Proof.
  apply spec_tables_kinds; simpl; repeat constructor; discriminate.
Qed.

(* ================================================================== *)
(** * The claims about the tokenizer *)


(** A word found at a column starts with the character of that column,
    which is then neither a digit, nor a quote, nor a hash. *)
Lemma word_at_column (line : string) (col : nat) (char : ascii) (w : string) :
  charAt col line = Some char ->
  re_word (slice col line) = Some w ->
  is_digit char = false /\ (char =? "'")%char = false
  /\ (char =? "#")%char = false /\ (0 <? String.length w)%nat = true.
Proof.
  intros Hc Hw. destruct (charAt_slice _ _ _ Hc) as [r Hr].
  rewrite Hr in Hw. simpl in Hw. apply re_word_first in Hw.
  destruct Hw as [Hs Hl]. apply word_start_other in Hs.
  destruct Hs as [H1 [H2 H3]]. repeat split; auto.
  now apply Nat.ltb_lt.
Qed.

(** The turn of the loop at a word, whatever the tables hold for it *)
Lemma scanChar_word CHAR_TOKENS WORD_TOKENS line li col this char w :
  charAt col line = Some char ->
  CHAR_TOKENS char = None ->
  re_word (slice col line) = Some w ->
  scanChar CHAR_TOKENS WORD_TOKENS line li col this
  = (col + fst (matchWord WORD_TOKENS w (slice col line) li col this),
     snd (matchWord WORD_TOKENS w (slice col line) li col this)).
Proof.
  intros Hc Hk Hw. unfold scanChar. rewrite Hc, Hk.
  destruct (word_at_column _ _ _ _ Hc Hw) as [H1 [H2 [H3 H4]]].
  rewrite H1, H2, H3, Hw.
  assert (L : (0 <? fst (matchWord WORD_TOKENS w (slice col line) li col this))%nat
              = true).
  { unfold matchWord. destruct (is_bare_word w); [exact H4|].
    destruct (w =? "is") eqn:Eis; [|exact H4].
    destruct (re_comparison (slice col line)) as [m|] eqn:E; [|exact H4].
    simpl. apply String.eqb_eq in Eis. subst w.
    unfold re_comparison in E.
    destruct (strip_prefix "is" (slice col line)); [|discriminate].
    destruct (re_spaces s) as [[ws r']|]; [|discriminate].
    destruct (strip_prefix "not" r');
      [|destruct (re_less_greater_than "less" r');
        [|destruct (re_less_greater_than "greater" r'); [|discriminate]]];
      inversion E; reflexivity. }
  destruct (matchWord WORD_TOKENS w (slice col line) li col this)
    as [toAdd this'].
  simpl in *. now rewrite L.
Qed.



(** C10.  A word that begins with [is] and is longer ([island]) is one
    [IDENTIFIER] token over the whole word, whatever follows it on the
    line: the match of the multi-word operators is tried only when the
    word is exactly [is]. *)
Theorem longer_word_is_one_identifier
    CHAR_TOKENS WORD_TOKENS line li col this char w :
  charAt col line = Some char ->
  CHAR_TOKENS char = None ->
  re_word (slice col line) = Some w ->
  starts_with "is" w ->
  w <> "is" ->
  WORD_TOKENS w = None ->
  scanChar CHAR_TOKENS WORD_TOKENS line li col this
  = (col + String.length w,
     push_tokens
       [mkToken IDENTIFIER w (line_span li col (col + String.length w))]
       this).
Proof.
  intros Hc Hk Hw [r Hr] Hne Hwt.
  rewrite (scanChar_word _ _ _ _ _ _ _ _ Hc Hk Hw).
  unfold matchWord. rewrite Hwt.
  assert (Hb : is_bare_word w = false) by (subst w; reflexivity).
  apply String.eqb_neq in Hne. rewrite Hb, Hne. reflexivity.
Qed.

Lemma longer_word_is_one_identifier_witness :
  scanChar spec_CHAR_TOKENS spec_WORD_TOKENS "island not x" 0 0
           (newTokenizer "island not x")
  = (0 + 6,
     push_tokens [mkToken IDENTIFIER "island" (line_span 0 0 (0 + 6))]
                 (newTokenizer "island not x")).
Proof.
  refine (longer_word_is_one_identifier spec_CHAR_TOKENS spec_WORD_TOKENS
            "island not x" 0 0 (newTokenizer "island not x") "i"%char "island"
            eq_refl eq_refl eq_refl _ _ eq_refl).
  - exists "land". reflexivity.
  - discriminate.
Defined.

(** The whole line [island not x], over the tables modelled from the
    specification: [island], [not] and [x] are three tokens. *)
Example island_tokens :
  map (fun t => (type t, lexeme t))
      (r_tokens (tokenize_source "island not x"))
  = [(IDENTIFIER, "island"); (NOT, "not"); (IDENTIFIER, "x");
     (NEWLINE, char_string "010"); (EOF, "")].
Proof. vm_compute. reflexivity. Qed.




(** C6.  [if x is less than y], over the tables modelled from the
    specification: the tokens are [if], [x], one [IS_LESS_THAN] token with
    lexeme [is less than] over columns 5 to 17, [y], and the line's
    [NEWLINE] and [EOF]; exactly one token is of kind [IS_LESS_THAN], and
    no token has the lexeme [is], [less] or [than]. *)
Theorem is_less_than_one_token :
  let ts := r_tokens (tokenize_source "if x is less than y") in
  ts = [ mkToken IF "if" (line_span 0 0 2);
         mkToken IDENTIFIER "x" (line_span 0 3 4);
         mkToken IS_LESS_THAN "is less than" (line_span 0 5 17);
         mkToken IDENTIFIER "y" (line_span 0 18 19);
         mkToken NEWLINE (char_string "010") (line_span 0 19 20);
         mkToken EOF "" (line_span 0 19 20) ]
  /\ filter (fun t => LexicalToken_eqb (type t) IS_LESS_THAN) ts
     = [mkToken IS_LESS_THAN "is less than" (line_span 0 5 17)]
  /\ forallb (fun t => negb ((lexeme t =? "is") || (lexeme t =? "less")
                             || (lexeme t =? "than"))) ts = true.
Proof. vm_compute. repeat split. Qed.

(** The same turn of the loop over any tables in which [i] is not a
    single-character token: at column 5 the three words become one token,
    and the loop goes on at column 17. *)
Lemma is_less_than_any_tables CHAR_TOKENS WORD_TOKENS li this :
  CHAR_TOKENS "i"%char = None ->
  scanChar CHAR_TOKENS WORD_TOKENS "if x is less than y" li 5 this
  = (17, push_tokens
           [mkToken IS_LESS_THAN "is less than" (line_span li 5 17)] this).
Proof.
  intros Hk.
  rewrite (scanChar_word CHAR_TOKENS WORD_TOKENS "if x is less than y" li 5
             this "i"%char "is" eq_refl Hk eq_refl).
  unfold matchWord. simpl. unfold comparison_type. simpl.
  repeat f_equal.
Qed.

(** C7.  The tokens [tokenize] returns hold as many [INDENT]s as
    [OUTDENT]s, for every source, over any tables that hold neither
    kind. *)
Theorem indent_balance CHAR_TOKENS WORD_TOKENS :
  (forall k, table_kind CHAR_TOKENS WORD_TOKENS k ->
             k <> INDENT /\ k <> OUTDENT) ->
  forall source',
    count_kind INDENT (r_tokens (tokenize CHAR_TOKENS WORD_TOKENS source'))
    = count_kind OUTDENT (r_tokens (tokenize CHAR_TOKENS WORD_TOKENS source')).
Proof.
  intros H source'. unfold tokenize.
  apply tokenize_this_balanced; [exact H | reflexivity].
Qed.

Lemma indent_balance_witness :
  count_kind INDENT (r_tokens (tokenize_source indented_source))
  = count_kind OUTDENT (r_tokens (tokenize_source indented_source)).
Proof.
  exact (indent_balance spec_CHAR_TOKENS spec_WORD_TOKENS
           spec_tables_no_indent indented_source).
Defined.

Example two_indents_two_outdents :
  count_kind INDENT (r_tokens (tokenize_source indented_source)) = 2.
Proof. vm_compute. reflexivity. Qed.

(** C3, as the code has it.  Of the virtual tokens, [OUTDENT] and [EOF]
    have an empty lexeme, [INDENT] has a tab and [NEWLINE] a line feed;
    the lexeme of every other token, and of every comment, is the text of
    the source at its span.  This holds for every source, over any tables
    that hold no virtual kind. *)
Theorem lexemes_of_tokens CHAR_TOKENS WORD_TOKENS :
  (forall k, table_kind CHAR_TOKENS WORD_TOKENS k -> is_virtual k = false) ->
  forall source' t,
    In t (r_tokens (tokenize CHAR_TOKENS WORD_TOKENS source'))
    \/ In t (r_comments (tokenize CHAR_TOKENS WORD_TOKENS source')) ->
    lexeme_ok (split_lines source') t.
Proof.
  intros H source' t Hin. unfold tokenize in Hin.
  destruct (tokenize_this_lexemes_ok CHAR_TOKENS WORD_TOKENS H
              (newTokenizer source')) as [FT FC].
  { split; constructor. }
  simpl in FT, FC. destruct Hin as [Hin|Hin].
  - exact (proj1 (Forall_forall _ _) FT t Hin).
  - exact (proj1 (Forall_forall _ _) FC t Hin).
Qed.

Lemma lexemes_of_tokens_witness :
  lexeme_ok (split_lines indented_source)
            (mkToken INDENT (char_string "009") (line_span 1 0 2))
  /\ lexeme_ok (split_lines indented_source)
               (mkToken IDENTIFIER "b" (line_span 1 2 3)).
Proof.
  split;
    apply (lexemes_of_tokens spec_CHAR_TOKENS spec_WORD_TOKENS
             spec_tables_no_virtual indented_source);
    left; vm_compute; auto 10.
Defined.

(** C3 as stated fails: the tokens of the two indented lines hold an
    [INDENT] whose lexeme is a tab and a [NEWLINE] whose lexeme is a line
    feed. *)
Lemma virtual_lexeme_not_empty :
  ~ (forall t, In t (r_tokens (tokenize_source indented_source)) ->
               is_virtual (type t) = true -> lexeme t = "").
Proof.
  intros H.
  specialize (H (mkToken INDENT (char_string "009") (line_span 1 0 2))).
  simpl in H. discriminate H; [vm_compute; auto 10 | reflexivity].
Qed.

(** C9.  The empty source, over any tables: one [EOF] token, no comment,
    no diagnostic; and parsing that token gives a program with an empty
    body and no diagnostic. *)
Theorem empty_source :
  (forall CHAR_TOKENS WORD_TOKENS,
     tokenize CHAR_TOKENS WORD_TOKENS ""
     = mkTokenizeResult [mkToken EOF "" (line_span 0 0 1)] [] [])
  /\ (forall ladder,
        parse ladder [mkToken EOF "" (line_span 0 0 1)]
        = Some (mkParseResult (mkProgram [] (line_span 0 0 1)) [])).
Proof. split; reflexivity. Qed.

(* ================================================================== *)
(** * The claims about the parser *)


(** The function [check] of the repository's test of this input accepts a
    node only when it is an expression statement over a call without
    parameters whose object is a [Literal] node holding a token with
    lexeme [fn]: the test was written for a parser that gives an
    identifier the node kind [LITERAL], where section 4.2.3 has
    [Identifier]. *)
Lemma check_no_params_accepts (node : Node) :
  check_no_params node = true ->
  exists value osp csp ssp,
    node = ExpressionStatement (CallExpression (Literal value osp) [] csp) ssp
    /\ lexeme value = "fn".
Proof.
  destruct node; simpl; try discriminate.
  destruct node; simpl; try discriminate.
  destruct params; simpl; try discriminate.
  destruct node; simpl; try discriminate.
  intros H. apply String.eqb_eq in H.
  do 4 eexists. split; [reflexivity | exact H].
Qed.

(** ** New expressions *)

Lemma consume_type kind message handler p token p' :
  kind <> EOF ->
  consume kind message handler p = Ok token p' -> type token = kind.
Proof.
  intros Hk. unfold consume, check.
  destruct (LexicalToken_eqb (type (peek_at p)) kind) eqn:E;
    [|discriminate].
  apply LexicalToken_eqb_eq in E. unfold advance, isAtEnd.
  destruct (LexicalToken_eqb (type (peek_at p)) EOF) eqn:E'.
  - apply LexicalToken_eqb_eq in E'. congruence.
  - intros H. inversion H; subst. unfold previous_at, peek_at in *. simpl.
    now rewrite Nat.add_sub.
Qed.

Lemma bind_ok {A B : Type} (m : M A) (k : A -> M B) p b p' :
  bind m k p = Ok b p' ->
  exists a p1, m p = Ok a p1 /\ k a p1 = Ok b p'.
Proof.
  unfold bind. destruct (m p) as [a p1| |]; try discriminate.
  intros H. now exists a, p1.
Qed.

Section NewExprFacts.

Variable parsePrecedence' : Precedence -> string -> Handler -> M Node.
Variable memberExpr' : Node -> Token -> M Node.
Variable matchGenericArgs' : M (list VariableType).
Variable matchExpressionList' : LexicalToken -> M (list Node).

(** The loop of [newExpr], when it returns, has made the steps of
    [member_steps]. *)
Lemma memberLoop_steps fuel : forall object p object' p',
  memberLoop memberExpr' fuel object p = Ok object' p' ->
  member_steps memberExpr' object p object' p'.
Proof.
  induction fuel as [|fuel IH]; intros object p object' p' H; simpl in H;
    [discriminate|].
  apply bind_ok in H as (isDot & p1 & Em & H). unfold match_ in Em.
  destruct (check DOT p) eqn:Ec.
  - apply bind_ok in Em as (dot & q & Ea & Er).
    inversion Er; subst isDot q.
    apply bind_ok in H as (dot' & p2 & Ep & H).
    unfold previous in Ep. inversion Ep; subst dot' p2.
    apply bind_ok in H as (object1 & p3 & E & H).
    assert (Ed : dot = previous_at p1).
    { unfold advance in Ea. inversion Ea; subst. reflexivity. }
    subst dot.
    eapply ms_step; [exact Ec | exact Ea | exact E | now apply IH].
  - inversion Em; subst isDot p1. inversion H; subst.
    now apply ms_stop.
Qed.

(** The loop returns whenever the steps can be made, given fuel for
    them: a turn of the loop consumes a token. *)
Lemma member_steps_loop object p object' p' :
  member_steps memberExpr' object p object' p' ->
  exists fuel0, forall fuel, fuel0 <= fuel ->
    memberLoop memberExpr' fuel object p = Ok object' p'.
Proof.
  induction 1 as [object p Hc | object p dot p1 object1 p2 object' p'
                                 Hc Ha He _ [fuel0 IH]].
  - exists 1. intros [|fuel] Hf; [lia|]. simpl. unfold bind, match_.
    now rewrite Hc.
  - exists (S fuel0). intros [|fuel] Hf; [lia|]. simpl. unfold bind, match_.
    rewrite Hc. unfold bind. rewrite Ha. unfold ret, previous.
    assert (Ed : dot = previous_at p1).
    { unfold advance in Ha. inversion Ha; subst. reflexivity. }
    rewrite <- Ed, He. apply IH. lia.
Qed.

(** C2, as the code has it.  The object of the [new] expression that
    [newExpr] returns is the expression [parsePrecedence(OP11)] returned
    after the newlines that follow [new], passed through [memberExpr] once
    for each [.] token found at the cursor after it (each call is given
    the object built so far and that [.] token, which the loop has
    consumed), up to the first token that is not a [.]; [newExpr] puts no
    condition on the kind of the expression [parsePrecedence] returned. *)
Theorem new_object_through_memberExpr prefix p node p' :
  newExpr parsePrecedence' memberExpr' matchGenericArgs' matchExpressionList'
          prefix p
  = Ok node p' ->
  exists base p1 object p2 genericArgs params sp,
    parsePrecedence' OP11 "Expected an expression after 'new'"
      (fun _ => [("Add an expression after this new", span prefix)])
      (skipNewlines (remaining p) p) = Ok base p1
    /\ member_steps memberExpr' base (skipNewlines (remaining p1) p1)
                    object p2
    /\ node = NewExpression object genericArgs params sp.
Proof.
  unfold newExpr. intros H.
  apply bind_ok in H as ([] & q0 & E0 & H). inversion E0; subst q0.
  apply bind_ok in H as (base & p1 & E1 & H).
  apply bind_ok in H as ([] & q1 & En & H). inversion En; subst q1.
  apply bind_ok in H as (object & p2 & E2 & H).
  apply memberLoop_steps in E2.
  apply bind_ok in H as ([] & q2 & _ & H).
  apply bind_ok in H as (isLt & p3 & _ & H).
  apply bind_ok in H as (genericArgs & p4 & _ & H).
  apply bind_ok in H as (paren & p5 & _ & H).
  apply bind_ok in H as (params & p6 & _ & H).
  apply bind_ok in H as (last & p7 & _ & H).
  inversion H; subst.
  exists base, p1, object, p2, genericArgs, params. eexists.
  repeat split; auto.
Qed.

End NewExprFacts.

(** With the member expression of section 4.2.4, the steps of the loop
    wrap the object in one member expression for each [.identifier]: the
    tokens the loop consumes are the [.] tokens and, after each, the
    [IDENTIFIER] token that becomes the property. *)
Lemma member_steps_chain base p object p' :
  member_steps memberExpr base p object p' ->
  exists properties,
    Forall (fun t => type t = IDENTIFIER) properties
    /\ object = member_chain base properties
    /\ ptokens p' = ptokens p
    /\ index p' = index p + 2 * List.length properties
    /\ forall i property,
         nth_error properties i = Some property ->
         type (nth (index p + 2 * i) (ptokens p) eof_token) = DOT
         /\ nth (index p + 2 * i + 1) (ptokens p) eof_token = property.
Proof.
  induction 1 as [object p Hc | object p dot p1 object1 p2 object' p'
                                 Hc Ha He _ IH].
  - exists []. split; [constructor|]. split; [reflexivity|].
    split; [reflexivity|]. split; [simpl; lia|].
    intros [|i] property Hi; discriminate Hi.
  - destruct IH as (properties & F & -> & Ht & Hi & Hn).
    unfold check in Hc. apply LexicalToken_eqb_eq in Hc.
    assert (A : p1 = mkParser (ptokens p) (index p + 1) (pdiagnostics p)).
    { unfold advance, isAtEnd in Ha. rewrite Hc in Ha. simpl in Ha.
      now inversion Ha. }
    subst p1. unfold memberExpr in He.
    apply bind_ok in He as (property & q & Ec & Er).
    assert (Hty : type property = IDENTIFIER)
      by (eapply consume_type; [|exact Ec]; discriminate).
    assert (B : property = nth (index p + 1) (ptokens p) eof_token
                /\ q = mkParser (ptokens p) (index p + 2) (pdiagnostics p)).
    { unfold consume in Ec.
      destruct (check IDENTIFIER
                  (mkParser (ptokens p) (index p + 1) (pdiagnostics p)))
        eqn:Ek; [|discriminate].
      unfold check in Ek. apply LexicalToken_eqb_eq in Ek.
      unfold advance, isAtEnd in Ec. rewrite Ek in Ec. simpl in Ec.
      inversion Ec. unfold previous_at. simpl.
      split; [f_equal; lia | f_equal; lia]. }
    destruct B as [Hp Hq]. unfold ret in Er.
    inversion Er; subst object1 p2. clear Er.
    rewrite Hq in Ht, Hi, Hn. simpl in Ht, Hi, Hn.
    exists (property :: properties).
    split; [constructor; assumption|]. split; [reflexivity|].
    split; [exact Ht|]. split; [simpl; lia|].
    intros [|i] property' Hi'; simpl in Hi'.
    + inversion Hi'; subst property'.
      replace (index p + 2 * 0) with (index p) by lia.
      split; [exact Hc | now rewrite Hp].
    + apply Hn in Hi'. destruct Hi' as [H1 H2].
      replace (index p + 2 * S i) with (index p + 2 + 2 * i) by lia.
      now split.
Qed.

Lemma new_object_through_memberExpr_witness :
  exists base p1 object p2 genericArgs params sp,
    parsePrecedence NewExprLadder OP11 "Expected an expression after 'new'"
      (fun _ => [("Add an expression after this new", line_span 0 0 3)])
      (skipNewlines (remaining after_new_member) after_new_member)
    = Ok base p1
    /\ member_steps memberExpr base (skipNewlines (remaining p1) p1)
                    object p2
    /\ new_member = NewExpression object genericArgs params sp.
Proof.
  refine (new_object_through_memberExpr
            (parsePrecedence NewExprLadder) memberExpr matchGenericArgs
            (matchExpressionList (parsePrecedence NewExprLadder))
            (mkToken NEW "new" (line_span 0 0 3))
            after_new_member new_member (mkParser new_member_tokens 9 []) _).
  vm_compute. reflexivity.
Defined.

(** [new a.b<T>()], with the postfix forms below OP11: [parsePrecedence]
    returns the identifier [a], the loop makes one turn and stops at [<],
    and the object is the member expression [a.b]. *)
Example new_member_steps :
  r_tokens (tokenize_source "new a.b<T>()") = new_member_tokens
  /\ parsePrecedence NewExprLadder OP11 "Expected an expression after 'new'"
       (fun _ => [("Add an expression after this new", line_span 0 0 3)])
       after_new_member
     = Ok name_a (mkParser new_member_tokens 2 [])
  /\ member_steps memberExpr name_a (mkParser new_member_tokens 2 [])
                  member_a_b (mkParser new_member_tokens 4 [])
  /\ newExpr (parsePrecedence NewExprLadder) memberExpr matchGenericArgs
       (matchExpressionList (parsePrecedence NewExprLadder))
       (mkToken NEW "new" (line_span 0 0 3)) after_new_member
     = Ok new_member (mkParser new_member_tokens 9 []).
Proof.
  split; [reflexivity|]. split; [vm_compute; reflexivity|].
  split; [|vm_compute; reflexivity].
  eapply ms_step; [reflexivity | reflexivity | vm_compute; reflexivity |].
  apply ms_stop. reflexivity.
Qed.

(** Why the ladder is a parameter.  With the postfix forms at OP11, as
    section 4.2.2 has them, [parsePrecedence(OP11)] consumes the call
    [a()] and [newExpr] then finds no [(]: [new a()] is an error.  With
    them below OP11, [new a()] is a [new] expression over the identifier
    [a], without parameters. *)
Example new_name_on_each_ladder :
  parse_source SpecLadder "new a()"
  = Some (mkParseResult
            (mkProgram [] (line_span 0 0 8))
            [mkDiagnostic ERROR "parser" "Expected '(' after the class"
               (line_span 0 7 8)
               [("Add a '(' after this class", line_span 0 4 7)]])
  /\ parse_source NewExprLadder "new a()"
     = Some (mkParseResult
               (mkProgram
                  [ExpressionStatement
                     (NewExpression name_a [] [] (line_span 0 0 7))
                     (line_span 0 0 7)]
                  (line_span 0 0 8))
               []).
Proof. split; vm_compute; reflexivity. Qed.

(** C2 as stated fails: [new(5)<T>()] tokenizes without a diagnostic and
    parses without a diagnostic, wherever the postfix forms stand on the
    ladder, to a [new] expression whose object is the parenthesised
    literal [(5)], which is neither an identifier nor a chain of members
    over an identifier. *)
Lemma new_object_is_a_number :
  r_diagnostics (tokenize_source "new(5)<T>()") = []
  /\ (forall ladder,
        parse_source ladder "new(5)<T>()"
        = Some (mkParseResult
                  (mkProgram
                     [ExpressionStatement new_number (line_span 0 0 11)]
                     (line_span 0 0 12))
                  []))
  /\ new_number
     = NewExpression wrapped_number
         [mkVariableType [mkToken IDENTIFIER "T" (line_span 0 7 8)] []
                         (line_span 0 7 8)]
         [] (line_span 0 0 11)
  /\ is_name_chain wrapped_number = false.
Proof.
  split; [vm_compute; reflexivity|].
  split; [intros []; vm_compute; reflexivity|].
  split; reflexivity.
Qed.

(* ================================================================== *)
(** * The claim about the linter rule *)

Section LinterFacts.

Open Scope list_scope.

Variable isDeclaration' : Node -> bool.

Lemma forEach_checkNode (props : list (ClassProp Node)) :
  forall reports,
    Linter.forEach (fun prop => Linter.checkNode isDeclaration' (value prop))
                   props reports
    = reports
      ++ map class_body_diagnostic
           (filter (fun n => negb (isDeclaration' n)) (map value props)).
Proof.
  unfold Linter.forEach.
  induction props as [|prop props IH]; intros reports; simpl.
  - now rewrite app_nil_r.
  - rewrite IH. unfold Linter.checkNode, Linter.report.
    destruct (negb (isDeclaration' (value prop))); simpl; [|reflexivity].
    now rewrite <- app_assoc.
Qed.

(** C8.  On a class declaration the rule appends, to the reports made so
    far, one diagnostic "You can only put declarations in a class body"
    at the span of each entry of [staticBody], then of [instanceBody],
    that is not a declaration, in order, and nothing for the entries that
    are declarations. *)
Theorem declarations_in_class_reports
    identifier extends staticBody instanceBody sp reports :
  Linter.declarationsInClass isDeclaration'
    (ClassDeclaration identifier extends staticBody instanceBody sp) reports
  = reports
    ++ map class_body_diagnostic
         (filter (fun n => negb (isDeclaration' n))
                 (map value staticBody ++ map value instanceBody)).
Proof.
  simpl. rewrite !forEach_checkNode, filter_app, map_app.
  now rewrite <- app_assoc.
Qed.

End LinterFacts.

(** A class whose static body holds a declaration and whose instance body
    holds an assignment [x = 1]: one report, at the assignment. *)
Example class_with_assignment :
  let x := mkToken IDENTIFIER "x" (line_span 1 1 2) in
  let assignment :=
    ExpressionStatement
      (BinaryExpression (Identifier x (line_span 1 1 2))
         (mkToken EQUAL "=" (line_span 1 3 4))
         (Literal (mkToken NUMBER "1" (line_span 1 5 6)) (line_span 1 5 6))
         (line_span 1 1 6))
      (line_span 1 1 6) in
  Linter.declarationsInClass isDeclaration
    (ClassDeclaration (mkToken IDENTIFIER "C" (line_span 0 6 7)) None
       [mkClassProp (EmptyVariableDeclaration x None (line_span 2 1 6))]
       [mkClassProp assignment]
       (line_span 0 0 6))
    []
  = [mkDiagnostic ERROR "linter"
       "You can only put declarations in a class body" (line_span 1 1 6) []].
Proof. reflexivity. Qed.

(* ================================================================== *)
(** * Further properties of the tokenizer *)

Lemma pushed_nothing this : pushed this [] [] [] = this.
Proof. destruct this. unfold pushed. simpl. now rewrite !app_nil_r. Qed.

Lemma pushed_pushed this ts cs ds ts' cs' ds' :
  pushed (pushed this ts cs ds) ts' cs' ds'
  = pushed this (ts ++ ts')%list (cs ++ cs')%list (ds ++ ds')%list.
Proof. unfold pushed. simpl. now rewrite !app_assoc. Qed.

Lemma push_tokens_pushed ts this : push_tokens ts this = pushed this ts [] [].
Proof. unfold push_tokens, pushed. now rewrite !app_nil_r. Qed.

Lemma push_comment_pushed t this : push_comment t this = pushed this [] [t] [].
Proof. unfold push_comment, pushed. now rewrite !app_nil_r. Qed.

Lemma push_diagnostic_pushed d this :
  push_diagnostic d this = pushed this [] [] [d].
Proof. unfold push_diagnostic, pushed. now rewrite !app_nil_r. Qed.

Lemma starts_with_length (m s : string) :
  starts_with m s -> String.length m <= String.length s.
Proof. intros [r ->]. rewrite length_app. lia. Qed.

Lemma starts_with_fits (line m : string) (col : nat) :
  starts_with m (slice col line) -> 0 < String.length m ->
  col + String.length m <= String.length line.
Proof.
  intros H L. apply starts_with_length in H. rewrite slice_length in H. lia.
Qed.

Lemma re_number_length (s m : string) :
  re_number s = Some m -> 0 < String.length m.
Proof.
  destruct s as [|c r]; simpl; [discriminate|].
  destruct (is_digit c); [|discriminate].
  intros H; inversion H; simpl; lia.
Qed.

Lemma re_string_length (s m : string) :
  re_string s = Some m -> 0 < String.length m.
Proof.
  destruct s as [|c r]; simpl; [discriminate|].
  destruct (c =? "'")%char; [|discriminate].
  destruct (re_string_body r); [|discriminate].
  intros H; inversion H; simpl; lia.
Qed.

Lemma re_word_length (s m : string) :
  re_word s = Some m -> 0 < String.length m.
Proof.
  destruct s as [|c r]; simpl; [discriminate|].
  destruct (is_word_start c); [|discriminate].
  intros H; inversion H; simpl; lia.
Qed.

Lemma re_comparison_is (s : string) (m : ComparisonMatch) :
  re_comparison s = Some m -> exists r, whole m = ("is" ++ r)%string.
Proof.
  unfold re_comparison.
  destruct (strip_prefix "is" s) as [r|]; [|discriminate].
  destruct (re_spaces r) as [[ws r']|]; [|discriminate].
  destruct (strip_prefix "not" r');
    [|destruct (re_less_greater_than "less" r');
      [|destruct (re_less_greater_than "greater" r'); [|discriminate]]];
    intros H; inversion H; cbn [whole]; eexists; reflexivity.
Qed.

Lemma re_comparison_length (s : string) (m : ComparisonMatch) :
  re_comparison s = Some m -> 0 < String.length (whole m).
Proof.
  intros H. apply re_comparison_is in H. destruct H as [r ->]. simpl. lia.
Qed.

Section TokenizerMore.

Open Scope list_scope.

Variable CHAR_TOKENS : ascii -> option LexicalToken.
Variable WORD_TOKENS : string -> option LexicalToken.

Lemma scanned_token_facts line li col t :
  scanned_token CHAR_TOKENS WORD_TOKENS line li col t ->
  span t = line_span li col (col + String.length (lexeme t))
  /\ starts_with (lexeme t) (slice col line)
  /\ 0 < String.length (lexeme t).
Proof.
  intros H. destruct H as [c k Hc Hk|m Hm|m Hm|w Hw Hb|m Hw Hm]; simpl.
  - repeat split; [now apply charAt_slice | lia].
  - repeat split; [now apply re_number_starts | now apply re_number_length in Hm].
  - repeat split; [now apply re_string_starts | now apply re_string_length in Hm].
  - repeat split; [now apply re_word_starts | now apply re_word_length in Hw].
  - repeat split;
      [now apply re_comparison_starts | now apply re_comparison_length in Hm].
Qed.

Lemma scanned_token_kind line li col t :
  scanned_token CHAR_TOKENS WORD_TOKENS line li col t ->
  scanned_kind CHAR_TOKENS WORD_TOKENS (type t).
Proof.
  assert (K : forall w, scanned_kind CHAR_TOKENS WORD_TOKENS
                          (word_type WORD_TOKENS w)).
  { intros w. unfold word_type. destruct (WORD_TOKENS w) eqn:E.
    - right. right. now exists w.
    - left. simpl. auto. }
  intros H. destruct H as [c k Hc Hk|m Hm|m Hm|w Hw Hb|m Hw Hm]; simpl.
  - right. left. now exists c.
  - left. simpl. auto.
  - left. simpl. auto.
  - apply K.
  - apply comparison_type_kind, K.
Qed.

(** What one of the matchers of [scanLine] does at a column: it pushes at
    most one token, and comments and diagnostics of the line; the number
    it returns is the length of the token it pushed. *)
Definition match_outcome (line : string) (li col : nat) (this : Tokenizer)
    (r : nat * Tokenizer) : Prop :=
  exists ts cs ds,
    snd r = pushed this ts cs ds
    /\ (ts = [] \/ exists t, ts = [t]
                   /\ scanned_token CHAR_TOKENS WORD_TOKENS line li col t
                   /\ fst r = String.length (lexeme t))
    /\ Forall (scanned_comment line li) cs
    /\ Forall (tokenizer_diagnostic line li) ds
    /\ col + fst r <= String.length line.

Lemma match_outcome_none line li col this :
  col < String.length line -> match_outcome line li col this (0, this).
Proof.
  intros L. exists [], [], []. simpl. rewrite pushed_nothing.
  repeat split; auto. lia.
Qed.

Lemma match_outcome_token line li col this t :
  scanned_token CHAR_TOKENS WORD_TOKENS line li col t ->
  match_outcome line li col this
    (String.length (lexeme t), push_tokens [t] this).
Proof.
  intros H. exists [t], [], []. simpl. rewrite push_tokens_pushed.
  destruct (scanned_token_facts _ _ _ _ H) as [_ [S L]].
  repeat split; auto.
  - right. exists t. auto.
  - now apply starts_with_fits.
Qed.

Lemma error_diagnostic line li col message lexeme' :
  starts_with lexeme' (slice col line) -> 0 < String.length lexeme' ->
  tokenizer_diagnostic line li
    (mkDiagnostic ERROR "tokenizer" message
       (line_span li col (col + String.length lexeme')) []).
Proof.
  intros S L. repeat split. exists col, (String.length lexeme').
  repeat split; auto. now apply starts_with_fits.
Qed.

Lemma matchWord_outcome line li col this w :
  re_word (slice col line) = Some w ->
  match_outcome line li col this
    (matchWord WORD_TOKENS w (slice col line) li col this).
Proof.
  intros Hw. unfold matchWord. fold (word_type WORD_TOKENS w).
  destruct (is_bare_word w) eqn:Hb.
  - exists [], [], [mkDiagnostic ERROR "tokenizer"
                      (if (w =? "than")%string then than_message
                       else after_is_message w)
                      (line_span li col (col + String.length w)) []].
    unfold error. simpl. rewrite push_diagnostic_pushed.
    repeat split; auto.
    + constructor; [|constructor].
      apply (error_diagnostic line li col _ w);
        [now apply re_word_starts | now apply re_word_length in Hw].
    + apply starts_with_fits;
        [now apply re_word_starts | now apply re_word_length in Hw].
  - destruct (w =? "is")%string eqn:Eis.
    + apply String.eqb_eq in Eis. subst w.
      destruct (re_comparison (slice col line)) as [m|] eqn:E.
      * apply (match_outcome_token line li col this
                 (mkToken (comparison_type m (word_type WORD_TOKENS "is"))
                    (whole m)
                    (line_span li col (col + String.length (whole m))))).
        now apply st_comparison.
      * apply (match_outcome_token line li col this
                 (mkToken (word_type WORD_TOKENS "is") "is"
                    (line_span li col (col + String.length "is")))).
        now apply st_word.
    + apply (match_outcome_token line li col this
               (mkToken (word_type WORD_TOKENS w) w
                  (line_span li col (col + String.length w)))).
      now apply st_word.
Qed.

(** One turn of the loop: the column moves forward and stays inside the
    line; at most one token is pushed, which starts at the old column and
    ends at the new one. *)
Lemma scanChar_turn line li col this :
  col < String.length line ->
  exists c' ts cs ds,
    scanChar CHAR_TOKENS WORD_TOKENS line li col this
    = (c', pushed this ts cs ds)
    /\ col < c' <= String.length line
    /\ (ts = [] \/ exists t, ts = [t]
                   /\ scanned_token CHAR_TOKENS WORD_TOKENS line li col t
                   /\ c' = col + String.length (lexeme t))
    /\ Forall (scanned_comment line li) cs
    /\ Forall (tokenizer_diagnostic line li) ds.
Proof.
  intros L. unfold scanChar.
  destruct (charAt_in_range col line L) as [char Hc]. rewrite Hc.
  destruct (CHAR_TOKENS char) as [k|] eqn:Hk.
  - exists (col + 1), [mkToken k (char_string char)
                         (line_span li col (col + 1))], [], [].
    rewrite push_tokens_pushed. repeat split; auto; try lia.
    right. eexists. split; [reflexivity|]. split; [|reflexivity].
    now apply st_char with (c := char).
  - match goal with
    | |- context [let '(toAdd, this') := ?e in _] =>
        assert (H : match_outcome line li col this e);
          [|destruct e as [toAdd this']]
    end.
    { destruct (is_digit char).
      { unfold matchNumber.
        destruct (re_number (slice col line)) as [m|] eqn:E;
          [|now apply match_outcome_none].
        apply (match_outcome_token line li col this
                 (mkToken NUMBER m
                    (line_span li col (col + String.length m)))).
        now apply st_number. }
      destruct (char =? "'")%char.
      { unfold matchString.
        destruct (re_string (slice col line)) as [m|] eqn:E;
          [|now apply match_outcome_none].
        apply (match_outcome_token line li col this
                 (mkToken STRING m
                    (line_span li col (col + String.length m)))).
        now apply st_string. }
      destruct (char =? "#")%char.
      { unfold matchComment.
        exists [], [mkToken COMMENT (slice col line)
                      (line_span li col
                         (col + String.length (slice col line)))], [].
        simpl. rewrite push_comment_pushed. repeat split; auto.
        - constructor; [|constructor]. split; [reflexivity|].
          apply covers_intro, starts_with_refl.
        - rewrite slice_length. lia. }
      destruct (re_word (slice col line)) as [w|] eqn:Ew;
        [now apply matchWord_outcome | now apply match_outcome_none]. }
    destruct H as [ts [cs [ds [Hs [Ht [Fc [Fd Hl]]]]]]]. simpl in Hs, Ht, Hl.
    subst this'. destruct (0 <? toAdd)%nat eqn:E.
    + apply Nat.ltb_lt in E. exists (col + toAdd), ts, cs, ds.
      repeat split; auto; try lia.
      destruct Ht as [->|[t [-> [St Et]]]]; [now left|].
      right. exists t. repeat split; auto; now rewrite Et.
    + apply Nat.ltb_ge in E.
      unfold error. simpl. rewrite push_diagnostic_pushed, pushed_pushed.
      simpl. do 4 eexists. split; [reflexivity|].
      repeat split; try lia.
      * destruct Ht as [->|[t [-> [St Et]]]]; [now left|].
        exfalso. apply scanned_token_facts in St. lia.
      * rewrite app_nil_r. exact Fc.
      * apply Forall_app. split; [exact Fd|]. constructor; [|constructor].
        apply (error_diagnostic line li col _ (char_string char));
          [now apply charAt_slice | simpl; lia].
Qed.

Lemma scan_chain_weaken line li c c' ts :
  scan_chain CHAR_TOKENS WORD_TOKENS line li c ts -> c' <= c ->
  scan_chain CHAR_TOKENS WORD_TOKENS line li c' ts.
Proof.
  intros H L. destruct H as [c|c col t ts Hle Hs Hc]; [constructor|].
  apply sc_cons with (col := col); [lia | exact Hs | exact Hc].
Qed.

(** The whole loop, from a column on *)
Lemma scanChars_run fuel line li : forall col this,
  exists ts cs ds,
    scanChars CHAR_TOKENS WORD_TOKENS fuel line li col this
    = pushed this ts cs ds
    /\ scan_chain CHAR_TOKENS WORD_TOKENS line li col ts
    /\ Forall (scanned_comment line li) cs
    /\ Forall (tokenizer_diagnostic line li) ds.
Proof.
  induction fuel as [|fuel IH]; intros col this; simpl.
  - exists [], [], []. rewrite pushed_nothing. repeat split; auto. constructor.
  - destruct (col <? String.length line)%nat eqn:E.
    + apply Nat.ltb_lt in E.
      destruct (scanChar_turn line li col this E)
        as [c' [ts [cs [ds [Hs [Hc [Ht [Fc Fd]]]]]]]].
      rewrite Hs.
      destruct (IH c' (pushed this ts cs ds))
        as [ts' [cs' [ds' [Hs' [Ch [Fc' Fd']]]]]].
      rewrite Hs', pushed_pushed. do 3 eexists. split; [reflexivity|].
      repeat split; try (apply Forall_app; split; assumption).
      destruct Ht as [->|[t [-> [St Et]]]]; simpl.
      * apply (scan_chain_weaken _ _ _ _ _ Ch). lia.
      * eapply sc_cons; [apply Nat.le_refl | exact St |]. now rewrite <- Et.
    + exists [], [], []. rewrite pushed_nothing. repeat split; auto.
      constructor.
Qed.

End TokenizerMore.

Section TokenizerLines.

Open Scope list_scope.

Variable CHAR_TOKENS : ascii -> option LexicalToken.
Variable WORD_TOKENS : string -> option LexicalToken.

Lemma addIndentTokens_pushed li n this :
  addIndentTokens li n this
  = pushed this (indent_tokens li (indent this) n) [] [].
Proof.
  unfold addIndentTokens, indent_tokens.
  destruct (indent this <? n)%nat eqn:E1;
    [now rewrite push_tokens_pushed|].
  destruct (n <? indent this)%nat eqn:E2;
    [now rewrite push_tokens_pushed|].
  apply Nat.ltb_ge in E1, E2.
  replace (indent this - n) with 0 by lia. simpl.
  now rewrite pushed_nothing.
Qed.

(** What [scanLine] does with a line, by the kind of the line *)
Lemma scanLine_run i this :
  let line := nth i (lines this) "" in
  (is_code_line line = false
   /\ exists cs,
        scanLine CHAR_TOKENS WORD_TOKENS i this = pushed this [] cs []
        /\ Forall (scanned_comment line i) cs
        /\ List.length cs = (if is_comment_line line then 1 else 0))
  \/ (is_code_line line = true
      /\ exists ts cs ds,
           scanLine CHAR_TOKENS WORD_TOKENS i this
           = mkTokenizer (lines this)
               (tokens this ++ indent_tokens i (indent this) (getIndent line)
                ++ ts ++ [newline_token i line])
               (comments this ++ cs) (diagnostics this ++ ds)
               (getIndent line)
           /\ scan_chain CHAR_TOKENS WORD_TOKENS line i (getIndent line) ts
           /\ Forall (scanned_comment line i) cs
           /\ Forall (tokenizer_diagnostic line i) ds).
Proof.
  intros line. unfold scanLine, is_code_line, is_comment_line, is_blank_line.
  fold line.
  destruct (String.length (drop_while is_space line) =? 0)%nat eqn:E0.
  - left. split; [reflexivity|]. exists []. rewrite pushed_nothing.
    simpl. auto.
  - destruct (starts_with_char "#" (drop_while is_space line)) eqn:E1; simpl.
    + left. split; [reflexivity|]. eexists. rewrite push_comment_pushed.
      split; [reflexivity|]. split; [|reflexivity].
      constructor; [|constructor]. split; [reflexivity|].
      exists (String.length line - String.length (drop_while is_space line)).
      simpl.
      assert (L : String.length (drop_while is_space line)
                  <= String.length line).
      { rewrite <- (take_drop_while is_space line) at 2.
        rewrite length_app. lia. }
      split.
      * unfold line_span. do 2 f_equal. lia.
      * apply substring_slice. rewrite drop_while_slice.
        apply starts_with_refl.
    + right. split; [reflexivity|].
      rewrite addIndentTokens_pushed.
      destruct (scanChars_run CHAR_TOKENS WORD_TOKENS (String.length line)
                  line i (getIndent line)
                  (set_indent (getIndent line)
                     (pushed this
                        (indent_tokens i (indent this) (getIndent line))
                        [] [])))
        as [ts [cs [ds [Hs [Ch [Fc Fd]]]]]].
      rewrite Hs. exists ts, cs, ds. split; [|auto].
      unfold push_tokens, pushed, set_indent, newline_token. simpl.
      rewrite !app_nil_r, <- !app_assoc. reflexivity.
Qed.

(** An invariant that may depend on the number of lines scanned so far *)
Lemma scanLines_indexed (P : nat -> Tokenizer -> Prop) this :
  P 0 this ->
  (forall i t, i < List.length (lines this) -> lines t = lines this ->
               P i t -> P (S i) (scanLine CHAR_TOKENS WORD_TOKENS i t)) ->
  P (List.length (lines this)) (scanLines CHAR_TOKENS WORD_TOKENS this)
  /\ lines (scanLines CHAR_TOKENS WORD_TOKENS this) = lines this.
Proof.
  intros H0 Hstep. unfold scanLines.
  assert (G : forall n start t,
             start + n <= List.length (lines this) ->
             lines t = lines this -> P start t ->
             P (start + n)
               (fold_left (fun this' i => scanLine CHAR_TOKENS WORD_TOKENS i this')
                          (seq start n) t)
             /\ lines (fold_left
                         (fun this' i => scanLine CHAR_TOKENS WORD_TOKENS i this')
                         (seq start n) t) = lines this).
  { induction n as [|n IH]; intros start t L E H; simpl.
    - rewrite Nat.add_0_r. auto.
    - replace (start + S n) with (S start + n) by lia.
      apply IH; [lia | now rewrite scanLine_lines |].
      apply Hstep; auto. lia. }
  apply (G (List.length (lines this)) 0 this); auto.
Qed.

Lemma scan_chain_forall line li c ts :
  scan_chain CHAR_TOKENS WORD_TOKENS line li c ts ->
  Forall (fun t => exists col,
            c <= col /\ scanned_token CHAR_TOKENS WORD_TOKENS line li col t) ts.
Proof.
  induction 1 as [c|c col t ts Hle Hs Hc IH]; constructor.
  - exists col. auto.
  - eapply Forall_impl; [|exact IH]. intros t' [col' [L S']].
    exists col'. split; [lia | exact S'].
Qed.

Lemma scan_chain_kinds line li c ts :
  scan_chain CHAR_TOKENS WORD_TOKENS line li c ts ->
  Forall (fun t => scanned_kind CHAR_TOKENS WORD_TOKENS (type t)) ts.
Proof.
  intros H. apply scan_chain_forall in H.
  eapply Forall_impl; [|exact H]. intros t [col [_ S']].
  now apply scanned_token_kind in S'.
Qed.

(** Scanning a line does not push a token of kind [k], when [k] is
    neither a kind of the tables nor one of the six kinds the matchers
    give. *)
Lemma scan_chain_count k line li c ts :
  ~ scanned_kind CHAR_TOKENS WORD_TOKENS k ->
  scan_chain CHAR_TOKENS WORD_TOKENS line li c ts ->
  count_kind k ts = 0.
Proof.
  intros Hk H. apply scan_chain_kinds in H. apply count_kind_none.
  eapply Forall_impl; [|exact H]. intros t K E. apply Hk. now rewrite <- E.
Qed.

Lemma not_scanned_kind k :
  ~ In k [NUMBER; STRING; IDENTIFIER; IS_NOT; IS_LESS_THAN; IS_GREATER_THAN] ->
  (forall k', table_kind CHAR_TOKENS WORD_TOKENS k' -> k' <> k) ->
  ~ scanned_kind CHAR_TOKENS WORD_TOKENS k.
Proof. intros H1 H2 [K|K]; [auto | now apply H2 in K]. Qed.

Lemma count_kind_indent_tokens k li prev n :
  k <> INDENT -> k <> OUTDENT -> count_kind k (indent_tokens li prev n) = 0.
Proof.
  intros H1 H2. unfold indent_tokens.
  destruct (prev <? n)%nat; apply count_kind_repeat_other; simpl; congruence.
Qed.

End TokenizerLines.

(** ** Nesting of indents *)

Lemma nesting_app ts : forall d ts',
  nesting d (ts ++ ts')
  = match nesting d ts with
    | Some d' => nesting d' ts'
    | None => None
    end.
Proof.
  induction ts as [|t ts IH]; intros d ts'; simpl; [reflexivity|].
  destruct (type t); try apply IH. destruct d; [reflexivity | apply IH].
Qed.

Lemma nesting_other ts : forall d,
  Forall (fun t => type t <> INDENT /\ type t <> OUTDENT) ts ->
  nesting d ts = Some d.
Proof.
  induction ts as [|t ts IH]; intros d F; simpl; [reflexivity|].
  inversion F as [|? ? [H1 H2] F']; subst.
  destruct (type t); try (now apply IH); congruence.
Qed.

Lemma nesting_indents sp n : forall d,
  nesting d (repeat (mkToken INDENT (char_string "009") sp) n) = Some (d + n).
Proof.
  induction n as [|n IH]; intros d; simpl; [now rewrite Nat.add_0_r|].
  rewrite IH. f_equal. lia.
Qed.

Lemma nesting_outdents sp n : forall d,
  n <= d -> nesting d (repeat (mkToken OUTDENT "" sp) n) = Some (d - n).
Proof.
  induction n as [|n IH]; intros d L; simpl; [now rewrite Nat.sub_0_r|].
  destruct d as [|d]; [lia|]. rewrite IH by lia. reflexivity.
Qed.

Lemma nesting_indent_tokens li prev n :
  nesting prev (indent_tokens li prev n) = Some n.
Proof.
  unfold indent_tokens. destruct (prev <? n)%nat eqn:E.
  - apply Nat.ltb_lt in E. rewrite nesting_indents. f_equal. lia.
  - apply Nat.ltb_ge in E. rewrite nesting_outdents by lia. f_equal. lia.
Qed.

(** The depth counts the indents that are still open. *)
Lemma nesting_counts ts : forall d d',
  nesting d ts = Some d' ->
  d + count_kind INDENT ts = d' + count_kind OUTDENT ts.
Proof.
  unfold count_kind.
  induction ts as [|t ts IH]; intros d d' H; simpl in *.
  - inversion H. lia.
  - destruct (type t) eqn:E;
      try (destruct d; [discriminate|]);
      apply IH in H;
      repeat match goal with
             | |- context [LexicalToken_eq_dec ?a ?b] =>
                 destruct (LexicalToken_eq_dec a b); try discriminate
             end; try congruence; lia.
Qed.

Lemma nesting_prefix ts ts' d d' :
  nesting d (ts ++ ts') = Some d' -> exists d1, nesting d ts = Some d1.
Proof.
  rewrite nesting_app. destruct (nesting d ts) as [d1|]; [|discriminate].
  intros _. now exists d1.
Qed.

Section TokenizerResults.

Open Scope list_scope.

Variable CHAR_TOKENS : ascii -> option LexicalToken.
Variable WORD_TOKENS : string -> option LexicalToken.

(** X1.  A turn of the loop of [scanLine], entered inside the line, moves
    the column forward by at least one and never past the end of the
    line: the loop ends, and it ends at the end of the line. *)
Theorem scan_turn_advances line li col this :
  col < String.length line ->
  col < fst (scanChar CHAR_TOKENS WORD_TOKENS line li col this)
      <= String.length line.
Proof.
  intros L.
  destruct (scanChar_turn CHAR_TOKENS WORD_TOKENS line li col this L)
    as [c' [ts [cs [ds [Hs [Hc _]]]]]].
  now rewrite Hs.
Qed.

Lemma scanLine_nesting i this :
  (forall k, table_kind CHAR_TOKENS WORD_TOKENS k ->
             k <> INDENT /\ k <> OUTDENT) ->
  nesting 0 (tokens this) = Some (indent this) ->
  nesting 0 (tokens (scanLine CHAR_TOKENS WORD_TOKENS i this))
  = Some (indent (scanLine CHAR_TOKENS WORD_TOKENS i this)).
Proof.
  intros Ht N.
  destruct (scanLine_run CHAR_TOKENS WORD_TOKENS i this)
    as [[_ [cs [-> _]]]|[_ [ts [cs [ds [-> [Ch _]]]]]]]; simpl.
  - now rewrite app_nil_r.
  - rewrite nesting_app, N, nesting_app, nesting_indent_tokens.
    apply nesting_other. apply Forall_app. split.
    + apply scan_chain_kinds in Ch. eapply Forall_impl; [|exact Ch].
      intros t [K|K]; [|now apply Ht].
      simpl in K. split; intros E; rewrite E in K; intuition discriminate.
    + constructor; [|constructor]. simpl. split; discriminate.
Qed.

(** X2.  The [INDENT]s and [OUTDENT]s of the result are nested like
    brackets: no [OUTDENT] comes without an [INDENT] still open before it
    (every beginning of the token list has at least as many [INDENT]s as
    [OUTDENT]s), and at the end every [INDENT] is closed.  For every
    source, over tables that hold neither kind. *)
Theorem indents_are_nested :
  (forall k, table_kind CHAR_TOKENS WORD_TOKENS k ->
             k <> INDENT /\ k <> OUTDENT) ->
  forall source',
    nesting 0 (r_tokens (tokenize CHAR_TOKENS WORD_TOKENS source')) = Some 0
    /\ forall before after,
         r_tokens (tokenize CHAR_TOKENS WORD_TOKENS source') = before ++ after ->
         count_kind OUTDENT before <= count_kind INDENT before.
Proof.
  intros Ht source'.
  assert (N : nesting 0 (r_tokens (tokenize CHAR_TOKENS WORD_TOKENS source'))
              = Some 0).
  { unfold tokenize, tokenize_this. simpl.
    pose proof (scanLines_invariant CHAR_TOKENS WORD_TOKENS
                  (fun t => nesting 0 (tokens t) = Some (indent t))
                  (fun i t => scanLine_nesting i t Ht)
                  (newTokenizer source') eq_refl) as H.
    rewrite nesting_app, nesting_app, H, nesting_outdents by lia.
    rewrite Nat.sub_diag. reflexivity. }
  split; [exact N|].
  intros before after E. rewrite E in N.
  destruct (nesting_prefix _ _ _ _ N) as [d1 H1].
  apply nesting_counts in H1. lia.
Qed.

End TokenizerResults.

Lemma firstn_succ_nth {A : Type} (d : A) (l : list A) : forall i,
  i < List.length l -> firstn (S i) l = (firstn i l ++ [nth i l d])%list.
Proof.
  induction l as [|a l IH]; intros i L; simpl in *; [lia|].
  destruct i as [|i]; [reflexivity|].
  change (a :: firstn (S i) l = a :: (firstn i l ++ [nth i l d])%list).
  f_equal. apply IH. lia.
Qed.

Lemma bare_word_cases (w : string) :
  is_bare_word w = true -> w = "less" \/ w = "greater" \/ w = "than".
Proof.
  unfold is_bare_word. intros H.
  apply orb_true_iff in H. destruct H as [H|H];
    [apply orb_true_iff in H; destruct H as [H|H]|];
    apply String.eqb_eq in H; auto.
Qed.

Lemma is_space_not_word (c : ascii) :
  is_space c = true -> is_word_char c = false.
Proof.
  destruct c as [[] [] [] [] [] [] [] []]; vm_compute; congruence.
Qed.

Lemma digit_not_word_start (c : ascii) :
  is_digit c = true -> is_word_start c = false.
Proof.
  destruct c as [[] [] [] [] [] [] [] []]; vm_compute; congruence.
Qed.

Section TokenizerStream.

Open Scope list_scope.

Variable CHAR_TOKENS : ascii -> option LexicalToken.
Variable WORD_TOKENS : string -> option LexicalToken.

#[local] Abbreviation tokenize' := (tokenize CHAR_TOKENS WORD_TOKENS).
#[local] Abbreviation scanLine' := (scanLine CHAR_TOKENS WORD_TOKENS).
#[local] Abbreviation scanLines' := (scanLines CHAR_TOKENS WORD_TOKENS).

(** A kind that only the tokenizer's own pushes could give: [scanLine]
    changes its count by the indents, outdents and newline it pushes. *)
Lemma scanLine_count k i this :
  ~ scanned_kind CHAR_TOKENS WORD_TOKENS k ->
  count_kind k (tokens (scanLine' i this))
  = count_kind k (tokens this)
    + if is_code_line (nth i (lines this) "")
      then count_kind k (indent_tokens i (indent this)
                           (getIndent (nth i (lines this) "")))
           + count_kind k [newline_token i (nth i (lines this) "")]
      else 0.
Proof.
  intros Hk.
  destruct (scanLine_run CHAR_TOKENS WORD_TOKENS i this)
    as [[-> [cs [-> _]]]|[-> [ts [cs [ds [-> [Ch _]]]]]]]; simpl.
  - now rewrite app_nil_r.
  - rewrite !count_kind_app.
    rewrite (scan_chain_count CHAR_TOKENS WORD_TOKENS k _ _ _ _ Hk Ch). lia.
Qed.

(** X3.  The last token of the result is [EOF], and no other token is:
    [EOF] appears exactly once.  For every source, over tables that do
    not hold [EOF]. *)
Theorem eof_last_and_once :
  (forall k, table_kind CHAR_TOKENS WORD_TOKENS k -> k <> EOF) ->
  forall source',
    exists before sp,
      r_tokens (tokenize' source') = before ++ [mkToken EOF "" sp]
      /\ count_kind EOF before = 0
      /\ count_kind EOF (r_tokens (tokenize' source')) = 1.
Proof.
  intros Ht source'. unfold tokenize, tokenize_this. simpl.
  assert (K : ~ scanned_kind CHAR_TOKENS WORD_TOKENS EOF).
  { apply not_scanned_kind; [simpl; intuition discriminate | exact Ht]. }
  pose proof (scanLines_invariant CHAR_TOKENS WORD_TOKENS
                (fun t => count_kind EOF (tokens t) = 0)) as H.
  specialize (H (fun i t E => eq_trans (scanLine_count EOF i t K)
                   ltac:(rewrite E; destruct (is_code_line _);
                         [rewrite count_kind_indent_tokens by discriminate;
                          reflexivity | reflexivity]))
                (newTokenizer source') eq_refl).
  do 2 eexists. split; [reflexivity|].
  rewrite !count_kind_app, H.
  rewrite count_kind_repeat_other by (simpl; discriminate).
  split; reflexivity.
Qed.

(** X4.  The result holds one [NEWLINE] for each line that is neither
    blank nor a comment, and no other.  For every source, over tables
    that do not hold [NEWLINE]. *)
Theorem newline_per_code_line :
  (forall k, table_kind CHAR_TOKENS WORD_TOKENS k -> k <> NEWLINE) ->
  forall source',
    count_kind NEWLINE (r_tokens (tokenize' source'))
    = List.length (filter is_code_line (split_lines source')).
Proof.
  intros Ht source'. unfold tokenize, tokenize_this. simpl.
  assert (K : ~ scanned_kind CHAR_TOKENS WORD_TOKENS NEWLINE).
  { apply not_scanned_kind; [simpl; intuition discriminate | exact Ht]. }
  destruct (scanLines_indexed CHAR_TOKENS WORD_TOKENS
              (fun i t => count_kind NEWLINE (tokens t)
                          = List.length (filter is_code_line
                                           (firstn i (split_lines source'))))
              (newTokenizer source') eq_refl) as [H _].
  { intros i t L E IH. simpl in L, E.
    rewrite (scanLine_count NEWLINE i t K), IH, E.
    rewrite (firstn_succ_nth "" _ i L), filter_app, List.length_app. simpl.
    destruct (is_code_line (nth i (split_lines source') "")); simpl; [|lia].
    rewrite count_kind_indent_tokens by discriminate. reflexivity. }
  simpl in H. rewrite firstn_all in H.
  rewrite !count_kind_app, H.
  rewrite count_kind_repeat_other by (simpl; discriminate).
  rewrite count_kind_single by (simpl; discriminate). lia.
Qed.

(** X5.  Comments are kept apart: every entry of [comments] is a
    [COMMENT], there is at least one for each comment line, and no token
    of [tokens] is a [COMMENT].  For every source, over tables that do
    not hold [COMMENT]. *)
Theorem comments_are_apart :
  (forall k, table_kind CHAR_TOKENS WORD_TOKENS k -> k <> COMMENT) ->
  forall source',
    Forall (fun t => type t = COMMENT) (r_comments (tokenize' source'))
    /\ List.length (filter is_comment_line (split_lines source'))
       <= List.length (r_comments (tokenize' source'))
    /\ count_kind COMMENT (r_tokens (tokenize' source')) = 0.
Proof.
  intros Ht source'. unfold tokenize, tokenize_this. simpl.
  assert (K : ~ scanned_kind CHAR_TOKENS WORD_TOKENS COMMENT).
  { apply not_scanned_kind; [simpl; intuition discriminate | exact Ht]. }
  destruct (scanLines_indexed CHAR_TOKENS WORD_TOKENS
              (fun i t =>
                 Forall (fun c => type c = COMMENT) (comments t)
                 /\ List.length (filter is_comment_line
                                   (firstn i (split_lines source')))
                    <= List.length (comments t)
                 /\ count_kind COMMENT (tokens t) = 0)
              (newTokenizer source')) as [H _].
  { simpl. repeat split; auto. }
  { intros i t L E [F [N C]]. simpl in L, E.
    rewrite (scanLine_count COMMENT i t K), C.
    rewrite (firstn_succ_nth "" _ i L), filter_app, List.length_app. simpl.
    destruct (scanLine_run CHAR_TOKENS WORD_TOKENS i t)
      as [[Hc [cs [-> [Fc Lc]]]]|[Hc [ts [cs [ds [-> [_ [Fc _]]]]]]]];
      rewrite E in *; rewrite Hc; simpl; rewrite List.length_app.
    - repeat split; auto.
      + apply Forall_app. split; [exact F|].
        eapply Forall_impl; [|exact Fc]. now intros c [Tc _].
      + destruct (is_comment_line (nth i (split_lines source') ""));
          simpl; lia.
    - repeat split.
      + apply Forall_app. split; [exact F|].
        eapply Forall_impl; [|exact Fc]. now intros c [Tc _].
      + assert (Hl : is_comment_line (nth i (split_lines source') "") = false).
        { unfold is_code_line in Hc. unfold is_comment_line.
          apply andb_true_iff in Hc. destruct Hc as [_ Hc].
          apply negb_true_iff in Hc. now rewrite Hc, andb_false_r. }
        rewrite Hl. simpl. lia.
      + rewrite count_kind_indent_tokens by discriminate.
        now rewrite count_kind_single by (simpl; discriminate). }
  simpl in H. rewrite firstn_all in H. destruct H as [F [N C]].
  repeat split; auto.
  rewrite !count_kind_app, C.
  rewrite count_kind_repeat_other by (simpl; discriminate).
  now rewrite count_kind_single by (simpl; discriminate).
Qed.

(** X6.  A source without a line to scan (every line is blank or a
    comment) gives the single token [EOF], placed after the last line,
    one comment for each comment line, and no diagnostic. *)
Theorem no_code_line_only_eof source' :
  (forall line, In line (split_lines source') -> is_code_line line = false) ->
  let last := List.length (split_lines source') - 1 in
  let len := String.length (nth last (split_lines source') "") in
  r_tokens (tokenize' source') = [mkToken EOF "" (line_span last len (len + 1))]
  /\ List.length (r_comments (tokenize' source'))
     = List.length (filter is_comment_line (split_lines source'))
  /\ r_diagnostics (tokenize' source') = [].
Proof.
  intros Hn last len. unfold tokenize, tokenize_this. simpl.
  destruct (scanLines_indexed CHAR_TOKENS WORD_TOKENS
              (fun i t =>
                 tokens t = [] /\ diagnostics t = [] /\ indent t = 0
                 /\ List.length (comments t)
                    = List.length (filter is_comment_line
                                     (firstn i (split_lines source'))))
              (newTokenizer source')) as [H E].
  { simpl. auto. }
  { intros i t L El [T [D [I C]]]. simpl in L, El.
    rewrite (firstn_succ_nth "" _ i L), filter_app, List.length_app. simpl.
    destruct (scanLine_run CHAR_TOKENS WORD_TOKENS i t)
      as [[Hc [cs [-> [Fc Lc]]]]|[Hc _]]; rewrite El in *.
    - simpl. rewrite T, D, List.length_app, C, Lc.
      destruct (is_comment_line (nth i (split_lines source') ""));
        simpl; repeat split; auto.
    - rewrite Hn in Hc by (apply nth_In; exact L). discriminate. }
  simpl in H, E. rewrite firstn_all in H. destruct H as [T [D [I C]]].
  rewrite T, D, I, E. simpl. auto.
Qed.

(** X7.  Every diagnostic of the tokenizer is an [ERROR] with source
    [tokenizer] and no [info], over at least one column of one line of
    the source, inside that line. *)
Theorem diagnostics_are_positioned source' :
  Forall (fun d => exists li,
            li < List.length (split_lines source')
            /\ tokenizer_diagnostic (nth li (split_lines source') "") li d)
         (r_diagnostics (tokenize' source')).
Proof.
  unfold tokenize, tokenize_this. simpl.
  destruct (scanLines_indexed CHAR_TOKENS WORD_TOKENS
              (fun i t =>
                 Forall (fun d => exists li,
                           li < List.length (split_lines source')
                           /\ tokenizer_diagnostic
                                (nth li (split_lines source') "") li d)
                        (diagnostics t))
              (newTokenizer source')) as [H _].
  { simpl. constructor. }
  { intros i t L E F. simpl in L, E.
    destruct (scanLine_run CHAR_TOKENS WORD_TOKENS i t)
      as [[_ [cs [-> _]]]|[_ [ts [cs [ds [-> [_ [_ Fd]]]]]]]]; simpl.
    - now rewrite app_nil_r.
    - apply Forall_app. split; [exact F|].
      eapply Forall_impl; [|exact Fd]. intros d Hd. exists i.
      rewrite E in Hd. auto. }
  exact H.
Qed.

(** Every token of the result is made up by the tokenizer or scanned at a
    column of a line of the source. *)
Lemma tokens_emitted source' :
  Forall (emitted CHAR_TOKENS WORD_TOKENS (split_lines source'))
         (r_tokens (tokenize' source')).
Proof.
  unfold tokenize, tokenize_this. simpl.
  destruct (scanLines_indexed CHAR_TOKENS WORD_TOKENS
              (fun i t =>
                 Forall (emitted CHAR_TOKENS WORD_TOKENS (split_lines source'))
                        (tokens t))
              (newTokenizer source')) as [H _].
  { simpl. constructor. }
  { intros i t L E F. simpl in L, E.
    destruct (scanLine_run CHAR_TOKENS WORD_TOKENS i t)
      as [[_ [cs [-> _]]]|[_ [ts [cs [ds [-> [Ch _]]]]]]]; simpl.
    - now rewrite app_nil_r.
    - repeat (apply Forall_app; split); auto.
      + unfold indent_tokens.
        destruct (_ <? _)%nat; apply Forall_forall; intros x Hx;
          apply repeat_spec in Hx; subst x; left; unfold virtual_token;
          simpl; auto.
      + apply scan_chain_forall in Ch. eapply Forall_impl; [|exact Ch].
        intros x [col [_ Sx]]. right. exists i, col. rewrite E in Sx. auto.
      + constructor; [|constructor]. left. unfold virtual_token. simpl. auto. }
  repeat (apply Forall_app; split); auto.
  - apply Forall_forall; intros x Hx; apply repeat_spec in Hx; subst x.
    left. unfold virtual_token. simpl. auto.
  - constructor; [|constructor]. left. unfold virtual_token. simpl. auto.
Qed.

End TokenizerStream.

(** ** The lexemes of numbers and strings *)

Lemma all_chars_app p (s t : string) :
  all_chars p (s ++ t)%string = all_chars p s && all_chars p t.
Proof.
  induction s as [|c s IH]; simpl; [reflexivity|].
  now rewrite IH, andb_assoc.
Qed.

Lemma count_char_app p (s t : string) :
  count_char p (s ++ t)%string = count_char p s + count_char p t.
Proof. induction s as [|c s IH]; simpl; [reflexivity | rewrite IH; lia]. Qed.

Lemma take_while_all p q (s : string) :
  (forall c, p c = true -> q c = true) ->
  all_chars q (take_while p s) = true.
Proof.
  intros H. induction s as [|c s IH]; simpl; [reflexivity|].
  destruct (p c) eqn:E; simpl; [|reflexivity]. now rewrite (H c E), IH.
Qed.

Lemma take_while_none p q (s : string) :
  (forall c, p c = true -> q c = false) ->
  count_char q (take_while p s) = 0.
Proof.
  intros H. induction s as [|c s IH]; simpl; [reflexivity|].
  destruct (p c) eqn:E; simpl; [|reflexivity]. now rewrite (H c E), IH.
Qed.

Lemma digit_or_underscore_number c :
  is_digit_or_underscore c = true -> is_number_char c = true.
Proof. unfold is_number_char. intros ->. reflexivity. Qed.

Lemma digit_or_underscore_no_dot c :
  is_digit_or_underscore c = true -> is_dot c = false.
Proof.
  destruct c as [[] [] [] [] [] [] [] []]; vm_compute; congruence.
Qed.

Lemma re_fraction_shape (s : string) :
  all_chars is_number_char (re_fraction s) = true
  /\ count_char is_dot (re_fraction s) <= 1.
Proof.
  destruct s as [|a [|d r]]; simpl; try (split; [reflexivity | lia]).
  destruct (a =? ".")%char eqn:Ea; simpl; [|split; [reflexivity | lia]].
  destruct (is_digit d) eqn:Ed; simpl; [|split; [reflexivity | lia]].
  apply Ascii.eqb_eq in Ea. subst a.
  assert (Hd : is_digit_or_underscore d = true)
    by (unfold is_digit_or_underscore; now rewrite Ed).
  split.
  - rewrite (digit_or_underscore_number d Hd). simpl.
    apply take_while_all, digit_or_underscore_number.
  - rewrite (digit_or_underscore_no_dot d Hd).
    rewrite (take_while_none _ _ _ digit_or_underscore_no_dot).
    unfold is_dot. simpl. lia.
Qed.

(** What the number expression matches: a digit, then digits,
    underscores and dots, with at most one dot in all. *)
Lemma re_number_shape (s m : string) :
  re_number s = Some m ->
  exists c r,
    m = String c r /\ is_digit c = true
    /\ all_chars is_number_char r = true
    /\ count_char is_dot m <= 1.
Proof.
  destruct s as [|c r]; simpl; [discriminate|].
  destruct (is_digit c) eqn:Ec; [|discriminate].
  intros H; inversion H; subst; clear H.
  destruct (re_fraction_shape (drop_while is_digit_or_underscore r))
    as [F1 F2].
  assert (Hc : is_digit_or_underscore c = true)
    by (unfold is_digit_or_underscore; now rewrite Ec).
  do 2 eexists. split; [reflexivity|]. split; [exact Ec|]. split.
  - rewrite all_chars_app, F1, andb_true_r.
    apply take_while_all, digit_or_underscore_number.
  - simpl. rewrite (digit_or_underscore_no_dot c Hc), count_char_app.
    rewrite (take_while_none _ _ _ digit_or_underscore_no_dot). simpl. lia.
Qed.

Lemma re_string_body_shape_upto (n : nat) :
  forall s m, String.length s <= n ->
    re_string_body s = Some m ->
    exists inside, m = (inside ++ "'")%string /\ well_escaped inside = true.
Proof.
  induction n as [|n IH]; intros s m L;
    (destruct s as [|c r]; simpl in *; [discriminate|]); [lia|].
  destruct (c =? "'")%char eqn:Eq.
  - intros H; inversion H; subst. apply Ascii.eqb_eq in Eq. subst c.
    now exists ""%string.
  - destruct (c =? "\")%char eqn:Eb.
    + destruct r as [|d r']; [discriminate|].
      destruct (is_line_terminator d) eqn:El; [discriminate|].
      destruct (re_string_body r') as [m'|] eqn:E; [|discriminate].
      intros H; inversion H; subst.
      destruct (IH r' m') as [inside [-> W]]; [simpl in L; lia | exact E|].
      exists (String c (String d inside)). split; [reflexivity|].
      simpl. now rewrite Eq, Eb, El, W.
    + destruct (re_string_body r) as [m'|] eqn:E; [|discriminate].
      intros H; inversion H; subst.
      destruct (IH r m') as [inside [-> W]]; [lia | exact E|].
      exists (String c inside). split; [reflexivity|].
      simpl. now rewrite Eq, Eb, W.
Qed.

(** What the string expression matches: a quote, characters none of which
    is a quote outside an escape, and a quote. *)
Lemma re_string_shape (s m : string) :
  re_string s = Some m ->
  exists inside,
    m = ("'" ++ inside ++ "'")%string /\ well_escaped inside = true.
Proof.
  destruct s as [|c r]; simpl; [discriminate|].
  destruct (c =? "'")%char eqn:Eq; [|discriminate].
  destruct (re_string_body r) as [m'|] eqn:E; [|discriminate].
  intros H; inversion H; subst. apply Ascii.eqb_eq in Eq. subst c.
  destruct (re_string_body_shape_upto (String.length r) r m' (Nat.le_refl _) E)
    as [inside [-> W]].
  now exists inside.
Qed.

Section TokenizerTokens.

Open Scope list_scope.

Variable CHAR_TOKENS : ascii -> option LexicalToken.
Variable WORD_TOKENS : string -> option LexicalToken.

#[local] Abbreviation tokenize' := (tokenize CHAR_TOKENS WORD_TOKENS).

Lemma in_emitted source' t :
  In t (r_tokens (tokenize' source')) ->
  emitted CHAR_TOKENS WORD_TOKENS (split_lines source') t.
Proof.
  apply (proj1 (Forall_forall _ _)
           (tokens_emitted CHAR_TOKENS WORD_TOKENS source')).
Qed.

(** A scanned token of kind [NUMBER] or [STRING] comes from the match of
    that kind, when the tables do not hold the kind. *)
Lemma scanned_token_of_kind line li col t k :
  scanned_token CHAR_TOKENS WORD_TOKENS line li col t ->
  type t = k ->
  (forall k', table_kind CHAR_TOKENS WORD_TOKENS k' -> k' <> k) ->
  k = NUMBER \/ k = STRING ->
  (k = NUMBER /\ re_number (slice col line) = Some (lexeme t))
  \/ (k = STRING /\ re_string (slice col line) = Some (lexeme t)).
Proof.
  intros H E Ht Hk.
  assert (W : forall w, word_type WORD_TOKENS w = k -> k = IDENTIFIER).
  { intros w. unfold word_type. destruct (WORD_TOKENS w) as [k'|] eqn:Ew.
    - intros ->. exfalso. apply (Ht k); [|reflexivity]. right. now exists w.
    - now intros <-. }
  destruct H as [c k' Hc Hk'|m Hm|m Hm|w Hw Hb|m Hw Hm]; simpl in E.
  - exfalso. apply (Ht k'); [|exact E]. left. now exists c.
  - left. now subst k.
  - right. now subst k.
  - apply W in E. subst k. destruct Hk; discriminate.
  - exfalso. unfold comparison_type in E.
    repeat match type of E with
           | (if ?b then _ else _) = _ => destruct b
           end;
      try (subst k; destruct Hk; discriminate).
    apply W in E. subst k. destruct Hk; discriminate.
Qed.

(** X8.  No token of the result has the lexeme [less], [greater] or
    [than]: these words reach the token list only inside a comparison
    operator.  For every source and any tables. *)
Theorem no_bare_word_token source' t :
  In t (r_tokens (tokenize' source')) -> is_bare_word (lexeme t) = false.
Proof.
  intros Hin. apply in_emitted in Hin.
  destruct (is_bare_word (lexeme t)) eqn:B; [exfalso|reflexivity].
  apply bare_word_cases in B.
  destruct Hin as [V|[li [col [_ H]]]].
  - destruct V as [[_ E]|[[_ E]|[_ E]]]; rewrite E in B;
      destruct B as [B|[B|B]]; discriminate.
  - destruct H as [c k Hc Hk|m Hm|m Hm|w Hw Hb|m Hw Hm]; simpl in B.
    + destruct B as [B|[B|B]]; discriminate.
    + apply re_number_shape in Hm. destruct Hm as [c [r [-> [D _]]]].
      destruct B as [B|[B|B]]; inversion B; subst; discriminate.
    + apply re_string_shape in Hm. destruct Hm as [inside [-> _]].
      destruct B as [B|[B|B]]; discriminate.
    + destruct B as [B|[B|B]]; subst w; discriminate.
    + apply re_comparison_is in Hm. destruct Hm as [r Hr]. rewrite Hr in B.
      destruct B as [B|[B|B]]; discriminate.
Qed.

(** X9.  The lexeme of a [NUMBER] token starts with a digit, holds only
    digits, underscores and dots after it, and at most one dot.  For
    every source, over tables that do not hold [NUMBER]. *)
Theorem number_lexeme_shape :
  (forall k, table_kind CHAR_TOKENS WORD_TOKENS k -> k <> NUMBER) ->
  forall source' t,
    In t (r_tokens (tokenize' source')) -> type t = NUMBER ->
    exists c r,
      lexeme t = String c r /\ is_digit c = true
      /\ all_chars is_number_char r = true
      /\ count_char is_dot (lexeme t) <= 1.
Proof.
  intros Ht source' t Hin E. apply in_emitted in Hin.
  destruct Hin as [V|[li [col [_ H]]]].
  - destruct V as [[T _]|[[T _]|[[T|T] _]]]; congruence.
  - destruct (scanned_token_of_kind _ _ _ _ _ H E Ht (or_introl eq_refl))
      as [[_ R]|[D _]]; [|discriminate].
    now apply re_number_shape in R.
Qed.

(** X10.  The lexeme of a [STRING] token is a quote, an inside and a
    quote, and in the inside every quote comes after a backslash: the
    token ends at the first quote that is not escaped.  For every source,
    over tables that do not hold [STRING]. *)
Theorem string_lexeme_shape :
  (forall k, table_kind CHAR_TOKENS WORD_TOKENS k -> k <> STRING) ->
  forall source' t,
    In t (r_tokens (tokenize' source')) -> type t = STRING ->
    exists inside,
      lexeme t = ("'" ++ inside ++ "'")%string
      /\ well_escaped inside = true.
Proof.
  intros Ht source' t Hin E. apply in_emitted in Hin.
  destruct Hin as [V|[li [col [_ H]]]].
  - destruct V as [[T _]|[[T _]|[[T|T] _]]]; congruence.
  - destruct (scanned_token_of_kind _ _ _ _ _ H E Ht (or_intror eq_refl))
      as [[D _]|[_ R]]; [discriminate|].
    now apply re_string_shape in R.
Qed.

(** X11.  Every token that is not virtual lies on one line of the source:
    its span starts at a column of that line, is as wide as its lexeme,
    which is not empty, and ends inside the line.  For every source, over
    tables that hold no virtual kind. *)
Theorem token_span_in_line :
  (forall k, table_kind CHAR_TOKENS WORD_TOKENS k -> is_virtual k = false) ->
  forall source' t,
    In t (r_tokens (tokenize' source')) -> is_virtual (type t) = false ->
    exists li col,
      li < List.length (split_lines source')
      /\ span t = line_span li col (col + String.length (lexeme t))
      /\ 0 < String.length (lexeme t)
      /\ col + String.length (lexeme t)
         <= String.length (nth li (split_lines source') "").
Proof.
  intros Ht source' t Hin E. apply in_emitted in Hin.
  destruct Hin as [V|[li [col [L H]]]].
  - destruct V as [[T _]|[[T _]|[[T|T] _]]]; rewrite T in E; discriminate.
  - exists li, col. destruct (scanned_token_facts _ _ _ _ _ _ H) as [S [P N]].
    repeat split; auto. now apply starts_with_fits.
Qed.

End TokenizerTokens.

(** ** The order of the tokens *)

Lemma FOP_app {A : Type} (R : A -> A -> Prop) (a b : list A) :
  ForallOrdPairs R a -> ForallOrdPairs R b ->
  (forall x y, In x a -> In y b -> R x y) ->
  ForallOrdPairs R (a ++ b).
Proof.
  intros Ha Hb Hab. induction Ha as [|x a Fx Ha IH]; simpl; [exact Hb|].
  constructor.
  - apply Forall_app. split; [exact Fx|].
    apply Forall_forall. intros y Hy. apply Hab; [now left | exact Hy].
  - apply IH. intros x' y Hx' Hy. apply Hab; [now right | exact Hy].
Qed.

Lemma FOP_filter {A : Type} (R : A -> A -> Prop) (p : A -> bool)
    (l : list A) :
  ForallOrdPairs R l -> ForallOrdPairs R (filter p l).
Proof.
  induction 1 as [|x l Fx Hl IH]; simpl; [constructor|].
  destruct (p x); [|exact IH]. constructor; [|exact IH].
  apply Forall_forall. intros y Hy. apply filter_In in Hy.
  apply (proj1 (Forall_forall _ _) Fx). tauto.
Qed.

Section TokenizerOrder.

Open Scope list_scope.

Variable CHAR_TOKENS : ascii -> option LexicalToken.
Variable WORD_TOKENS : string -> option LexicalToken.

(** The tokens scanned along a line are on that line, from the column
    where the scan started, each before the next. *)
Lemma scan_chain_order line li c ts :
  scan_chain CHAR_TOKENS WORD_TOKENS line li c ts ->
  Forall (fun t => fst (start (span t)) = li /\ fst (end_ (span t)) = li
                   /\ c <= snd (start (span t))) ts
  /\ ForallOrdPairs token_before ts.
Proof.
  induction 1 as [c|c col t ts Hle Hs Hc [IH1 IH2]].
  - split; constructor.
  - destruct (scanned_token_facts _ _ _ _ _ _ Hs) as [S _].
    split.
    + constructor; [rewrite S; simpl; auto|].
      eapply Forall_impl; [|exact IH1]. intros t' [A [B C]].
      repeat split; auto. lia.
    + constructor; [|exact IH2].
      eapply Forall_impl; [|exact IH1]. intros t' [A [B C]].
      unfold token_before, pos_le. rewrite S. simpl. right. split; [auto|lia].
Qed.

Lemma not_virtual_app (a b : list Token) :
  not_virtual (a ++ b) = not_virtual a ++ not_virtual b.
Proof. apply filter_app. Qed.

Lemma not_virtual_repeat t n :
  is_virtual (type t) = true -> not_virtual (repeat t n) = [].
Proof.
  intros V. unfold not_virtual.
  induction n as [|n IH]; simpl; [reflexivity|]. now rewrite V.
Qed.

Lemma not_virtual_indent_tokens li prev n :
  not_virtual (indent_tokens li prev n) = [].
Proof.
  unfold indent_tokens.
  destruct (prev <? n)%nat; now apply not_virtual_repeat.
Qed.

Lemma not_virtual_outdents sp n :
  not_virtual (repeat (mkToken OUTDENT "" sp) n) = [].
Proof. now apply not_virtual_repeat. Qed.

(** X12.  The tokens that are not virtual come in reading order: each
    ends, on its line, at or before the column where the next starts, or
    on an earlier line.  For every source and any tables. *)
Theorem tokens_in_reading_order source' :
  ForallOrdPairs token_before
    (not_virtual (r_tokens (tokenize CHAR_TOKENS WORD_TOKENS source'))).
Proof.
  unfold tokenize, tokenize_this. simpl.
  destruct (scanLines_indexed CHAR_TOKENS WORD_TOKENS
              (fun i t =>
                 ForallOrdPairs token_before (not_virtual (tokens t))
                 /\ Forall (fun x => fst (end_ (span x)) < i)
                           (not_virtual (tokens t)))
              (newTokenizer source')) as [[H _] _].
  { simpl. split; constructor. }
  { intros i t L E [O B]. simpl in L, E.
    destruct (scanLine_run CHAR_TOKENS WORD_TOKENS i t)
      as [[_ [cs [-> _]]]|[_ [ts [cs [ds [-> [Ch _]]]]]]]; simpl.
    - rewrite app_nil_r. split; [exact O|].
      eapply Forall_impl; [|exact B]. intros x Hx. simpl in Hx. lia.
    - rewrite !not_virtual_app, not_virtual_indent_tokens. simpl.
      rewrite app_nil_r.
      apply scan_chain_order in Ch. destruct Ch as [P Q].
      assert (P' : Forall (fun x => fst (start (span x)) = i
                                    /\ fst (end_ (span x)) = i)
                          (not_virtual ts)).
      { apply Forall_forall. intros x Hx. apply filter_In in Hx.
        destruct Hx as [Hx _].
        apply (proj1 (Forall_forall _ _) P) in Hx. tauto. }
      split.
      + apply FOP_app; [exact O | now apply FOP_filter|].
        intros x y Hx Hy.
        apply (proj1 (Forall_forall _ _) B) in Hx.
        apply (proj1 (Forall_forall _ _) P') in Hy.
        unfold token_before, pos_le. left. simpl in Hx. lia.
      + apply Forall_app. split.
        * eapply Forall_impl; [|exact B]. intros x Hx. simpl in Hx. lia.
        * eapply Forall_impl; [|exact P']. intros x [_ Hx]. lia. }
  rewrite !not_virtual_app, not_virtual_outdents. simpl.
  now rewrite !app_nil_r.
Qed.

Lemma take_while_stop p (ws : string) c (r : string) :
  all_chars p ws = true -> p c = false ->
  take_while p (ws ++ String c r)%string = ws
  /\ drop_while p (ws ++ String c r)%string = String c r.
Proof.
  intros A N. induction ws as [|a ws IH]; simpl in *.
  - now rewrite N.
  - apply andb_true_iff in A. destruct A as [Ha A]. rewrite Ha.
    destruct (IH A) as [-> ->]. auto.
Qed.

(** X13.  The comparison operators are matched without looking at what
    follows them: when the line has, at a column, [is], one blank or
    more, and [not], the turn of the loop pushes one [IS_NOT] token over
    exactly these characters and goes on just after them, whatever comes
    next on the line (in [is nothing], [hing] is scanned next). *)
Theorem is_not_ignores_what_follows line li col this ws rest :
  CHAR_TOKENS "i"%char = None ->
  slice col line = ("is" ++ ws ++ "not" ++ rest)%string ->
  ws <> ""%string ->
  all_chars is_space ws = true ->
  scanChar CHAR_TOKENS WORD_TOKENS line li col this
  = (col + String.length ("is" ++ ws ++ "not")%string,
     push_tokens
       [mkToken IS_NOT ("is" ++ ws ++ "not")%string
          (line_span li col
             (col + String.length ("is" ++ ws ++ "not")%string))]
       this).
Proof.
  intros Hk Hs Hn Ha.
  destruct ws as [|b ws]; [congruence|]. clear Hn.
  assert (Hb : is_space b = true /\ all_chars is_space ws = true)
    by (simpl in Ha; now apply andb_true_iff in Ha).
  assert (Hc : charAt col line = Some "i"%char).
  { clear - Hs. unfold charAt. revert col Hs.
    induction line as [|a line IH]; intros col Hs.
    - destruct col; discriminate.
    - destruct col as [|col]; simpl in *; [now inversion Hs|]. now apply IH. }
  assert (Hw : re_word (slice col line) = Some "is"%string).
  { rewrite Hs. simpl. now rewrite (is_space_not_word b (proj1 Hb)). }
  rewrite (scanChar_word CHAR_TOKENS WORD_TOKENS line li col this
             "i"%char "is" Hc Hk Hw).
  unfold matchWord. change (is_bare_word "is") with false. cbv iota.
  change ("is" =? "is")%string with true. cbv iota.
  assert (Hm : re_comparison (slice col line)
               = Some (mkComparisonMatch
                         ("is" ++ String b ws ++ "not")%string "not" None)).
  { rewrite Hs. unfold re_comparison.
    change (strip_prefix "is" ("is" ++ String b ws ++ "not" ++ rest)%string)
      with (Some (String b ws ++ "not" ++ rest)%string).
    cbv iota. unfold re_spaces.
    destruct (take_while_stop is_space (String b ws) "n"%char
                ("ot" ++ rest)%string Ha eq_refl) as [T D].
    change (String b ws ++ "not" ++ rest)%string
      with (String b ws ++ String "n" ("ot" ++ rest))%string.
    rewrite T, D. reflexivity. }
  rewrite Hm. reflexivity.
Qed.

End TokenizerOrder.

(** ** The results over the tables modelled from the specification *)

Lemma spec_tables_without (k : LexicalToken) :
  Forall (fun k' => k' <> k) (map snd CHAR_TOKENS_entries) ->
  Forall (fun k' => k' <> k) (map snd WORD_TOKENS_entries) ->
  forall k', table_kind spec_CHAR_TOKENS spec_WORD_TOKENS k' -> k' <> k.
Proof. intros FC FW. now apply spec_tables_kinds. Qed.

Lemma spec_tables_no_eof :
  forall k, table_kind spec_CHAR_TOKENS spec_WORD_TOKENS k -> k <> EOF.
Proof. apply spec_tables_without; simpl; repeat constructor; discriminate. Qed.

Lemma spec_tables_no_newline :
  forall k, table_kind spec_CHAR_TOKENS spec_WORD_TOKENS k -> k <> NEWLINE.
Proof. apply spec_tables_without; simpl; repeat constructor; discriminate. Qed.

Lemma spec_tables_no_comment :
  forall k, table_kind spec_CHAR_TOKENS spec_WORD_TOKENS k -> k <> COMMENT.
Proof. apply spec_tables_without; simpl; repeat constructor; discriminate. Qed.

Lemma spec_tables_no_number :
  forall k, table_kind spec_CHAR_TOKENS spec_WORD_TOKENS k -> k <> NUMBER.
Proof. apply spec_tables_without; simpl; repeat constructor; discriminate. Qed.

Lemma spec_tables_no_string :
  forall k, table_kind spec_CHAR_TOKENS spec_WORD_TOKENS k -> k <> STRING.
Proof. apply spec_tables_without; simpl; repeat constructor; discriminate. Qed.

Lemma scan_turn_advances_witness :
  1 < fst (scanChar spec_CHAR_TOKENS spec_WORD_TOKENS "a12_3.4b" 0 1
                    (newTokenizer "a12_3.4b"))
    <= 8.
Proof.
  apply (scan_turn_advances spec_CHAR_TOKENS spec_WORD_TOKENS "a12_3.4b" 0 1
           (newTokenizer "a12_3.4b")).
  simpl. lia.
Defined.

Lemma indents_are_nested_witness :
  nesting 0 (r_tokens (tokenize_source indented_source)) = Some 0
  /\ forall before after,
       r_tokens (tokenize_source indented_source) = (before ++ after)%list ->
       count_kind OUTDENT before <= count_kind INDENT before.
Proof.
  exact (indents_are_nested spec_CHAR_TOKENS spec_WORD_TOKENS
           spec_tables_no_indent indented_source).
Defined.


Lemma eof_last_and_once_witness :
  exists before sp,
    r_tokens (tokenize_source sample_source)
    = (before ++ [mkToken EOF "" sp])%list
    /\ count_kind EOF before = 0
    /\ count_kind EOF (r_tokens (tokenize_source sample_source)) = 1.
Proof.
  exact (eof_last_and_once spec_CHAR_TOKENS spec_WORD_TOKENS
           spec_tables_no_eof sample_source).
Defined.

Lemma newline_per_code_line_witness :
  count_kind NEWLINE (r_tokens (tokenize_source sample_source))
  = List.length (filter is_code_line (split_lines sample_source)).
Proof.
  exact (newline_per_code_line spec_CHAR_TOKENS spec_WORD_TOKENS
           spec_tables_no_newline sample_source).
Defined.

Lemma comments_are_apart_witness :
  Forall (fun t => type t = COMMENT) (r_comments (tokenize_source sample_source))
  /\ List.length (filter is_comment_line (split_lines sample_source))
     <= List.length (r_comments (tokenize_source sample_source))
  /\ count_kind COMMENT (r_tokens (tokenize_source sample_source)) = 0.
Proof.
  exact (comments_are_apart spec_CHAR_TOKENS spec_WORD_TOKENS
           spec_tables_no_comment sample_source).
Defined.

Lemma no_code_line_only_eof_witness :
  r_tokens (tokenize_source comment_source)
  = [mkToken EOF "" (line_span 2 2 3)]
  /\ List.length (r_comments (tokenize_source comment_source)) = 1
  /\ r_diagnostics (tokenize_source comment_source) = [].
Proof.
  apply (no_code_line_only_eof spec_CHAR_TOKENS spec_WORD_TOKENS
           comment_source).
  intros line H. vm_compute in H.
  destruct H as [<-|[<-|[<-|[]]]]; reflexivity.
Defined.

Lemma no_bare_word_token_witness :
  is_bare_word (lexeme (mkToken IDENTIFIER "x" (line_span 0 0 1))) = false.
Proof.
  apply (no_bare_word_token spec_CHAR_TOKENS spec_WORD_TOKENS sample_source).
  vm_compute. left. reflexivity.
Defined.

Lemma number_lexeme_shape_witness :
  exists c r,
    "12_3.4" = String c r /\ is_digit c = true
    /\ all_chars is_number_char r = true
    /\ count_char is_dot "12_3.4" <= 1.
Proof.
  apply (number_lexeme_shape spec_CHAR_TOKENS spec_WORD_TOKENS
           spec_tables_no_number sample_source
           (mkToken NUMBER "12_3.4" (line_span 0 2 8))).
  - vm_compute. auto 20.
  - reflexivity.
Defined.

Lemma string_lexeme_shape_witness :
  exists inside,
    "'a\'b'" = ("'" ++ inside ++ "'")%string /\ well_escaped inside = true.
Proof.
  apply (string_lexeme_shape spec_CHAR_TOKENS spec_WORD_TOKENS
           spec_tables_no_string sample_source
           (mkToken STRING "'a\'b'" (line_span 0 9 15))).
  - vm_compute. auto 20.
  - reflexivity.
Defined.

Lemma token_span_in_line_witness :
  exists li col,
    li < List.length (split_lines sample_source)
    /\ line_span 1 3 9 = line_span li col (col + String.length "is not")
    /\ 0 < String.length "is not"
    /\ col + String.length "is not"
       <= String.length (nth li (split_lines sample_source) "").
Proof.
  apply (token_span_in_line spec_CHAR_TOKENS spec_WORD_TOKENS
           spec_tables_no_virtual sample_source
           (mkToken IS_NOT "is not" (line_span 1 3 9))).
  - vm_compute. auto 30.
  - reflexivity.
Defined.

Lemma is_not_ignores_what_follows_witness :
  scanChar spec_CHAR_TOKENS spec_WORD_TOKENS "x is nothing" 0 2
           (newTokenizer "x is nothing")
  = (2 + 6,
     push_tokens [mkToken IS_NOT "is not" (line_span 0 2 (2 + 6))]
                 (newTokenizer "x is nothing")).
Proof.
  refine (is_not_ignores_what_follows spec_CHAR_TOKENS spec_WORD_TOKENS
            "x is nothing" 0 2 (newTokenizer "x is nothing") " " "hing"
            eq_refl eq_refl _ eq_refl).
  discriminate.
Defined.

(* ================================================================== *)
(** * Splitting the source into lines *)

Lemma split_lines_from_count_upto (n : nat) : forall s current,
  String.length s <= n ->
  List.length (split_lines_from current s) = 1 + count_char is_line_feed s.
Proof.
  unfold is_line_feed.
  induction n as [|n IH]; intros s current L;
    (destruct s as [|c r]; [reflexivity|]); simpl in L; [lia|].
  cbn [split_lines_from count_char].
  destruct (code c =? 10)%nat eqn:E10.
  - cbn [List.length]. rewrite IH by lia. reflexivity.
  - destruct (code c =? 13)%nat; [|apply IH; lia].
    destruct r as [|d r']; [reflexivity|].
    destruct (code d =? 10)%nat eqn:Ed.
    + cbn [List.length count_char]. rewrite Ed.
      rewrite IH by (simpl in L; lia). reflexivity.
    + apply IH. lia.
Qed.

(** X14.  The source splits into one line more than it has line feeds: a
    source is never split into no line at all, and a line feed at the
    end of the source is followed by one more, empty, line. *)
Theorem split_lines_count (source' : string) :
  List.length (split_lines source') = 1 + count_char is_line_feed source'.
Proof.
  apply (split_lines_from_count_upto (String.length source')). lia.
Qed.

Lemma all_chars_snoc p (s : string) c :
  all_chars p (s ++ char_string c)%string = all_chars p s && p c.
Proof. rewrite all_chars_app. simpl. now rewrite andb_true_r. Qed.

Lemma split_lines_from_no_feed_upto (n : nat) : forall s current,
  String.length s <= n ->
  all_chars (fun c => negb (is_line_feed c)) current = true ->
  Forall (fun line => all_chars (fun c => negb (is_line_feed c)) line = true)
         (split_lines_from current s).
Proof.
  unfold is_line_feed.
  induction n as [|n IH]; intros s current L A;
    (destruct s as [|c r]; [now repeat constructor|]); simpl in L; [lia|].
  cbn [split_lines_from].
  destruct (code c =? 10)%nat eqn:E10.
  - constructor; [exact A|]. apply IH; [lia | reflexivity].
  - assert (A' : all_chars (fun c0 => negb (code c0 =? 10)%nat)
                           (current ++ char_string c)%string = true)
      by (rewrite all_chars_snoc, A, E10; reflexivity).
    destruct (code c =? 13)%nat; [|apply IH; [lia | exact A']].
    destruct r as [|d r']; [now repeat constructor|].
    destruct (code d =? 10)%nat.
    + constructor; [exact A|]. apply IH; [simpl in L; lia | reflexivity].
    + apply IH; [lia | exact A'].
Qed.

(** X15.  No line of the split source holds a line feed. *)
Theorem split_lines_no_line_feed (source' : string) :
  Forall (fun line => all_chars (fun c => negb (is_line_feed c)) line = true)
         (split_lines source').
Proof.
  apply (split_lines_from_no_feed_upto (String.length source'));
    [lia | reflexivity].
Qed.

Lemma join_lines_cons (line : string) (ls : list string) :
  ls <> [] ->
  join_lines (line :: ls)
  = (line ++ char_string "010" ++ join_lines ls)%string.
Proof. destruct ls; [congruence | reflexivity]. Qed.

Lemma split_lines_from_not_nil current s : split_lines_from current s <> [].
Proof.
  intros H.
  pose proof (split_lines_from_count_upto (String.length s) s current
                (Nat.le_refl _)) as L.
  rewrite H in L. simpl in L. lia.
Qed.

Lemma join_split_from (s : string) : forall current,
  has_cr_lf s = false ->
  join_lines (split_lines_from current s) = (current ++ s)%string.
Proof.
  induction s as [|c r IH]; intros current H.
  - simpl. now rewrite app_empty_r.
  - cbn [split_lines_from].
    assert (Hr : has_cr_lf r = false).
    { simpl in H. destruct r as [|d r']; [reflexivity|].
      apply orb_false_iff in H. tauto. }
    destruct (code c =? 10)%nat eqn:E10.
    + rewrite join_lines_cons by apply split_lines_from_not_nil.
      rewrite (IH "" Hr). simpl.
      apply Nat.eqb_eq in E10.
      assert (c = "010"%char) as ->.
      { rewrite <- (ascii_nat_embedding c). unfold code in E10.
        now rewrite E10. }
      reflexivity.
    + assert (G : join_lines (split_lines_from (current ++ char_string c) r)
                  = (current ++ String c r)%string).
      { rewrite (IH _ Hr), app_assoc_s. reflexivity. }
      destruct (code c =? 13)%nat eqn:E13; [|exact G].
      destruct r as [|d r']; [reflexivity|].
      destruct (code d =? 10)%nat eqn:Ed; [|exact G].
      simpl in H. unfold is_carriage_return, is_line_feed in H.
      rewrite E13, Ed in H. discriminate.
Qed.

(** X16.  Splitting loses nothing but the carriage returns that stand
    just before a line feed: when the source has none, joining the lines
    with line feeds gives the source back. *)
Theorem join_split_lines (source' : string) :
  has_cr_lf source' = false ->
  join_lines (split_lines source') = source'.
Proof. apply (join_split_from source' ""). Qed.

Lemma join_split_lines_witness :
  join_lines
    (split_lines
       ("a" ++ char_string "013" ++ "b" ++ char_string "010" ++ "c")%string)
  = ("a" ++ char_string "013" ++ "b" ++ char_string "010" ++ "c")%string.
Proof.
  apply (join_split_lines
           ("a" ++ char_string "013" ++ "b" ++ char_string "010" ++ "c")%string).
  reflexivity.
Defined.

(* ================================================================== *)
(** * The helper [sanitize] *)

Lemma sanitize_cons (c : ascii) (r : string) :
  sanitize (String c r) = (escape_char c ++ sanitize r)%string.
Proof.
  unfold sanitize, escape_char. cbn [replace_char].
  destruct (c =? "\")%char eqn:Eb.
  - reflexivity.
  - cbn [replace_char]. destruct (c =? "010")%char eqn:El.
    + reflexivity.
    + cbn [replace_char]. destruct (c =? "009")%char; reflexivity.
Qed.

Lemma sanitize_escape_all (text : string) : sanitize text = escape_all text.
Proof.
  induction text as [|c r IH]; [reflexivity|].
  rewrite sanitize_cons. simpl. now rewrite IH.
Qed.

(** X17.  The three replacements of [sanitize], made one after the other
    over the whole text, come to one pass that writes each character on
    its own: a backslash as two, a line feed as backslash-n, a tab as
    backslash-t, and any other character as it is.  No replacement
    rewrites what an earlier one wrote. *)
Theorem sanitize_one_pass (text : string) : sanitize text = escape_all text.
Proof. apply sanitize_escape_all. Qed.

Lemma escape_char_clean (c : ascii) :
  all_chars (fun a => negb (is_line_feed a || is_tab a)) (escape_char c)
  = true.
Proof.
  destruct c as [[] [] [] [] [] [] [] []]; vm_compute; reflexivity.
Qed.

(** X18.  The sanitized text holds no line feed and no tab. *)
Theorem sanitize_no_line_feed_no_tab (text : string) :
  all_chars (fun a => negb (is_line_feed a || is_tab a)) (sanitize text)
  = true.
Proof.
  rewrite sanitize_escape_all.
  induction text as [|c r IH]; [reflexivity|].
  simpl. now rewrite all_chars_app, escape_char_clean, IH.
Qed.

Lemma escape_char_cases (c : ascii) :
  (c = "\"%char /\ escape_char c = "\\")
  \/ (c = "010"%char /\ escape_char c = "\n")
  \/ (c = "009"%char /\ escape_char c = "\t")
  \/ (c <> "\"%char /\ escape_char c = char_string c).
Proof.
  unfold escape_char.
  destruct (Ascii.eqb_spec c "\"%char) as [->|N]; [now left|].
  destruct (Ascii.eqb_spec c "010"%char) as [->|N1]; [right; now left|].
  destruct (Ascii.eqb_spec c "009"%char) as [->|N2];
    [right; right; now left|].
  right. right. right. auto.
Qed.

Lemma escape_all_injective (a : string) : forall b,
  escape_all a = escape_all b -> a = b.
Proof.
  induction a as [|c a IH]; intros b H.
  - destruct b as [|d b]; [reflexivity|]. simpl in H.
    destruct (escape_char_cases d) as [[_ E]|[[_ E]|[[_ E]|[_ E]]]];
      rewrite E in H; discriminate.
  - destruct b as [|d b]; simpl in H.
    + destruct (escape_char_cases c) as [[_ E]|[[_ E]|[[_ E]|[_ E]]]];
        rewrite E in H; discriminate.
    + destruct (escape_char_cases c) as [[Hc E]|[[Hc E]|[[Hc E]|[Hc E]]]];
        destruct (escape_char_cases d) as [[Hd F]|[[Hd F]|[[Hd F]|[Hd F]]]];
        rewrite E, F in H; simpl in H; inversion H; subst;
        try congruence; f_equal; now apply IH.
Qed.

(** X19.  [sanitize] loses nothing: two texts with the same sanitized
    form are the same text. *)
Theorem sanitize_injective (a b : string) :
  sanitize a = sanitize b -> a = b.
Proof. rewrite !sanitize_escape_all. apply escape_all_injective. Qed.

Lemma sanitize_injective_witness :
  ("a\" ++ char_string "010")%string = ("a\" ++ char_string "010")%string.
Proof.
  apply (sanitize_injective ("a\" ++ char_string "010")%string
           ("a\" ++ char_string "010")%string).
  reflexivity.
Defined.

(* ================================================================== *)
(** * Further properties of [newExpr] and [variableDecl] *)

Lemma check_false kind p :
  type (peek_at p) <> kind -> check kind p = false.
Proof.
  intros H. unfold check.
  destruct (LexicalToken_eqb (type (peek_at p)) kind) eqn:E; [|reflexivity].
  apply LexicalToken_eqb_eq in E. contradiction.
Qed.

Lemma skipNewlines_stop fuel p :
  check NEWLINE p = false -> skipNewlines fuel p = p.
Proof. intros H. destruct fuel; simpl; [reflexivity | now rewrite H]. Qed.

Lemma ignoreNewline_stop p :
  check NEWLINE p = false -> ignoreNewline p = Ok tt p.
Proof. intros H. unfold ignoreNewline. now rewrite skipNewlines_stop. Qed.

Lemma match_false kind p : check kind p = false -> match_ kind p = Ok false p.
Proof. intros H. unfold match_. now rewrite H. Qed.

Lemma is_name_chain_member_chain properties : forall base,
  is_name_chain (member_chain base properties) = is_name_chain base.
Proof.
  unfold member_chain.
  induction properties as [|property properties IH]; intros base; simpl;
    [reflexivity|].
  now rewrite IH.
Qed.

Section NewExprMore.

Variable parsePrecedence' : Precedence -> string -> Handler -> M Node.
Variable memberExpr' : Node -> Token -> M Node.
Variable matchGenericArgs' : M (list VariableType).
Variable matchExpressionList' : LexicalToken -> M (list Node).

#[local] Abbreviation newExpr' :=
  (newExpr parsePrecedence' memberExpr' matchGenericArgs'
           matchExpressionList').

(** X20.  When the expression after [new] is followed by a token that is
    neither a newline, a dot, [<] nor [(], [newExpr] builds no node: it
    throws the error "Expected '(' after the class" at that token, with
    the info "Add a '(' after this class" at the span of the expression,
    and leaves the cursor on the token. *)
Theorem newExpr_missing_parenthesis prefix p base p1 :
  parsePrecedence' OP11 "Expected an expression after 'new'"
    (fun _ => [("Add an expression after this new", span prefix)])
    (skipNewlines (remaining p) p) = Ok base p1 ->
  type (peek_at p1) <> NEWLINE ->
  type (peek_at p1) <> DOT ->
  type (peek_at p1) <> LT ->
  type (peek_at p1) <> L_PAR ->
  newExpr' prefix p
  = Thrown
      (mkDiagnostic ERROR "parser" "Expected '(' after the class"
         (span (peek_at p1))
         [("Add a '(' after this class", nodeSpan base)])
      p1.
Proof.
  intros H Hn Hd Hl Hp.
  apply check_false in Hn, Hd, Hl, Hp.
  unfold newExpr, bind.
  change (ignoreNewline p) with (Ok tt (skipNewlines (remaining p) p)).
  cbv beta iota. rewrite H. rewrite (ignoreNewline_stop p1 Hn).
  cbn [memberLoop]. unfold bind. rewrite (match_false DOT p1 Hd).
  unfold ret. rewrite (ignoreNewline_stop p1 Hn).
  rewrite (match_false LT p1 Hl).
  unfold consume, throw. now rewrite Hp.
Qed.

(** X21.  The span of the node [newExpr] returns runs from the start of
    the [new] token to the end of the last token consumed. *)
Theorem newExpr_span prefix p node p' :
  newExpr' prefix p = Ok node p' ->
  nodeSpan node = mkSpan (start (span prefix)) (end_ (span (previous_at p'))).
Proof.
  unfold newExpr. intros H.
  apply bind_ok in H as ([] & q0 & _ & H).
  apply bind_ok in H as (base & p1 & _ & H).
  apply bind_ok in H as ([] & q1 & _ & H).
  apply bind_ok in H as (object & p2 & _ & H).
  apply bind_ok in H as ([] & q2 & _ & H).
  apply bind_ok in H as (isLt & p3 & _ & H).
  apply bind_ok in H as (genericArgs & p4 & _ & H).
  apply bind_ok in H as (paren & p5 & _ & H).
  apply bind_ok in H as (params & p6 & _ & H).
  apply bind_ok in H as (last & p7 & E & H).
  unfold previous in E. inversion E; subst. inversion H; subst. reflexivity.
Qed.

Lemma memberLoop_name_chain fuel :
  (forall object dot q node q',
     memberExpr' object dot q = Ok node q' ->
     exists property sp, node = MemberExpression object property sp) ->
  forall object p object' p',
    memberLoop memberExpr' fuel object p = Ok object' p' ->
    is_name_chain object' = is_name_chain object.
Proof.
  intros Hm.
  induction fuel as [|fuel IH]; intros object p object' p' H; simpl in H;
    [discriminate|].
  apply bind_ok in H as (isDot & p1 & _ & H). destruct isDot.
  - apply bind_ok in H as (dot & p2 & _ & H).
    apply bind_ok in H as (object1 & p3 & E & H).
    apply Hm in E. destruct E as [property [sp ->]].
    apply IH in H. exact H.
  - inversion H; subst. reflexivity.
Qed.

(** X22.  Whenever [memberExpr] returns a member expression over the
    object it is given (as the form of section 4.2.4 does) and the
    expression after [new] is an identifier or a chain of members over
    one, so is the object of the node [newExpr] returns: the loop of
    [newExpr] passes the object through [memberExpr] and does nothing
    else to it. *)
Theorem newExpr_keeps_name_chain prefix p node p' base p1 :
  (forall object dot q node' q',
     memberExpr' object dot q = Ok node' q' ->
     exists property sp, node' = MemberExpression object property sp) ->
  newExpr' prefix p = Ok node p' ->
  parsePrecedence' OP11 "Expected an expression after 'new'"
    (fun _ => [("Add an expression after this new", span prefix)])
    (skipNewlines (remaining p) p) = Ok base p1 ->
  is_name_chain base = true ->
  exists object genericArgs params sp,
    node = NewExpression object genericArgs params sp
    /\ is_name_chain object = true.
Proof.
  unfold newExpr. intros Hm H Hb Hn.
  apply bind_ok in H as ([] & q0 & E0 & H). inversion E0; subst q0.
  apply bind_ok in H as (base' & p1' & E1 & H).
  rewrite Hb in E1. inversion E1; subst base' p1'.
  apply bind_ok in H as ([] & q1 & _ & H).
  apply bind_ok in H as (object & p2 & E2 & H).
  apply (memberLoop_name_chain _ Hm) in E2.
  apply bind_ok in H as ([] & q2 & _ & H).
  apply bind_ok in H as (isLt & p3 & _ & H).
  apply bind_ok in H as (genericArgs & p4 & _ & H).
  apply bind_ok in H as (paren & p5 & _ & H).
  apply bind_ok in H as (params & p6 & _ & H).
  apply bind_ok in H as (last & p7 & _ & H).
  inversion H; subst. do 4 eexists. split; [reflexivity|].
  now rewrite E2.
Qed.

End NewExprMore.

(** The member expression of section 4.2.4 is one over the object it is
    given. *)
Lemma memberExpr_member object dot q node q' :
  memberExpr object dot q = Ok node q' ->
  exists property sp, node = MemberExpression object property sp.
Proof.
  unfold memberExpr. intros H.
  apply bind_ok in H as (property & q1 & _ & H). inversion H; subst.
  now do 2 eexists.
Qed.

(** X23.  [variableDecl] returns a declaration of a variable and nothing
    else: an [EmptyVariableDeclaration], or a [VariableDeclaration] with
    its value; the name is an [IDENTIFIER] token, and the span runs from
    the start of the token at the cursor when it is called to the end of
    the last token consumed. *)
Theorem variableDecl_result ladder p node p' :
  variableDecl ladder p = Ok node p' ->
  exists identifier variableType,
    type identifier = IDENTIFIER
    /\ let sp := mkSpan (start (span (peek_at p)))
                        (end_ (span (previous_at p'))) in
       node = EmptyVariableDeclaration identifier variableType sp
       \/ exists value',
            node = VariableDeclaration identifier variableType value' sp.
Proof.
  unfold variableDecl. intros H.
  apply bind_ok in H as (first & q0 & E0 & H).
  unfold peek in E0. inversion E0; subst first q0.
  apply bind_ok in H as ([] & q1 & _ & H).
  apply bind_ok in H as (identifier & p1 & Ei & H).
  apply consume_type in Ei; [|discriminate].
  apply bind_ok in H as (isColon & p2 & _ & H).
  apply bind_ok in H as (variableType & p3 & _ & H).
  apply bind_ok in H as (isEqual & p4 & _ & H).
  exists identifier, variableType. split; [exact Ei|].
  destruct isEqual.
  - apply bind_ok in H as ([] & q2 & _ & H).
    apply bind_ok in H as (expr & p5 & _ & H).
    apply bind_ok in H as (last & p6 & E & H).
    unfold previous in E. inversion E; subst. inversion H; subst.
    right. now exists expr.
  - apply bind_ok in H as (last & p6 & E & H).
    unfold previous in E. inversion E; subst. inversion H; subst.
    now left.
Qed.

(** X24.  When the token after [var] (and the newlines that follow it)
    is not an identifier, [variableDecl] builds no node: it throws the
    error [Expected an identifier after "var"] at that token, without
    [info], and leaves the cursor on the token. *)
Theorem variableDecl_missing_identifier ladder p :
  let p0 := skipNewlines (remaining p) p in
  type (peek_at p0) <> IDENTIFIER ->
  variableDecl ladder p
  = Thrown
      (mkDiagnostic ERROR "parser"
         ("Expected an identifier after " ++ double_quote ++ "var"
          ++ double_quote)%string
         (span (peek_at p0)) [])
      p0.
Proof.
  intros p0 H. apply check_false in H.
  unfold variableDecl, bind, peek.
  change (ignoreNewline p) with (Ok tt p0). cbv beta iota.
  unfold consume, throw. now rewrite H.
Qed.

Lemma newExpr_missing_parenthesis_witness :
  newExpr (parsePrecedence SpecLadder) memberExpr matchGenericArgs
    (matchExpressionList (parsePrecedence SpecLadder))
    (mkToken NEW "new" (line_span 0 0 3))
    (mkParser (r_tokens (tokenize_source "new(5)+1")) 1 [])
  = Thrown
      (mkDiagnostic ERROR "parser" "Expected '(' after the class"
         (line_span 0 6 7)
         [("Add a '(' after this class", line_span 0 3 6)])
      (mkParser (r_tokens (tokenize_source "new(5)+1")) 4 []).
Proof.
  refine (newExpr_missing_parenthesis (parsePrecedence SpecLadder)
            memberExpr matchGenericArgs
            (matchExpressionList (parsePrecedence SpecLadder))
            (mkToken NEW "new" (line_span 0 0 3))
            (mkParser (r_tokens (tokenize_source "new(5)+1")) 1 [])
            wrapped_number
            (mkParser (r_tokens (tokenize_source "new(5)+1")) 4 [])
            _ _ _ _ _);
    vm_compute; [reflexivity | discriminate ..].
Defined.

Lemma newExpr_span_witness :
  nodeSpan new_number
  = mkSpan (start (line_span 0 0 3))
           (end_ (span (previous_at (mkParser new_number_tokens 9 [])))).
Proof.
  refine (newExpr_span (parsePrecedence SpecLadder) memberExpr
            matchGenericArgs
            (matchExpressionList (parsePrecedence SpecLadder))
            (mkToken NEW "new" (line_span 0 0 3))
            after_new new_number (mkParser new_number_tokens 9 []) _).
  vm_compute. reflexivity.
Defined.

(** [new a.b<T>()], with the postfix forms below OP11: the expression
    after [new] is the identifier [a], the loop makes one turn, and the
    object is the member expression [a.b]. *)
Lemma newExpr_keeps_name_chain_witness :
  exists object genericArgs params sp,
    new_member = NewExpression object genericArgs params sp
    /\ is_name_chain object = true.
Proof.
  refine (newExpr_keeps_name_chain (parsePrecedence NewExprLadder)
            memberExpr matchGenericArgs
            (matchExpressionList (parsePrecedence NewExprLadder))
            (mkToken NEW "new" (line_span 0 0 3)) after_new_member
            new_member (mkParser new_member_tokens 9 [])
            name_a (mkParser new_member_tokens 2 [])
            memberExpr_member _ _ _);
    vm_compute; reflexivity.
Defined.

Lemma variableDecl_result_witness :
  exists identifier variableType,
    type identifier = IDENTIFIER
    /\ let sp := mkSpan (start (span (peek_at after_var_x)))
                        (end_ (span (previous_at
                                       (result_parser after_var_x
                                                      var_x_result)))) in
       result_value (This (line_span 0 0 0)) var_x_result
       = EmptyVariableDeclaration identifier variableType sp
       \/ exists value',
            result_value (This (line_span 0 0 0)) var_x_result
            = VariableDeclaration identifier variableType value' sp.
Proof.
  refine (variableDecl_result SpecLadder after_var_x
            (result_value (This (line_span 0 0 0)) var_x_result)
            (result_parser after_var_x var_x_result) _).
  vm_compute. reflexivity.
Defined.

Lemma variableDecl_missing_identifier_witness :
  variableDecl SpecLadder after_var_5
  = Thrown
      (mkDiagnostic ERROR "parser"
         ("Expected an identifier after " ++ double_quote ++ "var"
          ++ double_quote)%string
         (span (peek_at (skipNewlines (remaining after_var_5) after_var_5)))
         [])
      (skipNewlines (remaining after_var_5) after_var_5).
Proof.
  refine (variableDecl_missing_identifier SpecLadder after_var_5 _).
  vm_compute. discriminate.
Defined.

(* ================================================================== *)
(** * Line ends *)

Lemma split_lines_from_crlf (s : string) : forall current,
  count_char is_carriage_return s = 0 ->
  split_lines_from current (to_crlf s) = split_lines_from current s.
Proof.
  unfold to_crlf, is_carriage_return.
  induction s as [|c r IH]; intros current H; [reflexivity|].
  cbn [count_char] in H.
  destruct (code c =? 13)%nat eqn:E13; [simpl in H; lia|].
  simpl in H. cbn [replace_char].
  destruct (Ascii.eqb_spec c "010"%char) as [->|N].
  - simpl. f_equal. now apply IH.
  - cbn [split_lines_from]. rewrite E13.
    destruct (code c =? 10)%nat; [f_equal|]; now apply IH.
Qed.

(** X25.  Line ends written as carriage return and line feed give the
    same result as line feeds alone: for a source without a carriage
    return, putting one before every line feed changes neither the lines
    nor anything the tokenizer returns. *)
Theorem crlf_same_result CHAR_TOKENS WORD_TOKENS (source' : string) :
  count_char is_carriage_return source' = 0 ->
  split_lines (to_crlf source') = split_lines source'
  /\ tokenize CHAR_TOKENS WORD_TOKENS (to_crlf source')
     = tokenize CHAR_TOKENS WORD_TOKENS source'.
Proof.
  intros H.
  assert (E : split_lines (to_crlf source') = split_lines source')
    by now apply split_lines_from_crlf.
  split; [exact E|]. unfold tokenize, newTokenizer. now rewrite E.
Qed.

Lemma crlf_same_result_witness :
  split_lines (to_crlf indented_source) = split_lines indented_source
  /\ tokenize_source (to_crlf indented_source)
     = tokenize_source indented_source.
Proof.
  apply (crlf_same_result spec_CHAR_TOKENS spec_WORD_TOKENS indented_source).
  reflexivity.
Defined.

Lemma split_lines_from_feed_upto (n : nat) : forall s current,
  String.length s <= n ->
  last_char s <> Some "013"%char ->
  split_lines_from current (s ++ char_string "010")%string
  = (split_lines_from current s ++ [""%string])%list.
Proof.
  induction n as [|n IH]; intros s current L H;
    (destruct s as [|c r]; [reflexivity|]); simpl in L; [lia|].
  assert (Hr : r <> ""%string -> last_char r <> Some "013"%char).
  { intros Hn. destruct r as [|d r']; [congruence|]. exact H. }
  cbn [append split_lines_from].
  destruct (code c =? 10)%nat eqn:E10.
  - destruct r as [|d r']; [reflexivity|].
    cbn [app]. f_equal. apply IH; [lia | apply Hr; discriminate].
  - destruct (code c =? 13)%nat eqn:E13.
    + destruct r as [|d r'].
      * exfalso. apply H. unfold last_char, charAt. simpl.
        apply Nat.eqb_eq in E13. f_equal.
        rewrite <- (ascii_nat_embedding c). unfold code in E13.
        now rewrite E13.
      * cbn [append]. destruct (code d =? 10)%nat eqn:Ed.
        -- destruct r' as [|e r'']; [reflexivity|].
           cbn [app]. f_equal.
           apply (IH (String e r'')); [simpl in L |- *; lia|].
           exact H.
        -- apply (IH (String d r')); [lia | apply Hr; discriminate].
    + destruct r as [|d r']; [reflexivity|].
      apply (IH (String d r')); [lia | apply Hr; discriminate].
Qed.

Section TrailingLineFeed.

Open Scope list_scope.

Variable CHAR_TOKENS : ascii -> option LexicalToken.
Variable WORD_TOKENS : string -> option LexicalToken.

Lemma scanChar_set_lines ls line li col this :
  scanChar CHAR_TOKENS WORD_TOKENS line li col (set_lines ls this)
  = (fst (scanChar CHAR_TOKENS WORD_TOKENS line li col this),
     set_lines ls (snd (scanChar CHAR_TOKENS WORD_TOKENS line li col this))).
Proof.
  unfold scanChar, matchNumber, matchString, matchComment, matchWord, error.
  repeat match goal with
         | |- context [match ?e with _ => _ end] =>
             lazymatch e with
             | context [set_lines] => fail
             | _ => destruct e
             end
         end; reflexivity.
Qed.

Lemma scanChars_set_lines ls fuel line li : forall col this,
  scanChars CHAR_TOKENS WORD_TOKENS fuel line li col (set_lines ls this)
  = set_lines ls (scanChars CHAR_TOKENS WORD_TOKENS fuel line li col this).
Proof.
  induction fuel as [|fuel IH]; intros col this; simpl; [reflexivity|].
  destruct (col <? String.length line)%nat; [|reflexivity].
  rewrite scanChar_set_lines.
  destruct (scanChar CHAR_TOKENS WORD_TOKENS line li col this) as [c' this'].
  apply IH.
Qed.

Lemma scanLine_set_lines ls i this :
  nth i ls ""%string = nth i (lines this) ""%string ->
  scanLine CHAR_TOKENS WORD_TOKENS i (set_lines ls this)
  = set_lines ls (scanLine CHAR_TOKENS WORD_TOKENS i this).
Proof.
  intros E. unfold scanLine. cbn [lines set_lines]. rewrite E.
  destruct (_ =? 0)%nat; [reflexivity|].
  destruct (starts_with_char _ _); [reflexivity|].
  unfold addIndentTokens. cbn [indent set_lines].
  destruct (_ <? _)%nat; [|destruct (_ <? _)%nat];
    unfold push_tokens, set_indent; cbn;
    match goal with
    | |- context [scanChars _ _ ?f ?l ?i ?c (mkTokenizer ls ?a ?b ?d ?e)] =>
        change (mkTokenizer ls a b d e)
          with (set_lines ls (mkTokenizer (lines this) a b d e));
        rewrite scanChars_set_lines
    end; reflexivity.
Qed.

Lemma scanLines_prefix (ls extra : list string) this :
  lines this = ls ->
  fold_left (fun this' i => scanLine CHAR_TOKENS WORD_TOKENS i this')
            (seq 0 (List.length ls)) (set_lines (ls ++ extra) this)
  = set_lines (ls ++ extra) (scanLines CHAR_TOKENS WORD_TOKENS this).
Proof.
  intros E. unfold scanLines. rewrite E.
  assert (G : forall n start t,
             start + n <= List.length ls -> lines t = ls ->
             fold_left (fun this' i => scanLine CHAR_TOKENS WORD_TOKENS i this')
                       (seq start n) (set_lines (ls ++ extra) t)
             = set_lines (ls ++ extra)
                 (fold_left
                    (fun this' i => scanLine CHAR_TOKENS WORD_TOKENS i this')
                    (seq start n) t)).
  { induction n as [|n IH]; intros start t L Et; simpl; [reflexivity|].
    rewrite scanLine_set_lines by (rewrite Et; apply app_nth1; lia).
    apply IH; [lia|]. now rewrite scanLine_lines. }
  apply G; [lia | exact E].
Qed.

Lemma scanLines_extra_blank (ls : list string) this :
  lines this = ls ->
  scanLines CHAR_TOKENS WORD_TOKENS (set_lines (ls ++ [""%string]) this)
  = set_lines (ls ++ [""%string]) (scanLines CHAR_TOKENS WORD_TOKENS this).
Proof.
  intros E. unfold scanLines at 1. cbn [lines set_lines].
  rewrite List.length_app, seq_app, fold_left_app. cbn [List.length seq].
  rewrite (scanLines_prefix ls [""%string] this E).
  cbn [fold_left plus]. unfold scanLine. cbn [lines set_lines].
  rewrite app_nth2 by lia. rewrite Nat.sub_diag. reflexivity.
Qed.

(** X26.  A line feed at the end of the source adds one empty line and
    changes nothing that the lines give.  With [done] the tokenizer after
    the lines of the source are scanned, and [n] the number of its lines:
    without the line feed the tokens are those of [done], then one closing
    [OUTDENT] for each open level on the last line (index [n - 1]), then
    [EOF] just after the end of the last line; with the line feed they are
    the same tokens of [done], with the same spans, then as many closing
    [OUTDENT]s on the added line (index [n]), then [EOF] at columns 0 to 1
    of the added line.  So the kinds and the lexemes are the same in the
    same order, and the comments and the diagnostics are the same.  For a
    source that does not end with a carriage return. *)
Theorem final_line_feed (source' : string) :
  last_char source' <> Some "013"%char ->
  let with_feed := tokenize CHAR_TOKENS WORD_TOKENS
                     (source' ++ char_string "010")%string in
  let without := tokenize CHAR_TOKENS WORD_TOKENS source' in
  let done := scanLines CHAR_TOKENS WORD_TOKENS (newTokenizer source') in
  let n := List.length (split_lines source') in
  let lastLength := String.length (nth (n - 1) (split_lines source') "") in
  split_lines (source' ++ char_string "010")
  = split_lines source' ++ [""%string]
  /\ r_tokens without
     = tokens done
       ++ repeat (mkToken OUTDENT "" (line_span (n - 1) 0 (indent done)))
                 (indent done)
       ++ [mkToken EOF "" (line_span (n - 1) lastLength (lastLength + 1))]
  /\ r_tokens with_feed
     = tokens done
       ++ repeat (mkToken OUTDENT "" (line_span n 0 (indent done)))
                 (indent done)
       ++ [mkToken EOF "" (line_span n 0 1)]
  /\ kinds_and_lexemes (r_tokens with_feed)
     = kinds_and_lexemes (r_tokens without)
  /\ r_comments with_feed = r_comments without
  /\ r_diagnostics with_feed = r_diagnostics without.
Proof.
  intros H with_feed without done n lastLength.
  assert (Hs : split_lines (source' ++ char_string "010")
              = split_lines source' ++ [""%string])
    by exact (split_lines_from_feed_upto (String.length source') source' ""
                (Nat.le_refl _) H).
  assert (W : r_tokens without
              = tokens done
                ++ repeat (mkToken OUTDENT ""
                             (line_span (n - 1) 0 (indent done)))
                          (indent done)
                ++ [mkToken EOF ""
                      (line_span (n - 1) lastLength (lastLength + 1))]).
  { subst without done n lastLength.
    unfold tokenize, tokenize_this.
    cbn [r_tokens tokens lines push_tokens].
    rewrite scanLines_lines. cbn [newTokenizer lines].
    now rewrite <- app_assoc. }
  assert (F : with_feed
              = mkTokenizeResult
                  (tokens done
                   ++ repeat (mkToken OUTDENT ""
                                (line_span n 0 (indent done)))
                             (indent done)
                   ++ [mkToken EOF "" (line_span n 0 1)])
                  (comments done) (diagnostics done)).
  { subst with_feed done n. unfold tokenize, newTokenizer. rewrite Hs.
    set (ls := split_lines source').
    change (mkTokenizer (ls ++ [""%string]) [] [] [] 0)
      with (set_lines (ls ++ [""%string]) (mkTokenizer ls [] [] [] 0)).
    unfold tokenize_this.
    rewrite (scanLines_extra_blank ls (mkTokenizer ls [] [] [] 0) eq_refl).
    cbn [tokens comments diagnostics indent lines push_tokens set_lines].
    rewrite List.length_app. cbn [List.length].
    replace (List.length ls + 1 - 1) with (List.length ls) by lia.
    rewrite app_nth2 by lia. rewrite Nat.sub_diag. cbn [nth String.length].
    now rewrite <- app_assoc. }
  split; [exact Hs|]. split; [exact W|].
  rewrite F. cbn [r_tokens r_comments r_diagnostics].
  split; [reflexivity|]. rewrite W.
  split; [|split; reflexivity].
  unfold kinds_and_lexemes. rewrite !map_app, !map_repeat. reflexivity.
Qed.

End TrailingLineFeed.

(** The source of two lines, the second one indented twice: the line feed
    moves the two closing [OUTDENT]s from line 1 to line 2, and [EOF]
    from columns 3 to 4 of line 1 to columns 0 to 1 of line 2. *)
Lemma final_line_feed_witness :
  let with_feed :=
    tokenize_source (indented_source ++ char_string "010")%string in
  let without := tokenize_source indented_source in
  let done :=
    scanLines spec_CHAR_TOKENS spec_WORD_TOKENS
              (newTokenizer indented_source) in
  let n := List.length (split_lines indented_source) in
  let lastLength :=
    String.length (nth (n - 1) (split_lines indented_source) "") in
  split_lines (indented_source ++ char_string "010")
  = (split_lines indented_source ++ [""%string])%list
  /\ r_tokens without
     = (tokens done
        ++ repeat (mkToken OUTDENT "" (line_span (n - 1) 0 (indent done)))
                  (indent done)
        ++ [mkToken EOF "" (line_span (n - 1) lastLength (lastLength + 1))])%list
  /\ r_tokens with_feed
     = (tokens done
        ++ repeat (mkToken OUTDENT "" (line_span n 0 (indent done)))
                  (indent done)
        ++ [mkToken EOF "" (line_span n 0 1)])%list
  /\ kinds_and_lexemes (r_tokens with_feed)
     = kinds_and_lexemes (r_tokens without)
  /\ r_comments with_feed = r_comments without
  /\ r_diagnostics with_feed = r_diagnostics without.
Proof.
  apply (final_line_feed spec_CHAR_TOKENS spec_WORD_TOKENS indented_source).
  vm_compute. discriminate.
Defined.

Example final_line_feed_tokens :
  r_tokens (tokenize_source indented_source)
  = [ mkToken IDENTIFIER "a" (line_span 0 0 1);
      mkToken NEWLINE (char_string "010") (line_span 0 1 2);
      mkToken INDENT (char_string "009") (line_span 1 0 2);
      mkToken INDENT (char_string "009") (line_span 1 0 2);
      mkToken IDENTIFIER "b" (line_span 1 2 3);
      mkToken NEWLINE (char_string "010") (line_span 1 3 4);
      mkToken OUTDENT "" (line_span 1 0 2);
      mkToken OUTDENT "" (line_span 1 0 2);
      mkToken EOF "" (line_span 1 3 4) ]%list
  /\ r_tokens (tokenize_source (indented_source ++ char_string "010")%string)
     = [ mkToken IDENTIFIER "a" (line_span 0 0 1);
         mkToken NEWLINE (char_string "010") (line_span 0 1 2);
         mkToken INDENT (char_string "009") (line_span 1 0 2);
         mkToken INDENT (char_string "009") (line_span 1 0 2);
         mkToken IDENTIFIER "b" (line_span 1 2 3);
         mkToken NEWLINE (char_string "010") (line_span 1 3 4);
         mkToken OUTDENT "" (line_span 2 0 2);
         mkToken OUTDENT "" (line_span 2 0 2);
         mkToken EOF "" (line_span 2 0 1) ]%list.
Proof. split; vm_compute; reflexivity. Qed.
